(** * Klotho engine: knowledge-base path search, edge expansion, path
      selection and the solve loop

    A shallow embedding of the parts of the Klotho engine that turn a
    construct graph plus constraints into a resource graph:

    - [pkg/knowledge_base/edge_kb.go]  ([Module knowledgebase]):
      [FindPaths], the path filter and the path choice of [ExpandEdges];
    - [pkg/engine/engine.go]           ([Module engine]):
      [handleEdgeConstainConstraint], [ApplyEdgeConstraint],
      [GenerateCombinations], [SolveGraph], [Run];
    - the earlier engine variant       ([Module engine_v1]):
      [handleEdgeConstainConstraint] over the end-state graph;
    - the path-selection package       ([Module path_selection]):
      [expandEdge], [expandPath], [renameAndReplaceInTempGraph],
      [findSubExpansionsToRun], [handleProperties], [addPathToGraph].

    Go maps are finite maps ([gmap]) and sets of keys ([gset]); a Go slice
    that is appended to while other holders still read it is a header
    [(array, len, cap)] into a store of backing arrays; a Go [int] that
    the code adds to is a [Z] wrapped into 64 bits; errors are values of
    the type [error]; functions of collaborators whose code is not part
    of the development are [Variable]s of a [Section] or the fields of a
    record of collaborators. *)

From Stdlib Require Import ZArith Lia.
From stdpp Require Import base option gmap strings pretty list sorting.


(** [reflect.Type]: the dynamic Go type of a resource, by name. *)
Abbreviation GoType := string (only parsing).

(* ===================================================================== *)
(** * Package [core]: identifiers, resources, graphs                      *)
(* ===================================================================== *)

Module core.

Record ResourceId := mkResourceId {
  Provider : string;
  Type_ : string;
  Namespace : string;
  Name : string;
}.

#[global] Instance ResourceId_eq_dec : EqDecision ResourceId.
Proof. solve_decision. Defined.

#[global] Instance ResourceId_countable : Countable ResourceId :=
  inj_countable'
    (λ i, (Provider i, Type_ i, Namespace i, Name i))
    (λ t, mkResourceId t.1.1.1 t.1.1.2 t.1.2 t.2)
    (λ i, match i with mkResourceId _ _ _ _ => eq_refl end).

(** Modelled from the spec: the constant [AbstractConstructProvider] is
    declared outside the files at hand; section 3 calls a construct "a
    resource whose provider is the reserved value abstract". *)
Definition AbstractConstructProvider : string := "abstract".

(** A [core.Resource] / [core.BaseConstruct] value: what the engine can
    observe of it is its dynamic type and its [Id()]. *)
Record Resource := mkResource {
  TypeOf : GoType;
  Id : ResourceId;
}.

#[global] Instance Resource_eq_dec : EqDecision Resource.
Proof. solve_decision. Defined.

(** Modelled from the spec: [core.ResourceGraph] and
    [core.ConstructGraph] are declared outside the files at hand.
    Section 3 describes a directed graph over a vertex set of resources
    whose edges carry properties with a [data] payload; section 4.A lists
    [add_vertex], [add_edge] and the edge queries.  Vertices are keyed by
    id, an edge by its (source id, destination id) pair, and adding a
    dependency with data records that data on the edge. *)
Section graph.
Context {D : Type}.

Record Dependency := mkDependency {
  Source : Resource;
  Destination : Resource;
  Data : D;                        (* dep.Properties.Data *)
}.

Record Graph := mkGraph {
  vertices : gmap ResourceId Resource;
  edges : gmap (ResourceId * ResourceId) D;
}.

Definition NewGraph : Graph := mkGraph ∅ ∅.

Definition GetResource (g : Graph) (id : ResourceId) : option Resource :=
  vertices g !! id.

Definition AddResource (g : Graph) (r : Resource) : Graph :=
  mkGraph (<[Id r := r]> (vertices g)) (edges g).

(** [GetDependency]: the edge between the two ids, [None] for Go's
    [nil].  The callers modelled here read only its [Data]. *)
Definition GetDependency (g : Graph) (s t : ResourceId) : option D :=
  edges g !! (s, t).

Definition AddDependencyWithData (g : Graph) (s t : ResourceId) (d : D)
  : Graph :=
  mkGraph (vertices g) (<[(s, t) := d]> (edges g)).

Definition RemoveDependency (g : Graph) (s t : ResourceId) : Graph :=
  mkGraph (vertices g) (delete (s, t) (edges g)).

Definition HasDependency (g : Graph) (s t : ResourceId) : bool :=
  bool_decide (is_Some (edges g !! (s, t))).

Definition ListResources (g : Graph) : list Resource :=
  (map_to_list (vertices g)).*2.

Definition ListDependencies (g : Graph) : list Dependency :=
  omap (λ '((s, t), d),
          src ← vertices g !! s;
          dst ← vertices g !! t;
          Some (mkDependency src dst d))
       (map_to_list (edges g)).
End graph.

Arguments Dependency : clear implicits.
Arguments Graph : clear implicits.

End core.


Import core.

(* ===================================================================== *)
(** * Package [constraints]                                               *)
(* ===================================================================== *)

Module constraints.

Inductive ConstraintScope :=
| ApplicationConstraintScope
| ConstructConstraintScope
| EdgeConstraintScope
| ResourceConstraintScope.

Inductive ConstraintOperator :=
| AddConstraintOperator
| RemoveConstraintOperator
| ReplaceConstraintOperator
| EqualsConstraintOperator
| MustExistConstraintOperator
| MustNotExistConstraintOperator
| MustContainConstraintOperator
| MustNotContainConstraintOperator.

#[global] Instance ConstraintOperator_eq_dec : EqDecision ConstraintOperator.
Proof. solve_decision. Defined.

(** [constraints.Edge]: the pair of ids an edge constraint targets. *)
Record Edge := mkEdge {
  Source : ResourceId;
  Target : ResourceId;
}.

(** [constraints.EdgeConstraint], with the fields the engine reads. *)
Record EdgeConstraint := mkEdgeConstraint {
  Operator : ConstraintOperator;
  EdgeTarget : Edge;                   (* constraint.Target *)
  Node : ResourceId;
}.

(** A constraint of any scope.  Only edge constraints are taken apart by
    the code modelled here; the others are told apart by a key. *)
Inductive Constraint :=
| OfEdge (c : EdgeConstraint)
| OfScope (scope : ConstraintScope) (key : nat).

End constraints.

(* ===================================================================== *)
(** * Errors                                                              *)
(* ===================================================================== *)

(** The error values built by the modelled code, one constructor per
    [fmt.Errorf] site and one per sentinel error of the graph library;
    [Errorf] stands for an error made by a collaborator and [Joined] for
    [errors.Join] and for a non-empty [multierr.Error]. *)
#[warnings="-register-all"] Inductive error :=
| Errorf (msg : string)
| ErrEdgeDataFormat (src dst : ResourceId)
| ErrMultiplePaths (src dst : ResourceId) (paths : list (list (GoType * GoType)))
| ErrNoPaths (src dst : ResourceId) (paths : list (list (GoType * GoType)))
| ErrEdgeMissing (src dst : ResourceId)
| ErrUnsatisfiedConstraints (cs : list constraints.Constraint)
| ErrNotOperational (id : ResourceId)
| ErrGraphSolving (joined : error)
| ErrMustNotExistForResources (target : constraints.Edge)
| ErrCastEdgeData (src dst : ResourceId)
| ErrNoResourcesForConstruct (id : ResourceId)
| ErrResourceNotFound (id : ResourceId)
| ErrVertexNotFound
| ErrVertexAlreadyExists
| ErrEdgeAlreadyExists
| ErrEdgeCreatesCycle
| ErrShortestPath (src dst : ResourceId) (wrapped : error)
| ErrNoEdgeTemplate (src dst : ResourceId)
| ErrWalk (graph : string) (wrapped : error)
| ErrNotAResource (id : ResourceId)
| ErrNoResources (id : ResourceId)
| ErrNoResourceTemplate (id : ResourceId) (wrapped : error)
| Joined (errs : list error).

#[global] Instance error_inhabited : Inhabited error := populate (Joined []).

(** [errors.Join(errs...)]: [nil] arguments are dropped, and the result is
    [nil] when nothing is left. *)
Definition errors_Join (errs : list (option error)) : option error :=
  match omap id errs with
  | [] => None
  | es => Some (Joined es)
  end.

(** Modelled from the spec: package [multierr] is not among the files at
    hand.  Section 7: errors "are accumulated (join_errors)".  A
    [multierr.Error] is the list of the errors appended so far; appending
    [nil] changes nothing and [ErrOrNil] is [nil] for the empty list. *)
Module multierr.

Abbreviation Error := (list error).

Definition Append (merr : Error) (err : option error) : Error :=
  match err with
  | Some e => merr ++ [e]
  | None => merr
  end.

Definition ErrOrNil (merr : Error) : option error :=
  match merr with
  | [] => None
  | _ => Some (Joined merr)
  end.

End multierr.

(* ===================================================================== *)
(** * Package [knowledgebase] (pkg/knowledge_base/edge_kb.go)             *)
(* ===================================================================== *)

Module knowledgebase.

(** An [Edge] of the knowledge base links two resource types. *)
Record Edge := mkEdge {
  Source : GoType;
  Destination : GoType;
}.

#[global] Instance Edge_eq_dec : EqDecision Edge.
Proof. solve_decision. Defined.

#[global] Instance Edge_countable : Countable Edge :=
  inj_countable'
    (λ e, (Source e, Destination e))
    (λ p, mkEdge p.1 p.2)
    (λ e, match e with mkEdge _ _ => eq_refl end).

(** [Path]: the value of a [[]Edge]. *)
Abbreviation Path := (list Edge).

(** [EdgeConstraint]: a Go slice is [nil] or a list, and the code tells
    the two apart ([!= nil]), so each field is an [option]. *)
Record EdgeConstraint := mkEdgeConstraint {
  NodeMustExist : option (list Resource);
  NodeMustNotExist : option (list Resource);
}.

Record EdgeData := mkEdgeData {
  AppName : string;
  EnvironmentVariables : list string;
  Constraint : EdgeConstraint;
  EdgeSource : option Resource;            (* EdgeData.Source *)
  EdgeDestination : option Resource;       (* EdgeData.Destination *)
  Routes : list string;
  SourceRef : option Resource;
}.

(** [EdgeData{}], the zero value. *)
Definition zeroEdgeData : EdgeData :=
  mkEdgeData "" [] (mkEdgeConstraint None None) None None [] None.

(** [append(s, r)] on a slice that may be [nil]. *)
Definition appendRes (s : option (list Resource)) (r : Resource)
  : option (list Resource) :=
  Some (default [] s ++ [r]).

(** The payload [dep.Properties.Data] has the static type [any]: it is
    [nil], an [EdgeData], or a value of some other type. *)
Inductive any :=
| AnyNil
| AnyEdgeData (d : EdgeData)
| AnyOther.

Abbreviation ResourceGraph := (core.Graph any).
Abbreviation ConstructGraph := (core.Graph any).
Abbreviation Dependency := (core.Dependency any).

(** [ExpandEdge] and [ConfigureEdge] work on the graph and on the two
    resources they are handed by pointer: they return the three of them
    as they leave them, and their error. *)
Definition ExpandEdge : Type :=
  Resource → Resource → ResourceGraph → EdgeData
  → (Resource * Resource * ResourceGraph) * option error.

Definition ConfigureEdge : Type :=
  Resource → Resource → ResourceGraph → EdgeData
  → (Resource * Resource * ResourceGraph) * option error.

Record EdgeDetails := mkEdgeDetails {
  ExpansionFunc : option ExpandEdge;
  Configure : option ConfigureEdge;
  ValidDestinations : list GoType;
  ReverseDirection : bool;
}.

(** [EdgeDetails{}], what a failed map lookup yields. *)
Definition zeroEdgeDetails : EdgeDetails := mkEdgeDetails None None [] false.

(** [EdgeKB] is [map[Edge]EdgeDetails]. *)
Abbreviation EdgeKB := (gmap Edge EdgeDetails).

Definition GetEdgeDetails (kb : EdgeKB) (source target : GoType)
  : EdgeDetails * bool :=
  match kb !! mkEdge source target with
  | Some detail => (detail, true)
  | None => (zeroEdgeDetails, false)
  end.

(** The keys of the map in the order a [range] visits them.  Go leaves
    that order open; the order of [map_to_list] stands for the order of
    one execution, and no theorem below depends on which it is. *)
Definition rangeKB (kb : EdgeKB) : list Edge := (map_to_list kb).*1.

Definition GetEdgesWithSource (kb : EdgeKB) (source : GoType) : list Edge :=
  filter (λ edge, Source edge = source) (rangeKB kb).

Definition GetEdgesWithTarget (kb : EdgeKB) (target : GoType) : list Edge :=
  filter (λ edge, Destination edge = target) (rangeKB kb).

Definition isValidForPath (kb : EdgeKB) (edge : Edge) (dest : GoType) : bool :=
  let edgeDetail := (GetEdgeDetails kb (Source edge) (Destination edge)).1 in
  bool_decide (dest ∈ ValidDestinations edgeDetail).

(** ** Slices of edges

    [findPaths] appends to [stack] and hands the result on, while the
    paths it has already put into [result] are headers into the same
    backing arrays.  A slice is therefore a header (array, length,
    capacity) and the arrays live in a [store].  [append] writes in place
    when the capacity allows it and moves to a new array otherwise; how
    much room a new array has is the runtime's choice, the function
    [growcap] of the capacity it grows from. *)

Record slice := mkSlice {
  arr : nat;
  len : nat;
  cap : nat;
}.

Abbreviation store := (list (list Edge)).

(** [[]Edge{}] *)
Definition emptySlice : slice := mkSlice 0 0 0.

Definition readSlice (h : store) (s : slice) : Path :=
  take (len s) (default [] (h !! arr s)).

Definition writeAt (a : list Edge) (i : nat) (e : Edge) : list Edge :=
  take i a ++ e :: drop (S i) a.

Definition append (growcap : nat → nat) (h : store) (s : slice) (e : Edge)
  : store * slice :=
  if decide (len s < cap s) then
    (alter (λ a, writeAt a (len s) e) (arr s) h,
     mkSlice (arr s) (S (len s)) (cap s))
  else
    (h ++ [readSlice h s ++ [e]],
     mkSlice (length h) (S (len s)) (Nat.max (S (len s)) (growcap (cap s)))).

(** The growth of the gc runtime for small slices: one element, then
    doubling. *)
Definition doubling (c : nat) : nat := if decide (c = 0) then 1 else 2 * c.

(** ** [FindPaths]: depth-first search over the knowledge base *)

(** What the search appends to [result] for one path: the slice header
    [hdr].  The field [recorded] is a ghost: the edges the header read at
    the moment it was appended.  The caller of [FindPaths] reads the
    headers after the search has ended ([FindPaths] below). *)
Record found := mkFound {
  hdr : slice;
  recorded : Path;
}.

(** The state the search mutates: the backing arrays and the map
    [visited], whose values are all [true]: a set of types. *)
Abbreviation searchState := (store * gset GoType)%type.

(** [for _, e := range edges { if ... { result = append(result, ...) } }] *)
Fixpoint rangeEdges
  (body : Edge → searchState → option (list found * searchState))
  (edges : list Edge) (result : list found) (σ : searchState)
  : option (list found * searchState) :=
  match edges with
  | [] => Some (result, σ)
  | e :: edges =>
      '(r, σ) ← body e σ;
      rangeEdges body edges (result ++ r) σ
  end.

Section find_paths.
Variable growcap : nat → nat.
Variable kb : EdgeKB.
Variable dest : GoType.

(** [findPaths]; [fuel] bounds the depth of the recursion and [None]
    means that it ran out ([findPaths_total] shows that it does not
    when the fuel exceeds the number of types of the knowledge base). *)
Fixpoint findPaths (fuel : nat) (source : GoType) (stack : slice)
  (σ : searchState) : option (list found * searchState) :=
  match fuel with
  | 0 => None
  | S fuel =>
      let '(h, visited) := σ in
      let visited := {[source]} ∪ visited in
      if decide (source = dest) then
        let '(h, stack) :=
          if decide (len stack = 0) then
            if (GetEdgeDetails kb source dest).2
            then append growcap h stack (mkEdge source dest)
            else (h, stack)
          else (h, stack) in
        let result :=
          if decide (len stack ≠ 0) then [mkFound stack (readSlice h stack)]
          else [] in
        Some (result, (h, visited ∖ {[source]}))
      else
        '(result, σ) ←
          rangeEdges
            (λ e '(h, visited),
               let det := (GetEdgeDetails kb (Source e) (Destination e)).1 in
               if negb (ReverseDirection det)
                  && bool_decide (Source e = source)
                  && bool_decide (Destination e ∉ visited)
                  && isValidForPath kb e dest
               then
                 let '(h, stack') := append growcap h stack e in
                 findPaths fuel (Destination e) stack' (h, visited)
               else Some ([], (h, visited)))
            (GetEdgesWithSource kb source) [] (h, visited);
        '(result, (h, visited)) ←
          rangeEdges
            (λ e '(h, visited),
               let det := (GetEdgeDetails kb (Source e) (Destination e)).1 in
               if ReverseDirection det
                  && bool_decide (Destination e = source)
                  && bool_decide (Source e ∉ visited)
                  && isValidForPath kb e dest
               then
                 let '(h, stack') := append growcap h stack e in
                 findPaths fuel (Source e) stack' (h, visited)
               else Some ([], (h, visited)))
            (GetEdgesWithTarget kb source) result σ;
        Some (result, (h, visited ∖ {[source]}))
  end.

End find_paths.

(** The resource types the knowledge base mentions. *)
Definition kbTypes (kb : EdgeKB) : gset GoType :=
  list_to_set (flat_map (λ e, [Source e; Destination e]) (rangeKB kb)).

(** [FindPaths]: the search from an empty stack and an empty [visited]
    map, and the paths as its caller reads them afterwards. *)
Definition FindPaths (growcap : nat → nat) (kb : EdgeKB)
  (source dest : GoType) : list Path :=
  match findPaths growcap kb dest (S (size (kbTypes kb))) source emptySlice
          ([], ∅) with
  | Some (result, (h, _)) => (λ f, readSlice h (hdr f)) <$> result
  | None => []
  end.

(** The types a path passes through when walked from [s]: an edge is
    taken from its source to its destination, or backwards when it is
    its destination that is the current type (an edge whose data flow
    runs against it). *)
Definition next (s : GoType) (e : Edge) : GoType :=
  if decide (Source e = s) then Destination e else Source e.

Fixpoint pathNodes (s : GoType) (p : Path) : list GoType :=
  match p with
  | [] => [s]
  | e :: p => s :: pathNodes (next s e) p
  end.

(** The end of that walk. *)
Fixpoint pathEnd (s : GoType) (p : Path) : GoType :=
  match p with
  | [] => s
  | e :: p => pathEnd (next s e) p
  end.

(** Every edge of the walk touches the type the walk has reached. *)
Fixpoint connected (s : GoType) (p : Path) : bool :=
  match p with
  | [] => true
  | e :: p =>
      (bool_decide (Source e = s) || bool_decide (Destination e = s))
      && connected (next s e) p
  end.

(** ** [ExpandEdges] *)

(** Lines 215-221 and 230-236: does some edge of the path have a source
    or destination type that is the type of one of the resources? *)
Definition nodeFound (path : Path) (nodes : list Resource) : bool :=
  foldl (λ found res,
           foldl (λ found node,
                    if bool_decide (Source res = TypeOf node)
                       || bool_decide (Destination res = TypeOf node)
                    then true else found)
                 found nodes)
        false path.

(** Lines 211-242, the body of the loop over [paths]: [true] when the
    path is appended to [validPaths], [false] when it is skipped. *)
Definition satisfiesConstraint (c : EdgeConstraint) (path : Path) : bool :=
  match NodeMustExist c with
  | Some mustExist =>
      if negb (nodeFound path mustExist) then false
      else
        match NodeMustNotExist c with
        | Some mustNotExist => negb (nodeFound path mustNotExist)
        | None => true
        end
  | None =>
      match NodeMustNotExist c with
      | Some mustNotExist => negb (nodeFound path mustNotExist)
      | None => true
      end
  end.

Definition validPathsOf (c : EdgeConstraint) (paths : list Path) : list Path :=
  filter (λ path, satisfiesConstraint c path = true) paths.

(** A list of paths as an error message prints it. *)
Definition showPaths (paths : list Path) : list (list (GoType * GoType)) :=
  map (map (λ e, (Source e, Destination e))) paths.

(** Lines 248-255: the body of the loop over [validPaths]. *)
Definition chooseStep (src dst : ResourceId) (validPaths : list Path)
  (st : Path * multierr.Error) (path : Path) : Path * multierr.Error :=
  let '(validPath, merr) := st in
  if decide (length validPath = 0) then (path, merr)
  else if decide (length path < length validPath) then (path, merr)
  else if decide (length path = length validPath) then
    (validPath,
     multierr.Append merr
       (Some (ErrMultiplePaths src dst (showPaths validPaths))))
  else (validPath, merr).

(** Lines 245-256: the shortest route that satisfied the constraints. *)
Definition choosePath (src dst : ResourceId) (validPaths : list Path)
  (merr : multierr.Error) : Path * multierr.Error :=
  foldl (chooseStep src dst validPaths) ([], merr) validPaths.

Section expand_edges.
Variable growcap : nat → nat.
(** [reflect.New(t.Elem()).Interface().(core.Resource)]: the zero
    resource of a type. *)
Variable newResource : GoType → Resource.

(** Lines 278-289 and 291-303: the node for one end of an edge of the
    path. *)
Definition pickNode (resourceCache : gmap GoType Resource) (t : GoType)
  (depEnd : Resource) (mustExist : option (list Resource)) : Resource :=
  let node := resourceCache !! t in
  let node := if decide (t = TypeOf depEnd) then Some depEnd else node in
  match node with
  | Some node => node
  | None =>
      foldl (λ node mustExistRes,
               if bool_decide (core.Type_ (Id mustExistRes) = core.Type_ (Id node))
                  && bool_decide (core.Provider (Id mustExistRes) = core.Provider (Id node))
                  && bool_decide (core.Namespace (Id mustExistRes) = core.Namespace (Id node))
               then mustExistRes else node)
            (newResource t) (default [] mustExist)
  end.

Definition cacheNode (dag : ResourceGraph) (t : GoType) (node : Resource)
  (resourceCache : gmap GoType Resource) : gmap GoType Resource :=
  let resourceCache := <[t := node]> resourceCache in
  match core.GetResource dag (Id node) with
  | Some inGraph => <[t := inGraph]> resourceCache
  | None => resourceCache
  end.

(** Lines 274-324, the body of the loop over the edges of [validPath]. *)
Definition expandPathEdge (kb : EdgeKB) (dep : Dependency)
  (edgeData : EdgeData)
  (st : ResourceGraph * multierr.Error * gmap GoType Resource) (edge : Edge)
  : ResourceGraph * multierr.Error * gmap GoType Resource :=
  let '(dag, merr, resourceCache) := st in
  let source := Source edge in
  let dest := Destination edge in
  let edgeDetail := (GetEdgeDetails kb source dest).1 in
  let mustExist := NodeMustExist (Constraint edgeData) in
  let sourceNode := pickNode resourceCache source (core.Source dep) mustExist in
  let destNode := pickNode resourceCache dest (core.Destination dep) mustExist in
  let '(sourceNode, destNode, dag, merr) :=
    match ExpansionFunc edgeDetail with
    | Some expand =>
        let '((sourceNode, destNode, dag), err) :=
          expand sourceNode destNode dag edgeData in
        (sourceNode, destNode, dag, multierr.Append merr err)
    | None => (sourceNode, destNode, dag, merr)
    end in
  let resourceCache := cacheNode dag source sourceNode resourceCache in
  let resourceCache := cacheNode dag dest destNode resourceCache in
  (dag, merr, resourceCache).

(** Lines 195-207: the edge data read off the dependency. *)
Definition edgeDataOf (appName : string) (dep : Dependency)
  (merr : multierr.Error) : EdgeData * multierr.Error :=
  let '(edgeData, merr) :=
    match core.Data dep with
    | AnyOther =>
        (zeroEdgeData,
         multierr.Append merr
           (Some (ErrEdgeDataFormat (Id (core.Source dep))
                                    (Id (core.Destination dep)))))
    | AnyEdgeData data => (data, merr)
    | AnyNil => (zeroEdgeData, merr)
    end in
  (mkEdgeData appName (EnvironmentVariables edgeData) (Constraint edgeData)
     (Some (core.Source dep)) (Some (core.Destination dep))
     (Routes edgeData) (SourceRef edgeData),
   merr).

(** Lines 209-242: the paths of the knowledge base between the types of
    the two ends that pass the constraints of the edge. *)
Definition validPathsFor (kb : EdgeKB) (dep : Dependency)
  (edgeData : EdgeData) : list Path :=
  validPathsOf (Constraint edgeData)
    (FindPaths growcap kb (TypeOf (core.Source dep))
               (TypeOf (core.Destination dep))).

(** [dag.RemoveDependency]: fails when the edge is not there (section 7:
    [GraphError], [EdgeMissing]). *)
Definition removeDependency (dag : ResourceGraph) (s t : ResourceId)
  : ResourceGraph * option error :=
  if core.HasDependency dag s t then (core.RemoveDependency dag s t, None)
  else (dag, Some (ErrEdgeMissing s t)).

(** Lines 262-324: the chosen path is put into the graph. *)
Definition expandAlong (kb : EdgeKB) (dep : Dependency) (edgeData : EdgeData)
  (dag : ResourceGraph) (merr : multierr.Error) (validPath : Path)
  : ResourceGraph * multierr.Error :=
  let src := Id (core.Source dep) in
  let dst := Id (core.Destination dep) in
  let '(dag, err) :=
    if decide (1 < length validPath) then removeDependency dag src dst
    else (dag, None) in
  match err with
  | Some err => (dag, multierr.Append merr (Some err))
  | None =>
      let '(dag, merr, _) :=
        foldl (expandPathEdge kb dep edgeData) (dag, merr, ∅) validPath in
      (dag, merr)
  end.

(** Lines 193-325, the body of the loop over the dependencies. *)
Definition expandDependency (kb : EdgeKB) (appName : string)
  (st : ResourceGraph * multierr.Error) (dep : Dependency)
  : ResourceGraph * multierr.Error :=
  let '(dag, merr) := st in
  let src := Id (core.Source dep) in
  let dst := Id (core.Destination dep) in
  let '(edgeData, merr) := edgeDataOf appName dep merr in
  let validPaths := validPathsFor kb dep edgeData in
  let '(validPath, merr) := choosePath src dst validPaths merr in
  if decide (length validPath = 0) then
    (dag, multierr.Append merr (Some (ErrNoPaths src dst (showPaths validPaths))))
  else expandAlong kb dep edgeData dag merr validPath.

(** [ExpandEdges]: every dependency the graph lists when the call
    begins, one after the other; the errors of all of them at the end. *)
Definition ExpandEdges (kb : EdgeKB) (dag : ResourceGraph) (appName : string)
  : ResourceGraph * option error :=
  let '(dag, merr) :=
    foldl (expandDependency kb appName) (dag, []) (core.ListDependencies dag) in
  (dag, multierr.ErrOrNil merr).

End expand_edges.

(** ** What the search keeps true

    The predicates in which the lemmas on [findPaths] are stated. *)

(** A slice header that fits its array. *)
Definition wfSlice (h : store) (s : slice) : Prop :=
  len s ≤ cap s ∧ (cap s = 0 ∨ ∃ a, h !! arr s = Some a ∧ len s ≤ length a).

(** From [h] to [h'] no array is lost or shortened, the arrays other than
    [i] are untouched, and array [i] keeps its first [k] elements. *)
Definition preserved (k i : nat) (h h' : store) : Prop :=
  ∀ j a, h !! j = Some a →
    ∃ a', h' !! j = Some a' ∧ (j ≠ i → a' = a)
          ∧ take k a' = take k a ∧ length a ≤ length a'.

(** A path as it was when it was recorded: a walk from [s0] to [dest]
    that visits no type twice. *)
Definition goodFound (s0 dest : GoType) (f : found) : Prop :=
  NoDup (pathNodes s0 (recorded f)) ∧ pathEnd s0 (recorded f) = dest
  ∧ connected s0 (recorded f) = true ∧ recorded f ≠ []
  ∧ length (recorded f) = len (hdr f).

(** The invariant of the two loops of a call: [visited] is back to what
    it was when the loop began, and the arrays have changed only where
    the call may write: at and beyond the end of its [stack]. *)
Definition loopInv (h : store) (stack : slice) (V1 : gset GoType)
  (σ : searchState) : Prop :=
  σ.2 = V1 ∧ preserved (len stack) (arr stack) h σ.1.

Definition goodIn (s0 dest : GoType) (h : store) (f : found) : Prop :=
  goodFound s0 dest f ∧ wfSlice h (hdr f).

(** A walk from [s] to [d] that visits no type twice. *)
Definition simpleWalk (s d : GoType) (p : Path) : Prop :=
  NoDup (pathNodes s p) ∧ connected s p = true ∧ pathEnd s p = d.

(** An edge of a path that starts or ends in the type of [node]. *)
Definition touches (res : Edge) (node : Resource) : Prop :=
  Source res = TypeOf node ∨ Destination res = TypeOf node.

End knowledgebase.


(* ===================================================================== *)
(** * Package [engine] (pkg/engine/engine.go)                             *)
(* ===================================================================== *)

(** A Go result [(T, error)]. *)
Inductive result (A : Type) :=
| Ok (a : A)
| Err (e : error).
Arguments Ok {A} a.
Arguments Err {A} e.

Module engine.
Import knowledgebase.

(** [provider.Provider], with the one method the modelled code calls. *)
Record Provider := mkProvider {
  CreateResourceFromId : ResourceId → ConstructGraph → result Resource;
}.

(** [ExpansionSolution]: the resource graph a construct expands to and
    the resources the construct maps to directly. *)
Record ExpansionSolution := mkExpansionSolution {
  Graph : ResourceGraph;
  DirectlyMappedResources : list Resource;
}.

Record Decision := mkDecision {
  Resources : list Resource;
  Edges : list constraints.Edge;
  Construct : option Resource;
  DecisionConstraint : constraints.Constraint;      (* Decision.Constraint *)
}.

(** [map[constraints.ConstraintScope][]constraints.Constraint], one list
    per scope.  [Run] asserts that the constraints of the edge scope are
    [*EdgeConstraint]s, so that list holds edge constraints. *)
Record ConstraintMap := mkConstraintMap {
  ofApplication : list constraints.Constraint;
  ofConstruct : list constraints.Constraint;
  ofEdge : list constraints.EdgeConstraint;
  ofResource : list constraints.Constraint;
}.

(** The constraints of all scopes, as a [range] over the map and over
    each of its lists meets them. *)
Definition allConstraints (m : ConstraintMap) : list constraints.Constraint :=
  ofApplication m ++ ofConstruct m ++ (constraints.OfEdge <$> ofEdge m)
  ++ ofResource m.

Record EngineContext := mkEngineContext {
  Constraints : ConstraintMap;
  InitialState : ConstructGraph;
  WorkingState : ConstructGraph;
  Solution : option ResourceGraph;
  Decisions : list Decision;
  constructExpansionSolutions : gmap ResourceId (list ExpansionSolution);
  AppName : string;
}.

(** [Engine].  [Providers] is indexed by provider name; calling a method
    of a provider the map lacks panics, and the model is of the engines
    whose map has the providers their constraints name. *)
Record Engine := mkEngine {
  Providers : string → Provider;
  KnowledgeBase : EdgeKB;
  Context : EngineContext;
}.

Record SolveContext := mkSolveContext {
  ResourceGraph_ : ResourceGraph;                    (* SolveContext.ResourceGraph *)
  constructsMapping : gmap ResourceId ExpansionSolution;
}.

Definition withWorkingState (e : Engine) (ws : ConstructGraph) : Engine :=
  let c := Context e in
  mkEngine (Providers e) (KnowledgeBase e)
    (mkEngineContext (Constraints c) (InitialState c) ws (Solution c)
       (Decisions c) (constructExpansionSolutions c) (AppName c)).

Definition withSolution (e : Engine) (s : option ResourceGraph) : Engine :=
  let c := Context e in
  mkEngine (Providers e) (KnowledgeBase e)
    (mkEngineContext (Constraints c) (InitialState c) (WorkingState c) s
       (Decisions c) (constructExpansionSolutions c) (AppName c)).

Definition withDecision (e : Engine) (d : Decision) : Engine :=
  let c := Context e in
  mkEngine (Providers e) (KnowledgeBase e)
    (mkEngineContext (Constraints c) (InitialState c) (WorkingState c)
       (Solution c) (Decisions c ++ [d]) (constructExpansionSolutions c)
       (AppName c)).

(** [LoadContext]. *)
Definition LoadContext (e : Engine) (initialState : ConstructGraph)
  (cs : ConstraintMap) (appName : string) : Engine :=
  mkEngine (Providers e) (KnowledgeBase e)
    (mkEngineContext cs initialState initialState None [] ∅ appName).

(** [handleEdgeConstainConstraint] (lines 404-443). *)
Definition handleEdgeConstainConstraint (e : Engine)
  (constraint : constraints.EdgeConstraint) : Engine * option error :=
  let provider := Providers e (core.Provider (constraints.Node constraint)) in
  match CreateResourceFromId provider (constraints.Node constraint)
          (WorkingState (Context e)) with
  | Err err => (e, Some err)
  | Ok resource =>
      let src := constraints.Source (constraints.EdgeTarget constraint) in
      let tgt := constraints.Target (constraints.EdgeTarget constraint) in
      let op := constraints.Operator constraint in
      let dep := core.GetDependency (WorkingState (Context e)) src tgt in
      let data : result EdgeData :=
        match dep with
        | None =>
            if decide (op = constraints.MustContainConstraintOperator) then
              Ok (mkEdgeData "" [] (mkEdgeConstraint (Some [resource]) None)
                    None None [] None)
            else if decide (op = constraints.MustNotContainConstraintOperator) then
              Ok (mkEdgeData "" [] (mkEdgeConstraint None (Some [resource]))
                    None None [] None)
            else Ok zeroEdgeData
        | Some depData =>
            let cast : result EdgeData :=
              match depData with
              | AnyNil => Ok zeroEdgeData
              | AnyEdgeData data => Ok data
              | AnyOther => Err (ErrCastEdgeData src tgt)
              end in
            match cast with
            | Err err => Err err
            | Ok data =>
                let c := Constraint data in
                let c :=
                  if decide (op = constraints.MustContainConstraintOperator) then
                    mkEdgeConstraint (appendRes (NodeMustExist c) resource)
                      (NodeMustNotExist c)
                  else if decide (op = constraints.MustNotContainConstraintOperator) then
                    mkEdgeConstraint (NodeMustExist c)
                      (appendRes (NodeMustNotExist c) resource)
                  else c in
                Ok (mkEdgeData (knowledgebase.AppName data)
                      (EnvironmentVariables data) c (EdgeSource data)
                      (EdgeDestination data) (Routes data) (SourceRef data))
            end
        end in
      match data with
      | Err err => (e, Some err)
      | Ok data =>
          (withWorkingState e
             (core.AddDependencyWithData (WorkingState (Context e)) src tgt
                (AnyEdgeData data)),
           None)
      end
  end.

(** Modelled from the spec: [AddDependency] and the construct graph's
    [RemoveDependency] are declared outside the files at hand
    (section 4.A: [add_edge]; section 7: [EdgeMissing]).  An edge added
    without data keeps the data it has. *)
Definition addDependency (g : ConstructGraph) (s t : ResourceId)
  : ConstructGraph :=
  if core.HasDependency g s t then g
  else core.AddDependencyWithData g s t AnyNil.

(** [ApplyEdgeConstraint] (lines 374-401). *)
Definition ApplyEdgeConstraint (e : Engine)
  (constraint : constraints.EdgeConstraint) : Engine * option error :=
  let decision :=
    mkDecision [] [] None (constraints.OfEdge constraint) in
  let target := constraints.EdgeTarget constraint in
  match constraints.Operator constraint with
  | constraints.MustExistConstraintOperator =>
      (withDecision
         (withWorkingState e
            (addDependency (WorkingState (Context e))
               (constraints.Source target) (constraints.Target target)))
         decision,
       None)
  | constraints.MustNotExistConstraintOperator =>
      if bool_decide (core.Provider (constraints.Source target)
                      = core.AbstractConstructProvider)
         && bool_decide (core.Provider (constraints.Target target)
                         = core.AbstractConstructProvider)
      then
        let '(ws, err) :=
          removeDependency (WorkingState (Context e))
            (constraints.Source target) (constraints.Target target) in
        (withWorkingState e ws, err)
      else (e, Some (ErrMustNotExistForResources target))
  | constraints.MustContainConstraintOperator
  | constraints.MustNotContainConstraintOperator =>
      match handleEdgeConstainConstraint e constraint with
      | (e, Some err) => (e, Some err)
      | (e, None) => (withDecision e decision, None)
      end
  | _ => (withDecision e decision, None)
  end.

(** ** [GenerateCombinations] (lines 144-232) *)

(** Modelled from the spec: the resource graph's [AddDependency] and
    [AddDependencyWithData] are declared outside the files at hand
    (section 4.A: [add_vertex], [add_edge]).  They take the two
    resources: these become vertices if they are not yet, and the edge
    between them carries the data; an edge added without data keeps the
    data it has. *)
Definition addVertex (g : ResourceGraph) (r : Resource) : ResourceGraph :=
  match core.GetResource g (Id r) with
  | Some _ => g
  | None => core.AddResource g r
  end.

Definition addDependencyWithData (g : ResourceGraph) (src dst : Resource)
  (data : any) : ResourceGraph :=
  core.AddDependencyWithData (addVertex (addVertex g src) dst)
    (Id src) (Id dst) data.

Definition addDependencyOf (g : ResourceGraph) (src dst : Resource)
  : ResourceGraph :=
  addDependency (addVertex (addVertex g src) dst) (Id src) (Id dst).

Section combinations.
(** The type assertion [res.(core.Resource)]: whether the values of a Go
    type are resources. *)
Variable implementsResource : GoType → bool.

(** Lines 147-157: the resources of the working state, in a graph of
    their own. *)
Definition baseGraphOf (e : Engine) : ResourceGraph * option error :=
  foldl (λ '(baseGraph, joinedErr) res,
           if decide (core.Provider (Id res) ≠ core.AbstractConstructProvider)
           then
             if implementsResource (TypeOf res)
             then (core.AddResource baseGraph res, joinedErr)
             else (baseGraph,
                   errors_Join [joinedErr; Some (ErrNotAResource (Id res))])
           else (baseGraph, joinedErr))
        (core.NewGraph, None)
        (core.ListResources (WorkingState (Context e))).

(** Lines 162-180, the body of the loop over
    [constructExpansionSolutions]: every combination so far with every
    solution of the construct. *)
Definition combine (combinations : list (gmap ResourceId ExpansionSolution))
  (entry : ResourceId * list ExpansionSolution)
  : list (gmap ResourceId ExpansionSolution) :=
  let '(resId, sol) := entry in
  if decide (length combinations = 0) then (λ s, {[resId := s]}) <$> sol
  else comb ← combinations; (λ s, <[resId := s]> comb) <$> sol.

(** Lines 184-192, the body of the loop over a combination. *)
Definition addSolution (st : ResourceGraph * gmap ResourceId (list Resource))
  (entry : ResourceId * ExpansionSolution)
  : ResourceGraph * gmap ResourceId (list Resource) :=
  let '(rg, mappedRes) := st in
  let '(resId, sol) := entry in
  let rg := foldl core.AddResource rg (core.ListResources (Graph sol)) in
  let rg :=
    foldl (λ rg edge,
             addDependencyOf rg (core.Source edge) (core.Destination edge))
          rg (core.ListDependencies (Graph sol)) in
  (rg, <[resId := DirectlyMappedResources sol]> mappedRes).

(** Lines 197-206 and 208-217: the resources that stand for one end of a
    dependency of the working state; [None] when the end is a construct
    without mapped resources.  (The assertion [dep.Source.(core.Resource)]
    of the other branch is unchecked.) *)
Definition nodesOf (mappedRes : gmap ResourceId (list Resource))
  (r : Resource) : option (list Resource) :=
  if decide (core.Provider (Id r) = core.AbstractConstructProvider)
  then (λ resources, [] ++ resources) <$> mappedRes !! Id r
  else Some ([] ++ [r]).

(** Lines 194-224, the body of the loop over the dependencies of the
    working state. *)
Definition copyDependency (mappedRes : gmap ResourceId (list Resource))
  (st : ResourceGraph * option error) (dep : Dependency)
  : ResourceGraph * option error :=
  let '(rg, joinedErr) := st in
  match nodesOf mappedRes (core.Source dep) with
  | None =>
      (rg, errors_Join [joinedErr;
                        Some (ErrNoResources (Id (core.Source dep)))])
  | Some srcNodes =>
      match nodesOf mappedRes (core.Destination dep) with
      | None =>
          (rg, errors_Join [joinedErr;
                            Some (ErrNoResources (Id (core.Destination dep)))])
      | Some dstNodes =>
          (foldl (λ rg '(srcNode, dstNode),
                    addDependencyWithData rg srcNode dstNode (core.Data dep))
                 rg (srcNode ← srcNodes; dstNode ← dstNodes;
                     [(srcNode, dstNode)]),
           joinedErr)
      end
  end.

(** Lines 182-229, the body of the loop over the combinations. *)
Definition solveContextOf (e : Engine) (baseGraph : ResourceGraph)
  (st : list SolveContext * option error)
  (comb : gmap ResourceId ExpansionSolution)
  : list SolveContext * option error :=
  let '(toSolve, joinedErr) := st in
  let '(rg, mappedRes) := foldl addSolution (baseGraph, ∅) (map_to_list comb) in
  let '(rg, joinedErr) :=
    foldl (copyDependency mappedRes) (rg, joinedErr)
      (core.ListDependencies (WorkingState (Context e))) in
  (toSolve ++ [mkSolveContext rg comb], joinedErr).

(** [GenerateCombinations].  Without expansion solutions the one context
    is the base graph, and the errors joined so far are dropped
    (line 159). *)
Definition GenerateCombinations (e : Engine)
  : list SolveContext * option error :=
  let '(baseGraph, joinedErr) := baseGraphOf e in
  if decide (size (constructExpansionSolutions (Context e)) = 0) then
    ([mkSolveContext baseGraph ∅], None)
  else
    let combinations :=
      foldl combine [] (map_to_list (constructExpansionSolutions (Context e))) in
    foldl (solveContextOf e baseGraph) ([], joinedErr) combinations.

End combinations.

(** ** [SolveGraph] and [Run]

    The methods [expandEdges], [ConfigureEdge], [MakeResourcesOperational]
    and [IsSatisfied] are declared outside the files at hand, and so is
    what [ApplyApplicationConstraint] rests on ([getConstructFromInputId],
    [deleteConstruct], [ReplaceConstruct]); the [ExpandConstructs] of
    construct_expansion.go is that of the variant with an end state, not
    the one that fills [constructExpansionSolutions].  They are the
    variables of this section.  Each is handed the graph or the engine it
    works on and returns it as it leaves it. *)
Section solve.
Variable expandEdges : Engine → ResourceGraph → ResourceGraph * option error.
Variable ConfigureEdge :
  EdgeKB → Dependency → ResourceGraph → ResourceGraph * option error.
Variable MakeResourcesOperational :
  Engine → ResourceGraph → ResourceGraph * result (gmap ResourceId bool).
Variable IsSatisfied :
  constraints.Constraint → ResourceGraph → EdgeKB
  → gmap ResourceId (list Resource) → bool.
Variable ApplyApplicationConstraint :
  Engine → constraints.Constraint → Engine * option error.
Variable ExpandConstructs : Engine → Engine * option error.
(** The type assertion [res.(core.Resource)] of [GenerateCombinations]. *)
Variable implementsResource : GoType → bool.

Definition NUM_LOOPS : nat := 5.

(** [errorMap[i] = append(errorMap[i], err)] *)
Definition record (i : nat) (err : error) (errorMap : gmap nat (list error))
  : gmap nat (list error) :=
  <[i := default [] (errorMap !! i) ++ [err]]> errorMap.

(** [ValidateConstraints] (lines 447-462). *)
Definition ValidateConstraints (e : Engine) (graph : ResourceGraph)
  (context : SolveContext) : list constraints.Constraint :=
  let mappedRes := DirectlyMappedResources <$> constructsMapping context in
  filter (λ constraint,
            IsSatisfied constraint graph (KnowledgeBase e) mappedRes = false)
         (allConstraints (Constraints (Context e))).

(** The local variables of [SolveGraph] that live across iterations; the
    graph is the one [context.ResourceGraph] points to. *)
Record solveState := mkSolveState {
  graph : ResourceGraph;
  configuredEdges : gmap ResourceId (gmap ResourceId bool);
  errorMap : gmap nat (list error);
}.

(** Lines 245-257: the body of the loop over the dependencies. *)
Definition configureDep (e : Engine) (i : nat) (st : solveState)
  (dep : Dependency) : solveState :=
  let src := Id (core.Source dep) in
  let dst := Id (core.Destination dep) in
  let configured :=
    match configuredEdges st !! src with
    | Some _ => configuredEdges st
    | None => <[src := ∅]> (configuredEdges st)
    end in
  let ofSrc := default ∅ (configured !! src) in
  match ofSrc !! dst with
  | Some _ => mkSolveState (graph st) configured (errorMap st)
  | None =>
      let '(g, err) := ConfigureEdge (KnowledgeBase e) dep (graph st) in
      match err with
      | Some err => mkSolveState g configured (record i err (errorMap st))
      | None =>
          mkSolveState g (<[src := <[dst := true]> ofSrc]> configured)
            (errorMap st)
      end
  end.

(** How an iteration of the loop ends. *)
Inductive flow :=
| Continue                                   (* on to [i+1] *)
| Break                                      (* [break] *)
| Return (err : error).                      (* [return graph, err] *)

(** Lines 286-290: the errors of [errorMap[i]] joined one by one. *)
Definition joinAll (errs : list error) : option error :=
  foldl (λ joinedErr err, errors_Join [joinedErr; Some err]) None errs.

(** Lines 240-298: one iteration of the loop, for the index [i]. *)
Definition iteration (e : Engine) (context : SolveContext) (i : nat)
  (st : solveState) : solveState * flow :=
  let '(g, err) := expandEdges e (graph st) in
  let st :=
    match err with
    | Some err => mkSolveState g (configuredEdges st) (record i err (errorMap st))
    | None =>
        foldl (configureDep e i)
          (mkSolveState g (configuredEdges st) (errorMap st))
          (core.ListDependencies g)
    end in
  let '(g, operational) := MakeResourcesOperational e (graph st) in
  match operational with
  | Err err =>
      (mkSolveState g (configuredEdges st) (record i err (errorMap st)),
       Continue)
  | Ok operationalResources =>
      let unsatisfiedConstraints := ValidateConstraints e g context in
      if bool_decide (0 < length unsatisfiedConstraints)
         && bool_decide (i = NUM_LOOPS - 1)
      then
        (mkSolveState g (configuredEdges st) (errorMap st),
         Return (ErrUnsatisfiedConstraints unsatisfiedConstraints))
      else
        let em :=
          foldl (λ em res,
                   if default false (operationalResources !! Id res) then em
                   else record i (ErrNotOperational (Id res)) em)
                (errorMap st) (core.ListResources g) in
        let st := mkSolveState g (configuredEdges st) em in
        if decide (length (default [] (em !! i)) = 0) then (st, Break)
        else if decide (i = NUM_LOOPS - 1) then
          (st, Return (ErrGraphSolving
                         (default (Joined []) (joinAll (default [] (em !! i))))))
        else (st, Continue)
  end.

(** What a run of the loop leaves behind: the graph and the error
    [SolveGraph] returns, and two values it does not return: [errorMap]
    as it stands at the end and the number of iterations begun. *)
Record solved := mkSolved {
  solvedGraph : ResourceGraph;
  solvedErr : option error;
  finalErrorMap : gmap nat (list error);
  iterations : nat;
}.

(** [for i := 0; i < NUM_LOOPS; i++ { ... }], with [todo = NUM_LOOPS - i]
    iterations to go, and the [return graph, nil] after the loop. *)
Fixpoint solveLoop (e : Engine) (context : SolveContext) (todo i : nat)
  (st : solveState) : solved :=
  match todo with
  | 0 => mkSolved (graph st) None (errorMap st) i
  | S todo =>
      let '(st, f) := iteration e context i st in
      match f with
      | Continue => solveLoop e context todo (S i) st
      | Break => mkSolved (graph st) None (errorMap st) (S i)
      | Return err => mkSolved (graph st) (Some err) (errorMap st) (S i)
      end
  end.

Definition solve (e : Engine) (context : SolveContext) : solved :=
  solveLoop e context NUM_LOOPS 0
    (mkSolveState (ResourceGraph_ context) ∅ ∅).

(** [SolveGraph] (lines 234-302). *)
Definition SolveGraph (e : Engine) (context : SolveContext)
  : ResourceGraph * option error :=
  let r := solve e context in
  (solvedGraph r, solvedErr r).

(** [SolveGraph] in a process whose environment is [environ]: the
    function reads no environment variable. *)
Definition SolveGraphIn (environ : gmap string string) (e : Engine)
  (context : SolveContext) : solved :=
  solve e context.

(** Lines 100-105: the application constraints, stopping at the first
    error. *)
Fixpoint applyApplicationConstraints (e : Engine)
  (cs : list constraints.Constraint) : Engine * option error :=
  match cs with
  | [] => (e, None)
  | constraint :: cs =>
      match ApplyApplicationConstraint e constraint with
      | (e, Some err) => (e, Some err)
      | (e, None) => applyApplicationConstraints e cs
      end
  end.

(** Lines 108-114: the edge constraints, joining their errors. *)
Definition applyEdgeConstraints (e : Engine)
  (cs : list constraints.EdgeConstraint) : Engine * option error :=
  foldl (λ '(e, joinedErr) constraint,
           match ApplyEdgeConstraint e constraint with
           | (e, Some err) => (e, errors_Join [joinedErr; Some err])
           | (e, None) => (e, joinedErr)
           end)
        (e, None) cs.

(** A call of [SolveGraph] in the loop of [Run]: the engine and the
    context it was called on, and what it returned. *)
Record solveCall := mkSolveCall {
  callEngine : Engine;
  callContext : SolveContext;
  callGraph : ResourceGraph;
  callErr : option error;
}.

(** Lines 130-138, the body of the loop over [contextsToSolve].
    [numValidGraphs] is the count the function logs when the loop is
    over; the third component of the state is the list of the calls of
    [SolveGraph] so far, in order. *)
Definition solveContext (st : Engine * nat * list solveCall)
  (context : SolveContext) : Engine * nat * list solveCall :=
  let '(e, numValidGraphs, calls) := st in
  let '(solution, err) := SolveGraph e context in
  let calls := calls ++ [mkSolveCall e context solution err] in
  let e :=
    match Solution (Context e) with
    | None => withSolution e (Some solution)
    | Some _ => e
    end in
  (e, S numValidGraphs, calls).

(** Lines 129-139: the loop over [contextsToSolve]. *)
Definition solveContexts (e : Engine) (contextsToSolve : list SolveContext)
  : Engine * nat * list solveCall :=
  foldl solveContext (e, 0, []) contextsToSolve.

(** Lines 99-128: the constraints are applied, the constructs expanded
    and the contexts to solve generated; the first error ends [Run]. *)
Definition prepare (e : Engine) : Engine * result (list SolveContext) :=
  match applyApplicationConstraints e
          (ofApplication (Constraints (Context e))) with
  | (e, Some err) => (e, Err err)
  | (e, None) =>
      match applyEdgeConstraints e (ofEdge (Constraints (Context e))) with
      | (e, Some joinedErr) => (e, Err joinedErr)
      | (e, None) =>
          match ExpandConstructs e with
          | (e, Some err) => (e, Err err)
          | (e, None) =>
              match GenerateCombinations implementsResource e with
              | (_, Some err) => (e, Err err)
              | (contextsToSolve, None) => (e, Ok contextsToSolve)
              end
          end
      end
  end.

(** What [Run] returns, and the engine, the logged count and the calls
    of [SolveGraph] it leaves. *)
Record ran := mkRan {
  ranEngine : Engine;
  ranGraph : option ResourceGraph;
  ranErr : option error;
  ranNumValidGraphs : nat;
  ranCalls : list solveCall;
}.

(** [Run] (lines 97-142). *)
Definition Run (e : Engine) : ran :=
  match prepare e with
  | (e, Err err) => mkRan e None (Some err) 0 []
  | (e, Ok contextsToSolve) =>
      let '(e, numValidGraphs, calls) := solveContexts e contextsToSolve in
      mkRan e (Solution (Context e)) None numValidGraphs calls
  end.

End solve.

(** The graph the specification has the orchestrator return, of the
    calls of [SolveGraph] made (section 4.H: "For each SolveContext
    (stable order): run G. If G returns success and all constraints
    satisfied, return its graph", and "If no context succeeds, return
    the first graph"): the graph of the first call that returned no
    error, and the graph of the first call when every call returned an
    error. *)
Definition firstSolvedGraph (calls : list solveCall) : option ResourceGraph :=
  match filter (λ c, callErr c = None) calls with
  | c :: _ => Some (callGraph c)
  | [] => callGraph <$> head calls
  end.

(** The edge data the target edge of a constraint carries before the
    constraint is applied: none is the zero value. *)
Definition dataBefore (e : Engine) (c : constraints.EdgeConstraint)
  : EdgeData :=
  match core.GetDependency (WorkingState (Context e))
          (constraints.Source (constraints.EdgeTarget c))
          (constraints.Target (constraints.EdgeTarget c)) with
  | Some (AnyEdgeData d) => d
  | _ => zeroEdgeData
  end.

End engine.

(* ===================================================================== *)
(** * The engine over an end-state graph (the variant of                  *)
(**   [handleEdgeConstainConstraint] that reads [EndState])               *)
(* ===================================================================== *)

Module engine_v1.
Import knowledgebase.

Record EngineContext := mkEngineContext {
  Constraints : engine.ConstraintMap;
  InitialState : ConstructGraph;
  WorkingState : ConstructGraph;
  EndState : ResourceGraph;
  Decisions : list engine.Decision;
  constructToResourceMapping : gmap ResourceId (list Resource);
  AppName : string;
}.

Record Engine := mkEngine {
  Provider : engine.Provider;
  KnowledgeBase : EdgeKB;
  Context : EngineContext;
}.

Definition withEndState (e : Engine) (g : ResourceGraph) : Engine :=
  let c := Context e in
  mkEngine (Provider e) (KnowledgeBase e)
    (mkEngineContext (Constraints c) (InitialState c) (WorkingState c) g
       (Decisions c) (constructToResourceMapping c) (AppName c)).

(** Lines 365-377 and 379-390: the nodes of one end of the constraint's
    target.  [keep] tells whether the resource found in the graph is
    appended to the nodes: it is for the source (line 376) and it is not
    for the destination (after line 389). *)
Definition endNodes (e : Engine) (id : ResourceId) (keep : bool)
  : result (list Resource) :=
  if decide (core.Provider id = core.AbstractConstructProvider) then
    match constructToResourceMapping (Context e) !! id with
    | None => Err (ErrNoResourcesForConstruct id)
    | Some resources => Ok ([] ++ resources)
    end
  else
    match core.GetResource (EndState (Context e)) id with
    | None => Err (ErrResourceNotFound id)
    | Some r => Ok (if keep then [] ++ [r] else [])
    end.

(** Lines 399-428, the body of the two nested loops. *)
Definition addEdgeData (constraint : constraints.EdgeConstraint)
  (resource : Resource) (g : ResourceGraph) (src dst : Resource)
  : result ResourceGraph :=
  let s := constraints.Source (constraints.EdgeTarget constraint) in
  let t := constraints.Target (constraints.EdgeTarget constraint) in
  let op := constraints.Operator constraint in
  let data : result EdgeData :=
    match core.GetDependency g s t with
    | None =>
        if decide (op = constraints.MustContainConstraintOperator) then
          Ok (mkEdgeData "" [] (mkEdgeConstraint (Some [resource]) None)
                None None [] None)
        else if decide (op = constraints.MustNotContainConstraintOperator) then
          Ok (mkEdgeData "" [] (mkEdgeConstraint None (Some [resource]))
                None None [] None)
        else Ok zeroEdgeData
    | Some (AnyEdgeData data) =>
        let c := Constraint data in
        let c :=
          if decide (op = constraints.MustContainConstraintOperator) then
            mkEdgeConstraint (appendRes (NodeMustExist c) resource)
              (NodeMustNotExist c)
          else if decide (op = constraints.MustNotContainConstraintOperator) then
            mkEdgeConstraint (NodeMustExist c)
              (appendRes (NodeMustNotExist c) resource)
          else c in
        Ok (mkEdgeData (knowledgebase.AppName data)
              (EnvironmentVariables data) c (EdgeSource data)
              (EdgeDestination data) (Routes data) (SourceRef data))
    | Some _ => Err (ErrCastEdgeData s t)
    end in
  match data with
  | Err err => Err err
  | Ok data => Ok (engine.addDependencyWithData g src dst (AnyEdgeData data))
  end.

(** [for _, src := range srcNodes { for _, dst := range dstNodes {...} }],
    returning at the first error.  The second component counts the
    executions of the loop body. *)
Fixpoint forPairs (body : ResourceGraph → Resource → Resource → result ResourceGraph)
  (pairs : list (Resource * Resource)) (g : ResourceGraph) (n : nat)
  : ResourceGraph * nat * option error :=
  match pairs with
  | [] => (g, n, None)
  | (src, dst) :: pairs =>
      match body g src dst with
      | Err err => (g, S n, Some err)
      | Ok g => forPairs body pairs g (S n)
      end
  end.

(** What a call leaves: the engine, the error returned, and the number
    of times the body of the inner loop ran. *)
Record handled := mkHandled {
  handledEngine : Engine;
  handledErr : option error;
  bodyRuns : nat;
}.

(** [handleEdgeConstainConstraint] of this variant (lines 361-432). *)
Definition handleEdgeConstainConstraint (e : Engine)
  (constraint : constraints.EdgeConstraint) : handled :=
  let target := constraints.EdgeTarget constraint in
  match endNodes e (constraints.Source target) true with
  | Err err => mkHandled e (Some err) 0
  | Ok srcNodes =>
      match endNodes e (constraints.Target target) false with
      | Err err => mkHandled e (Some err) 0
      | Ok dstNodes =>
          match engine.CreateResourceFromId (Provider e)
                  (constraints.Node constraint) (WorkingState (Context e)) with
          | Err err => mkHandled e (Some err) 0
          | Ok resource =>
              let '(g, n, err) :=
                forPairs (addEdgeData constraint resource)
                  (src ← srcNodes; dst ← dstNodes; [(src, dst)])
                  (EndState (Context e)) 0 in
              mkHandled (withEndState e g) err n
          end
      end
  end.

End engine_v1.

(* ===================================================================== *)
(** * Package [path_selection]                                            *)
(* ===================================================================== *)

Module path_selection.

(** [construct.Path] *)
Abbreviation Path := (list ResourceId).

(** [construct.Resource]: the pointers of the code are the positions of
    the values in the slice that holds them. *)
Record Resource := mkResource {
  ID : ResourceId;
  Properties : list (string * string);
}.

Inductive Direction :=
| DirectionDownstream
| DirectionUpstream.

#[global] Instance Direction_eq_dec : EqDecision Direction.
Proof. solve_decision. Defined.

(** The step of an operational rule: resource selectors, by name, and a
    direction. *)
Record OperationalStep := mkStep {
  StepResources : list string;
  StepDirection : Direction;
}.

(** [knowledgebase.PropertyDetails], with the fields read here. *)
Record Property := mkProperty {
  PropertyName : string;
  OperationalRule : option OperationalStep;
  IsNamespace : bool;                       (* details.Namespace *)
}.

(** [knowledgebase.ResourceTemplate], with what is read here: the
    properties [LoopProperties] ranges over, and the two lists of
    [PathSatisfaction]. *)
Record ResourceTemplate := mkTemplate {
  TemplateProperties : list Property;
  AsSource : list string;                   (* rt.PathSatisfaction.AsSource *)
  AsTarget : list string;                   (* rt.PathSatisfaction.AsTarget *)
}.

(** Modelled from the spec: the constant [PHANTOM_PREFIX] is declared
    outside the files at hand; section 4.F: "Phantoms have synthetic ids
    prefixed PHANTOM_". *)
Definition PHANTOM_PREFIX : string := "PHANTOM_".

(** [ExpansionInput], but for the temp graph, which is part of the
    world. *)
Record ExpansionInput := mkInput {
  DepSource : Resource;                     (* input.Dep.Source *)
  DepTarget : Resource;                     (* input.Dep.Target *)
  Classification : string;
}.

(** [graph.Edge[construct.ResourceId]] *)
Record Edge := mkEdge {
  Source : ResourceId;
  Target : ResourceId;
}.

(** ** The order of the paths in [expandEdge] *)

Section path_order.
(** [construct.ResourceIdLess], declared outside the files at hand. *)
Variable ResourceIdLess : ResourceId → ResourceId → bool.

(** Lines 72-77: the loop [for k := 0; k < il; k++] from [k] on, with
    [todo = il - k] rounds to go. *)
Fixpoint lessFrom (pi pj : Path) (k todo : nat) : bool :=
  match todo with
  | 0 => false
  | S todo =>
      match pi !! k, pj !! k with
      | Some a, Some b =>
          if decide (a ≠ b) then ResourceIdLess a b
          else lessFrom pi pj (S k) todo
      | _, _ => false
      end
  end.

(** Lines 66-78: the [less] function handed to [sort.Slice], on the two
    paths it is asked about. *)
Definition pathLess (pi pj : Path) : bool :=
  let il := length pi in
  let jl := length pj in
  if decide (il ≠ jl) then bool_decide (il < jl)
  else lessFrom pi pj 0 il.

(** [sort.Slice(paths, less)]: the slice rearranged so that no element
    is [less] than one before it.  (When [ResourceIdLess] is a strict
    total order, two paths neither of which is less than the other are
    the same path, and every sorting procedure gives this list.) *)
Definition notAfter (pi pj : Path) : Prop := pathLess pj pi = false.

#[export] Instance notAfter_dec pi pj : Decision (notAfter pi pj).
Proof. unfold notAfter. apply _. Defined.

Definition sortSlice (paths : list Path) : list Path :=
  merge_sort notAfter paths.

(** The order the specification names, written on its own: first by
    length; paths of one length by the first id in which they differ. *)
Fixpoint lexLess (p q : Path) : bool :=
  match p, q with
  | a :: p, b :: q => if decide (a = b) then lexLess p q else ResourceIdLess a b
  | _, _ => false
  end.

Definition lengthLexLess (p q : Path) : bool :=
  if decide (length p = length q) then lexLess p q
  else bool_decide (length p < length q).

End path_order.

(** ** The world of an expansion

    [World] stands for everything the package reaches through its
    arguments: the solution context with its raw view, dataflow graph and
    knowledge base, the temp graph of the expansion and the result graph.
    The functions of the graph library, of [construct], of the knowledge
    base and of the other files of the package are the fields of
    [Collaborators]; each takes the world and, when it changes it, hands
    it back. *)
Section world.
Variable World : Type.

Record Collaborators := mkCollaborators {
  (* the graph library, on the temp graph *)
  AllPathsBetween : World → ResourceId → ResourceId → result (list Path);
  ShortestPathStable :
    World → ResourceId → ResourceId → (ResourceId → ResourceId → bool)
    → result Path;
  TempVertex : World → ResourceId → result Resource;
  TempAddVertex : World → Resource → World * option error;
  TempAddEdge : World → ResourceId → ResourceId → Z → World * option error;
  markNewId : World → ResourceId → ResourceId → World;
  ReplaceResource : World → ResourceId → Resource → World * option error;
  (* the raw view and the dataflow graph of the solution *)
  RawViewVertex : World → ResourceId → result Resource;
  rawViewWalk : World → list (ResourceId * Resource);
  DataflowEdges : World → result (list Edge);
  (* the result graph *)
  resultGraphWalk : World → list (ResourceId * Resource);
  GraphAddVertex : World → Resource → World * option error;
  GraphAddEdge : World → ResourceId → ResourceId → World * option error;
  (* the knowledge base and the operational rules *)
  GetResourceTemplate : World → ResourceId → result ResourceTemplate;
  CreateResource : World → ResourceId → result Resource;
  CanUse : World → string → ResourceId → Resource → result bool;
  SetField :
    World → Property → ResourceId → Resource → Resource → OperationalStep
    → World * Resource * option error;
  HasEdgeTemplate : World → ResourceId → ResourceId → bool;
  UniqueCanAdd : World → list Edge → ResourceId → ResourceId → bool;
  Matches : ResourceId → ResourceId → bool;
  (* the other files of the package *)
  checkCandidatesValidity : World → Resource → Path → string → result bool;
  checkNamespaceValidity : World → Resource → ResourceId → result bool;
  checkUniquenessValidity : World → ResourceId → ResourceId → result bool;
  determineCandidateWeight :
    World → ResourceId → ResourceId → ResourceId → result Z;
  calculateEdgeWeight :
    World → ResourceId → ResourceId → ResourceId → ResourceId → Z → Z
    → string → Z;
}.

Variable ops : Collaborators.

(** [errs = errors.Join(errs, err)] *)
Definition joinErr (errs err : option error) : option error :=
  errors_Join [errs; err].

(** ** [handleProperties] and [addPathToGraph] *)

(** The calls whose order matters: the visit of the resource at a
    position of the path by [handleProperties], and the additions to the
    result graph. *)
Inductive event :=
| EvHandle (i : nat) (id : ResourceId)
| EvAddVertex (id : ResourceId)
| EvAddEdge (src dst : ResourceId).

(** The position a visit of [handleProperties] is about. *)
Definition handledIndex (ev : event) : option nat :=
  match ev with
  | EvHandle i _ => Some i
  | _ => None
  end.

(** An addition to the result graph. *)
Definition isGraphEvent (ev : event) : bool :=
  match ev with
  | EvHandle _ _ => false
  | _ => true
  end.

(** Lines 246-271: the body of the loop over the selectors of a step,
    for the resource at position [i]. *)
Definition handleSelector (prop : Property) (oldId : ResourceId)
  (step : OperationalStep) (i : nat)
  (st : World * list Resource * option error) (selector : string)
  : World * list Resource * option error :=
  let '(w, resultResources, errs) := st in
  match resultResources !! i with
  | None => st
  | Some res =>
      let use (other : Resource) :=
        match CanUse ops w selector (ID res) other with
        | Ok true =>
            let '(w, res, err) := SetField ops w prop oldId res other step in
            (w, <[i := res]> resultResources,
             match err with
             | Some err => joinErr errs (Some err)
             | None => errs
             end)
        | _ => st
        end in
      if bool_decide (StepDirection step = DirectionDownstream)
         && bool_decide (i < length resultResources - 1)
      then
        match resultResources !! (i + 1) with
        | Some downstreamRes => use downstreamRes
        | None => st
        end
      else if bool_decide (0 < i) then
        match resultResources !! (i - 1) with
        | Some upstreamRes => use upstreamRes
        | None => st
        end
      else st
  end.

(** Lines 234-280: [handleProp], for the resource at position [i]. *)
Definition handleProp (i : nat) (st : World * list Resource * option error)
  (prop : Property) : World * list Resource * option error :=
  let '(w, resultResources, errs) := st in
  match resultResources !! i with
  | None => st
  | Some res =>
      let oldId := ID res in
      match OperationalRule prop with
      | None => st
      | Some step =>
          if decide (length (StepResources step) = 0) then st
          else
            let '(w, resultResources, errs) :=
              foldl (handleSelector prop oldId step i) st (StepResources step) in
            match resultResources !! i with
            | Some res =>
                if IsNamespace prop && bool_decide (oldId ≠ ID res)
                then (markNewId ops w oldId (ID res), resultResources, errs)
                else (w, resultResources, errs)
            | None => (w, resultResources, errs)
            end
      end
  end.

(** Modelled from the spec: the method [LoopProperties] of a resource
    template is declared outside the files at hand (section 4.A:
    [walk_properties] "visits every leaf property").  It calls the
    handler on the properties of the template, in order, and returns the
    errors of these calls joined; [handleProp] returns [nil] at every
    call, so that is [nil]. *)
Definition LoopProperties {S : Type} (rt : ResourceTemplate)
  (handler : S → Property → S) (st : S) : S * option error :=
  (foldl handler st (TemplateProperties rt), None).

(** Lines 226-282: the body of the loop of [handleProperties] for the
    index [i].  In line 281, [errs = errors.Join(errs, rt.LoopProperties(res,
    handleProp))], the variable [errs] is read when the call has
    returned, with what [handleProp] has joined to it; joined with the
    [nil] of [LoopProperties], an [errs] that is not [nil] is wrapped
    once more. *)
Definition handleResource
  (st : World * list Resource * option error * list event) (i : nat)
  : World * list Resource * option error * list event :=
  let '(w, resultResources, errs, log) := st in
  match resultResources !! i with
  | None => st
  | Some res =>
      let log := log ++ [EvHandle i (ID res)] in
      match GetResourceTemplate ops w (ID res) with
      | Err err => (w, resultResources, joinErr errs (Some err), log)
      | Ok rt =>
          let '((w, resultResources, errs), err) :=
            LoopProperties rt (handleProp i) (w, resultResources, errs) in
          (w, resultResources, joinErr errs err, log)
      end
  end.

(** [for i := len(resultResources) - 1; i >= 0; i--], with [k = i + 1]. *)
Fixpoint handleDownFrom (k : nat)
  (st : World * list Resource * option error * list event)
  : World * list Resource * option error * list event :=
  match k with
  | 0 => st
  | S i => handleDownFrom i (handleResource st i)
  end.

(** [handleProperties] (lines 217-284). *)
Definition handleProperties (w : World) (resultResources : list Resource)
  : World * list Resource * option error * list event :=
  handleDownFrom (length resultResources) (w, resultResources, None, []).

(** Lines 522-536: the resource of each id of the path, from the raw
    view or made new. *)
Definition lookupResource (w : World)
  (st : list Resource * option error) (resource : ResourceId)
  : list Resource * option error :=
  let '(result, errs) := st in
  match RawViewVertex ops w resource with
  | Ok r => (result ++ [r], errs)
  | Err ErrVertexNotFound =>
      match CreateResource ops w resource with
      | Ok r => (result ++ [r], errs)
      | Err err => (result, joinErr errs (Some err))
      end
  | Err err => (result, joinErr errs (Some err))
  end.

(** Lines 546-560: the body of the loop that adds the path to the
    graph. *)
Definition addResource
  (st : World * option ResourceId * option error * list event) (r : Resource)
  : World * option ResourceId * option error * list event :=
  let '(w, prevRes, errs, log) := st in
  let '(w, err) := GraphAddVertex ops w r in
  let log := log ++ [EvAddVertex (ID r)] in
  let errs :=
    match err with
    | Some ErrVertexAlreadyExists | None => errs
    | Some err => joinErr errs (Some err)
    end in
  match prevRes with
  | None => (w, Some (ID r), errs, log)
  | Some prev =>
      let '(w, err) := GraphAddEdge ops w prev (ID r) in
      let log := log ++ [EvAddEdge prev (ID r)] in
      let errs :=
        match err with
        | Some ErrEdgeAlreadyExists | None => errs
        | Some err => joinErr errs (Some err)
        end in
      (w, Some (ID r), errs, log)
  end.

(** What [addPathToGraph] returns ([None] for a [nil] slice), the world
    it leaves and the calls it made, in order. *)
Record added := mkAdded {
  addedWorld : World;
  addedResources : option (list Resource);
  addedErr : option error;
  addedLog : list event;
}.

(** [addPathToGraph] (lines 516-562). *)
Definition addPathToGraph (w : World) (path : Path) : added :=
  let '(result, errs) := foldl (lookupResource w) ([], None) path in
  match errs with
  | Some errs => mkAdded w None (Some errs) []
  | None =>
      let '(w, result, err, log) := handleProperties w result in
      match err with
      | Some err => mkAdded w None (Some err) log
      | None =>
          let '(w, _, errs, log) :=
            foldl addResource (w, None, None, log) result in
          mkAdded w (Some result) errs log
      end
  end.

(** [id.Name = name] *)
Definition withName (id : ResourceId) (name : string) : ResourceId :=
  mkResourceId (core.Provider id) (core.Type_ id) (core.Namespace id) name.

(** Lines 120-130: the loop [for suffix := 0; suffix < 1000; suffix++]
    from [suffix] on, with [todo = 1000 - suffix] rounds to go.  An error
    other than [ErrVertexNotFound] is joined and the same id is asked for
    again in the next round. *)
Fixpoint freeName (w : World) (name : string) (id : ResourceId)
  (errs : option error) (suffix todo : nat) : ResourceId * option error :=
  match todo with
  | 0 => (id, errs)
  | S todo =>
      match RawViewVertex ops w id with
      | Err ErrVertexNotFound => (id, errs)
      | Err err =>
          freeName w name id (joinErr errs (Some err)) (S suffix) todo
      | Ok _ =>
          freeName w name (withName id (name +:+ "-" +:+ pretty suffix))
            errs (S suffix) todo
      end
  end.

(** Lines 116-135, the body of the loop over the path: a phantom is
    given the name of the edge, and the temp graph is told its new id. *)
Definition renamePhantom (input : ExpansionInput)
  (st : World * Path * option error) (id : ResourceId)
  : World * Path * option error :=
  let '(w, result, errs) := st in
  if String.prefix PHANTOM_PREFIX (core.Name id) then
    let name :=
      core.Name (ID (DepSource input)) +:+ "-"
      +:+ core.Name (ID (DepTarget input)) in
    let oldId := id in
    let '(id, errs) := freeName w name (withName id name) errs 0 1000 in
    (markNewId ops w oldId id, result ++ [id], errs)
  else (w, result ++ [id], errs).

(** [renameAndReplaceInTempGraph] (lines 106-147). *)
Definition renameAndReplaceInTempGraph (w : World) (input : ExpansionInput)
  (path : Path) : World * option (list Resource) * option error :=
  let '(w, result, errs) := foldl (renamePhantom input) (w, [], None) path in
  let r := addPathToGraph w result in
  match addedErr r, addedResources r with
  | Some err, _ => (addedWorld r, None, joinErr errs (Some err))
  | None, None => (addedWorld r, None, errs)
  | None, Some resultResources =>
      let '(w, errs) :=
        foldl (λ '(w, errs) '(id, res),
                 let '(w, err) := ReplaceResource ops w id res in
                 (w, joinErr errs err))
              (addedWorld r, errs) (zip path resultResources) in
      (w, Some resultResources, errs)
  end.

(** ** [findSubExpansionsToRun] (lines 149-215) *)

(** The local function [getResourceTemplate]; nothing is ever put into
    its cache [resourceTemplates], so every call asks the knowledge
    base. *)
Definition getResourceTemplate (w : World) (errs : option error)
  (id : ResourceId) : option ResourceTemplate * option error :=
  match GetResourceTemplate ops w id with
  | Ok rt => (Some rt, errs)
  | Err err => (None, joinErr errs (Some (ErrNoResourceTemplate id err)))
  end.

(** Lines 181-186 and 199-204: the edge is appended unless [added] has
    it. *)
Definition addOnce (edges : list Edge) (added : gset (ResourceId * ResourceId))
  (source target : ResourceId)
  : list Edge * gset (ResourceId * ResourceId) :=
  (if decide ((source, target) ∈ added) then edges
   else edges ++ [mkEdge source target],
   {[(source, target)]} ∪ added).

(** Lines 173-188, the body of the loop [for j := i + 2; j < len(result);
    j++]: a sub expansion from [res] to a later resource. *)
Definition subExpansionTo (w : World) (result : list Resource) (res : Resource)
  (st : list Edge * gset (ResourceId * ResourceId) * option error) (j : nat)
  : list Edge * gset (ResourceId * ResourceId) * option error :=
  let '(edges, added, errs) := st in
  match result !! j with
  | None => st
  | Some target =>
      match getResourceTemplate w errs (ID target) with
      | (None, errs) => (edges, added, errs)
      | (Some rt, errs) =>
          if bool_decide (length (AsTarget rt) ≠ 0)
             || bool_decide (j = length result - 1)
          then
            let '(edges, added) := addOnce edges added (ID res) (ID target) in
            (edges, added, errs)
          else (edges, added, errs)
      end
  end.

(** Lines 192-206, the body of the loop [for j := i - 2; j >= 0; j--]: a
    sub expansion from an earlier resource to [res]. *)
Definition subExpansionFrom (w : World) (result : list Resource)
  (res : Resource)
  (st : list Edge * gset (ResourceId * ResourceId) * option error) (j : nat)
  : list Edge * gset (ResourceId * ResourceId) * option error :=
  let '(edges, added, errs) := st in
  match result !! j with
  | None => st
  | Some source =>
      match getResourceTemplate w errs (ID source) with
      | (None, errs) => (edges, added, errs)
      | (Some rt, errs) =>
          if bool_decide (length (AsSource rt) ≠ 0) || bool_decide (j = 0)
          then
            let '(edges, added) := addOnce edges added (ID source) (ID res) in
            (edges, added, errs)
          else (edges, added, errs)
      end
  end.

(** Lines 164-208, the body of the loop over [result]. *)
Definition subExpansionsAt (w : World) (result : list Resource)
  (st : list Edge * gset (ResourceId * ResourceId) * option error) (i : nat)
  : list Edge * gset (ResourceId * ResourceId) * option error :=
  match result !! i with
  | None => st
  | Some res =>
      if bool_decide (i = 0) || bool_decide (i = length result - 1) then st
      else
        let '(edges, added, errs) := st in
        match getResourceTemplate w errs (ID res) with
        | (None, errs) => (edges, added, errs)
        | (Some rt, errs) =>
            let st := (edges, added, errs) in
            let st :=
              if decide (length (AsSource rt) ≠ 0) then
                foldl (subExpansionTo w result res) st
                  (seq (i + 2) (length result - (i + 2)))
              else st in
            if decide (length (AsTarget rt) ≠ 0) then
              foldl (subExpansionFrom w result res) st (rev (seq 0 (i - 1)))
            else st
        end
  end.

Definition findSubExpansionsToRun (result : list Resource) (w : World)
  : list Edge * option error :=
  let '(edges, _, errs) :=
    foldl (subExpansionsAt w result) ([], ∅, None) (seq 0 (length result)) in
  (edges, errs).

(** ** [expandPath] *)

(** [matchesNonBoundary] (lines 567-575); [None] for [-1]. *)
Definition matchesNonBoundary (id : ResourceId)
  (nonBoundaryResources : list ResourceId) : option nat :=
  fst <$>
    list_find (λ node,
                 Matches ops
                   (mkResourceId (core.Provider node) (core.Type_ node)
                      (core.Namespace node) "") id = true)
              nonBoundaryResources.

(** A Go [int] is a 64-bit integer in two's complement: a [Z] between
    [-2^63] and [2^63 - 1], and what an addition leaves is its sum
    wrapped into that range. *)
Definition wrap64 (z : Z) : Z := ((z + 2 ^ 63) mod 2 ^ 64 - 2 ^ 63)%Z.

(** [candidates]: for each non-boundary position, the weight (an [int])
    of each resource that could stand there. *)
Abbreviation Candidates := (list (gmap ResourceId Z)).

(** Lines 314-333: the body of the loop over [nonBoundaryResources].
    The set [newResources] the loop also fills is never read. *)
Definition newCandidate (w : World) (input : ExpansionInput) (path : Path)
  (st : Candidates * option error) (node : ResourceId)
  : Candidates * option error :=
  let '(candidates, errs) := st in
  let c : gmap ResourceId Z := {[node := 0%Z]} in
  match TempVertex ops w node with
  | Err err => (candidates ++ [c], joinErr errs (Some err))
  | Ok resource =>
      match checkCandidatesValidity ops w resource path (Classification input) with
      | Err err => (candidates ++ [c], joinErr errs (Some err))
      | Ok valid =>
          (candidates ++ [if valid then c else <[node := (-1000)%Z]> c], errs)
      end
  end.

(** [addCandidates] (lines 338-374). *)
Definition addCandidates (input : ExpansionInput) (path : Path)
  (nonBoundaryResources : list ResourceId) (st : World * Candidates)
  (id : ResourceId) (resource : Resource) (nerr : option error)
  : World * Candidates * option error :=
  let '(w, candidates) := st in
  match matchesNonBoundary id nonBoundaryResources with
  | None => (w, candidates, None)
  | Some matchIdx =>
      match checkNamespaceValidity ops w resource (ID (DepTarget input)) with
      | Err err => (w, candidates, joinErr nerr (Some err))
      | Ok false => (w, candidates, nerr)
      | Ok true =>
          let '(w, err) := TempAddVertex ops w resource in
          let failed :=
            match err with
            | Some ErrVertexAlreadyExists | None => None
            | Some err => Some err
            end in
          match failed with
          | Some err => (w, candidates, joinErr nerr (Some err))
          | None =>
              let candidates :=
                alter (λ m : gmap ResourceId Z,
                         match m !! id with
                         | Some _ => m
                         | None => <[id := 0%Z]> m
                         end)
                      matchIdx candidates in
              match determineCandidateWeight ops w (ID (DepSource input))
                      (ID (DepTarget input)) id with
              | Err err => (w, candidates, joinErr nerr (Some err))
              | Ok weight =>
                  match checkCandidatesValidity ops w resource path
                          (Classification input) with
                  | Err err => (w, candidates, joinErr nerr (Some err))
                  | Ok valid =>
                      let weight := if valid then weight else (-1000)%Z in
                      (w,
                       alter (λ m : gmap ResourceId Z,
                                <[id := wrap64 (default 0 (m !! id) + weight)%Z]> m)
                             matchIdx candidates,
                       nerr)
                  end
              end
          end
      end
  end.

(** Modelled from the spec: [construct.WalkGraph] is declared outside
    the files at hand (section 2: the graph substrate has a "stable
    ordering").  It calls the function on every vertex of the graph, in
    that order, and hands each call the error the call before returned;
    its own result is the last of these errors. *)
Definition WalkGraph {S : Type} (nodes : list (ResourceId * Resource))
  (fn : S → ResourceId → Resource → option error → S * option error)
  (st : S) : S * option error :=
  foldl (λ '(st, nerr) '(id, resource), fn st id resource nerr)
        (st, None) nodes.

(** [nonBoundaryResources := path[1 : len(path)-1]] *)
Definition nonBoundary (path : Path) : Path :=
  take (length path - 2) (drop 1 path).

(** Lines 310-333: the candidates the nodes of the path are themselves,
    and the errors of the loop. *)
Definition nodeCandidates (w : World) (input : ExpansionInput) (path : Path)
  : Candidates * option error :=
  foldl (newCandidate w input path) ([], None) (nonBoundary path).

(** Lines 375-391: the candidates of the result graph and of the raw
    view are added, [errs] being [nil] when the walks begin. *)
Definition walkCandidates (w : World) (input : ExpansionInput) (path : Path)
  (candidates : Candidates) : World * Candidates * option error :=
  let errs : option error := None in
  let '(w, candidates, err) :=
    WalkGraph (resultGraphWalk ops w)
      (addCandidates input path (nonBoundary path)) (w, candidates) in
  let errs :=
    match err with
    | Some err => joinErr errs (Some (ErrWalk "result graph" err))
    | None => errs
    end in
  let '(w, candidates, err) :=
    WalkGraph (rawViewWalk ops w)
      (addCandidates input path (nonBoundary path)) (w, candidates) in
  let errs :=
    match err with
    | Some err => joinErr errs (Some (ErrWalk "raw view" err))
    | None => errs
    end in
  (w, candidates, errs).

(** [candidates[i][id]], when the entry is there. *)
Definition weightOf (candidates : Candidates) (i : nat) (id : ResourceId)
  : option Z :=
  candidates !! i ≫= (λ m, m !! id).

(** The number of the visits of a walk that are of [id]. *)
Definition visits (id : ResourceId) (nodes : list (ResourceId * Resource))
  : nat :=
  length (filter (λ node, node.1 = id) nodes).

(** A walk of the result graph or of the raw view hands [resource] over
    under [id]. *)
Definition met (id : ResourceId) (resource : Resource) : Prop :=
  ∃ w, (id, resource) ∈ resultGraphWalk ops w
       ∨ (id, resource) ∈ rawViewWalk ops w.

(** The local type [candidate]. *)
Record candidate := mkCandidate {
  id : ResourceId;
  divideWeightBy : Z;
}.

(** A call of [input.TempGraph.AddEdge]: the two ends and the weight. *)
Record weightedEdge := mkWeightedEdge {
  edgeSource : ResourceId;
  edgeTarget : ResourceId;
  edgeWeight : Z;
}.

(** [addEdge] (lines 404-433).  The third component of the state is the
    list of the calls of [input.TempGraph.AddEdge] so far, in order. *)
Definition addEdge (input : ExpansionInput) (edges : list Edge)
  (st : World * option error * list weightedEdge)
  (pair : candidate * candidate)
  : World * option error * list weightedEdge :=
  let '(w, errs, log) := st in
  let '(source, target) := pair in
  let weight :=
    calculateEdgeWeight ops w (ID (DepSource input)) (ID (DepTarget input))
      (id source) (id target) (divideWeightBy source) (divideWeightBy target)
      (Classification input) in
  if negb (HasEdgeTemplate ops w (id source) (id target)) then
    (w, joinErr errs (Some (ErrNoEdgeTemplate (id source) (id target))), log)
  else if negb (UniqueCanAdd ops w edges (id source) (id target)) then
    (w, errs, log)
  else
    let '(valid, errs) :=
      match checkUniquenessValidity ops w (id source) (id target) with
      | Ok valid => (valid, errs)
      | Err err => (false, joinErr errs (Some err))
      end in
    if negb valid then (w, errs, log)
    else
      let '(w, err) := TempAddEdge ops w (id source) (id target) weight in
      let log := log ++ [mkWeightedEdge (id source) (id target) weight] in
      match err with
      | Some ErrEdgeAlreadyExists | Some ErrEdgeCreatesCycle | None =>
          (w, errs, log)
      | Some err => (w, joinErr errs (Some err), log)
      end.

(** Lines 435-454: the pairs [addEdge] is called on, in order.  A
    [range] over a map visits its entries in the order of
    [map_to_list]. *)
Definition edgePairs (input : ExpansionInput) (candidates : Candidates)
  : list (candidate * candidate) :=
  let entries (m : gmap ResourceId Z) : list candidate :=
    (λ '(id, weight), mkCandidate id weight) <$> map_to_list m in
  let src := mkCandidate (ID (DepSource input)) 0 in
  let tgt := mkCandidate (ID (DepTarget input)) 0 in
  mjoin (imap (λ i resCandidates,
                 c ← entries resCandidates;
                 if decide (i = 0) then [(src, c)]
                 else (λ source, (source, c))
                        <$> entries (default ∅ (candidates !! (i - 1))))
              candidates)
  ++ match last candidates with
     | Some lastCandidates => (λ c, (c, tgt)) <$> entries lastCandidates
     | None => []
     end.

(** What [expandPath] returns, the world it leaves, and the edges it
    has put into the temp graph, in order. *)
Record expanded := mkExpanded {
  expandedWorld : World;
  expandedErr : option error;
  expandedEdges : list weightedEdge;
}.

(** [expandPath] (lines 288-459).  When the loop over the nodes of the
    path has met an error the function returns at once (lines 334-336);
    an error of the walks is returned after [DataflowGraph().Edges()] has
    been asked for (lines 392-398). *)
Definition expandPath (w : World) (input : ExpansionInput) (path : Path)
  : expanded :=
  if decide (length path = 2) then mkExpanded w None []
  else
    match nodeCandidates w input path with
    | (_, Some errs) => mkExpanded w (Some errs) []
    | (candidates, None) =>
        let '(w, candidates, errs) := walkCandidates w input path candidates in
        let '(edges, errs) :=
          match DataflowEdges ops w with
          | Ok edges => (edges, errs)
          | Err err => ([], joinErr errs (Some err))
          end in
        match errs with
        | Some errs => mkExpanded w (Some errs) []
        | None =>
            let '(w, errs, log) :=
              foldl (addEdge input edges) (w, None, [])
                (edgePairs input candidates) in
            mkExpanded w errs log
        end
    end.

(** ** [expandEdge] *)

Section expand_edge.
Variable ResourceIdLess : ResourceId → ResourceId → bool.

(** Lines 81-83: [expandPath] on every path, in the sorted order. *)
Definition expandPaths (w : World) (input : ExpansionInput)
  (paths : list Path) : World * option error :=
  foldl (λ '(w, errs) path,
           let r := expandPath w input path in
           (expandedWorld r, joinErr errs (expandedErr r)))
        (w, None) paths.

(** Lines 88-103: the path chosen in the temp graph as the expansion of
    the paths has weighted it, and what is made of it. *)
Definition choose (w : World) (input : ExpansionInput)
  : World * option (list Edge) * option error :=
  let src := ID (DepSource input) in
  let dst := ID (DepTarget input) in
  match ShortestPathStable ops w src dst ResourceIdLess with
  | Err err => (w, None, joinErr None (Some (ErrShortestPath src dst err)))
  | Ok path =>
      let '(w, resultResources, err) :=
        renameAndReplaceInTempGraph w input path in
      let errs := joinErr None err in
      let '(edges, err) :=
        findSubExpansionsToRun (default [] resultResources) w in
      (w, Some edges, joinErr errs err)
  end.

(** [expandEdge] (lines 57-104). *)
Definition expandEdge (w : World) (input : ExpansionInput)
  : World * option (list Edge) * option error :=
  match AllPathsBetween ops w (ID (DepSource input)) (ID (DepTarget input)) with
  | Err err => (w, None, Some err)
  | Ok paths =>
      let paths := sortSlice ResourceIdLess paths in
      let '(w, errs) := expandPaths w input paths in
      match errs with
      | Some errs => (w, None, Some errs)
      | None => choose w input
      end
  end.

End expand_edge.

End world.

Arguments AllPathsBetween {World}.
Arguments ShortestPathStable {World}.
Arguments TempVertex {World}.
Arguments TempAddVertex {World}.
Arguments TempAddEdge {World}.
Arguments markNewId {World}.
Arguments ReplaceResource {World}.
Arguments RawViewVertex {World}.
Arguments rawViewWalk {World}.
Arguments DataflowEdges {World}.
Arguments resultGraphWalk {World}.
Arguments GraphAddVertex {World}.
Arguments GraphAddEdge {World}.
Arguments GetResourceTemplate {World}.
Arguments CreateResource {World}.
Arguments CanUse {World}.
Arguments SetField {World}.
Arguments HasEdgeTemplate {World}.
Arguments UniqueCanAdd {World}.
Arguments Matches {World}.
Arguments checkCandidatesValidity {World}.
Arguments checkNamespaceValidity {World}.
Arguments checkUniquenessValidity {World}.
Arguments determineCandidateWeight {World}.
Arguments calculateEdgeWeight {World}.
Arguments handleSelector {World}.
Arguments handleProp {World}.
Arguments handleResource {World}.
Arguments handleDownFrom {World}.
Arguments handleProperties {World}.
Arguments lookupResource {World}.
Arguments addResource {World}.
Arguments added : clear implicits.
Arguments addedWorld {World}.
Arguments addedResources {World}.
Arguments addedErr {World}.
Arguments addedLog {World}.
Arguments addPathToGraph {World}.
Arguments freeName {World}.
Arguments renamePhantom {World}.
Arguments renameAndReplaceInTempGraph {World}.
Arguments getResourceTemplate {World}.
Arguments subExpansionTo {World}.
Arguments subExpansionFrom {World}.
Arguments subExpansionsAt {World}.
Arguments findSubExpansionsToRun {World}.
Arguments matchesNonBoundary {World}.
Arguments newCandidate {World}.
Arguments addCandidates {World}.
Arguments nodeCandidates {World}.
Arguments walkCandidates {World}.
Arguments met {World}.
Arguments addEdge {World}.
Arguments expanded : clear implicits.
Arguments expandedWorld {World}.
Arguments expandedErr {World}.
Arguments expandedEdges {World}.
Arguments expandPath {World}.
Arguments expandPaths {World}.
Arguments choose {World}.
Arguments expandEdge {World}.

End path_selection.

(* ===================================================================== *)
(** * Instances                                                           *)
(* ===================================================================== *)

(** Small knowledge bases, graphs and engines on which the functions
    above are run in the lemmas below. *)
Module examples.
Import knowledgebase.

Definition kbOf (l : list (Edge * EdgeDetails)) : EdgeKB := list_to_map l.

(** An edge of the knowledge base that may be used on the way to any of
    [valid]. *)
Definition fwd (valid : list GoType) : EdgeDetails :=
  mkEdgeDetails None None valid false.

(** A resource type that may depend on itself. *)
Definition kbSelf : EdgeKB := kbOf [(mkEdge "A" "A", fwd ["A"])].

(** A chain n0 ... n5 from which D is reached through m and p, and
    through p alone. *)
Definition kbChain : EdgeKB :=
  kbOf ((λ e, (e, fwd ["D"])) <$> [
    mkEdge "n0" "n1"; mkEdge "n1" "n2"; mkEdge "n2" "n3"; mkEdge "n3" "n4";
    mkEdge "n4" "n5"; mkEdge "n5" "m"; mkEdge "m" "p"; mkEdge "p" "D";
    mkEdge "n5" "p"]).

Definition apiId : ResourceId := mkResourceId "aws" "lambda_function" "" "api".
Definition dbId : ResourceId := mkResourceId "aws" "rds_instance" "" "db".
Definition proxyId : ResourceId := mkResourceId "aws" "rds_proxy" "" "".

(** A provider whose resources have the type their id names. *)
Definition provider : engine.Provider :=
  engine.mkProvider (λ id _, Ok (mkResource (core.Type_ id) id)).

Definition api : Resource := mkResource "lambda_function" apiId.
Definition db : Resource := mkResource "rds_instance" dbId.

(** The working state: api -> db, the edge without data. *)
Definition working : ConstructGraph :=
  core.AddDependencyWithData
    (core.AddResource (core.AddResource core.NewGraph api) db)
    apiId dbId AnyNil.

Definition noConstraints : engine.ConstraintMap :=
  engine.mkConstraintMap [] [] [] [].

Definition engine0 : engine.Engine :=
  engine.LoadContext (engine.mkEngine (λ _, provider) ∅
                        (engine.mkEngineContext noConstraints core.NewGraph
                           core.NewGraph None [] ∅ ""))
    working noConstraints "app".

Definition mustContainProxy : constraints.EdgeConstraint :=
  constraints.mkEdgeConstraint constraints.MustContainConstraintOperator
    (constraints.mkEdge apiId dbId) proxyId.

(** Collaborators of [SolveGraph]: edges expand and configure without
    error and every constraint is satisfied. *)
Definition expandOk (e : engine.Engine) (g : ResourceGraph)
  : ResourceGraph * option error := (g, None).
Definition configureOk (kb : EdgeKB) (dep : Dependency) (g : ResourceGraph)
  : ResourceGraph * option error := (g, None).
Definition satisfied (c : constraints.Constraint) (g : ResourceGraph)
  (kb : EdgeKB) (m : gmap ResourceId (list Resource)) : bool := true.

(** [MakeResourcesOperational] that always fails. *)
Definition neverOperational (e : engine.Engine) (g : ResourceGraph)
  : ResourceGraph * result (gmap ResourceId bool) :=
  (g, Err (Errorf "cannot make the resources operational")).

(** [MakeResourcesOperational] that returns without error and makes no
    resource operational. *)
Definition noneOperational (e : engine.Engine) (g : ResourceGraph)
  : ResourceGraph * result (gmap ResourceId bool) :=
  (g, Ok ∅).

Definition applyOk (e : engine.Engine) (c : constraints.Constraint)
  : engine.Engine * option error := (e, None).
Definition expandConstructsOk (e : engine.Engine)
  : engine.Engine * option error := (e, None).

(** [MakeResourcesOperational] that makes every resource of the graph
    operational, and one that leaves out api. *)
Definition allOperational (e : engine.Engine) (g : ResourceGraph)
  : ResourceGraph * result (gmap ResourceId bool) :=
  (g, Ok (gset_to_gmap true (dom (core.vertices g)))).
Definition operationalButApi (e : engine.Engine) (g : ResourceGraph)
  : ResourceGraph * result (gmap ResourceId bool) :=
  (g, Ok (gset_to_gmap true (dom (core.vertices g) ∖ {[apiId]}))).

(** Every Go type of the examples is the type of a resource. *)
Definition allResources (t : GoType) : bool := true.

(** A construct and two solutions of its expansion: the function api,
    or the database db. *)
Definition unitId : ResourceId :=
  mkResourceId core.AbstractConstructProvider "execution_unit" "" "unit".
Definition executionUnit : Resource := mkResource "ExecutionUnit" unitId.

Definition solutionApi : engine.ExpansionSolution :=
  engine.mkExpansionSolution (core.AddResource core.NewGraph api) [api].
Definition solutionDb : engine.ExpansionSolution :=
  engine.mkExpansionSolution (core.AddResource core.NewGraph db) [db].

(** The engine whose working state is the construct alone. *)
Definition engineUnit : engine.Engine :=
  engine.LoadContext (engine.mkEngine (λ _, provider) ∅
                        (engine.mkEngineContext noConstraints core.NewGraph
                           core.NewGraph None [] ∅ ""))
    (core.AddResource core.NewGraph executionUnit) noConstraints "app".

(** [ExpandConstructs] that finds the solutions [sols] for the
    construct. *)
Definition expandConstructsTo (sols : list engine.ExpansionSolution)
  (e : engine.Engine) : engine.Engine * option error :=
  let c := engine.Context e in
  (engine.mkEngine (engine.Providers e) (engine.KnowledgeBase e)
     (engine.mkEngineContext (engine.Constraints c) (engine.InitialState c)
        (engine.WorkingState c) (engine.Solution c) (engine.Decisions c)
        {[unitId := sols]} (engine.AppName c)),
   None).

(** The contexts [GenerateCombinations] makes of the two solutions, and
    the context it makes of the working state api -> db, which has no
    construct. *)
Definition contextApi : engine.SolveContext :=
  engine.mkSolveContext (core.AddResource core.NewGraph api)
    {[unitId := solutionApi]}.
Definition contextDb : engine.SolveContext :=
  engine.mkSolveContext (core.AddResource core.NewGraph db)
    {[unitId := solutionDb]}.
Definition contextBase : engine.SolveContext :=
  engine.mkSolveContext
    (core.AddResource (core.AddResource core.NewGraph api) db) ∅.

(** [Run] on the engine of the construct, with the solutions [sols] for
    it, and [SolveGraph] with the same collaborators. *)
Definition runWith (sols : list engine.ExpansionSolution) : engine.ran :=
  engine.Run expandOk configureOk operationalButApi satisfied applyOk
    (expandConstructsTo sols) allResources engineUnit.

Definition solveWith (context : engine.SolveContext)
  : ResourceGraph * option error :=
  engine.SolveGraph expandOk configureOk operationalButApi satisfied
    engineUnit context.

(** The same with no resource made operational: every solve of a graph
    that has a resource fails. *)
Definition runFailing (sols : list engine.ExpansionSolution) : engine.ran :=
  engine.Run expandOk configureOk noneOperational satisfied applyOk
    (expandConstructsTo sols) allResources engineUnit.

Definition solveFailing (context : engine.SolveContext)
  : ResourceGraph * option error :=
  engine.SolveGraph expandOk configureOk noneOperational satisfied
    engineUnit context.

(** The engine over an end-state graph: [endBoth] holds api and db,
    [endDb] holds db alone. *)
Definition engineV1 (endState : ResourceGraph) : engine_v1.Engine :=
  engine_v1.mkEngine provider ∅
    (engine_v1.mkEngineContext noConstraints core.NewGraph core.NewGraph
       endState [] ∅ "app").

Definition endBoth : ResourceGraph :=
  core.AddResource (core.AddResource core.NewGraph api) db.
Definition endDb : ResourceGraph := core.AddResource core.NewGraph db.

(** Two routes of two edges each from a function to a database. *)
Definition kbTie : EdgeKB :=
  kbOf ((λ e, (e, fwd ["rds_instance"])) <$> [
    mkEdge "lambda_function" "rds_proxy"; mkEdge "rds_proxy" "rds_instance";
    mkEdge "lambda_function" "vpc"; mkEdge "vpc" "rds_instance"]).

(** The zero resource of a type. *)
Definition zeroResource (t : GoType) : Resource :=
  mkResource t (mkResourceId "" "" "" "").

(** An expansion of api -> db in [path_selection].  The temp graph holds
    a phantom proxy between the two; [proxy] is a proxy that exists
    already, [cacheId] a resource of another type. *)
Definition phantomId : ResourceId :=
  mkResourceId "aws" "rds_proxy" "" "PHANTOM_rds_proxy".
Definition existingProxyId : ResourceId :=
  mkResourceId "aws" "rds_proxy" "" "proxy".
Definition cacheId : ResourceId :=
  mkResourceId "aws" "elasticache_cluster" "" "PHANTOM_elasticache_cluster".

Definition proxy : path_selection.Resource :=
  path_selection.mkResource existingProxyId [].

Definition apiToDb : path_selection.ExpansionInput :=
  path_selection.mkInput (path_selection.mkResource apiId [])
    (path_selection.mkResource dbId []) "".

Definition direct : path_selection.Path := [apiId; dbId].
Definition viaProxy : path_selection.Path := [apiId; phantomId; dbId].
Definition viaCache : path_selection.Path := [apiId; cacheId; dbId].

(** Collaborators over a world without state: the temp graph has the
    paths [paths], of which [shortest] is the shortest after weighting;
    the result graph holds [inResult] and the raw view [inRaw]; a
    selector matches the ids of its provider and type; no candidate
    passes [checkCandidatesValidity], and a candidate that did would
    weigh 10; the weight of an edge is the sum of the weights of the
    candidates at its ends. *)
Definition opsOf (paths : list path_selection.Path)
  (shortest : path_selection.Path)
  (inResult inRaw : list path_selection.Resource)
  : path_selection.Collaborators unit := {|
  path_selection.AllPathsBetween := λ _ _ _, Ok paths;
  path_selection.ShortestPathStable := λ _ _ _ _, Ok shortest;
  path_selection.TempVertex := λ _ id, Ok (path_selection.mkResource id []);
  path_selection.TempAddVertex := λ w _, (w, None);
  path_selection.TempAddEdge := λ w _ _ _, (w, None);
  path_selection.markNewId := λ w _ _, w;
  path_selection.ReplaceResource := λ w _ _, (w, None);
  path_selection.RawViewVertex := λ _ _, Err ErrVertexNotFound;
  path_selection.rawViewWalk :=
    λ _, (λ r, (path_selection.ID r, r)) <$> inRaw;
  path_selection.DataflowEdges := λ _, Ok [];
  path_selection.resultGraphWalk :=
    λ _, (λ r, (path_selection.ID r, r)) <$> inResult;
  path_selection.GraphAddVertex := λ w _, (w, None);
  path_selection.GraphAddEdge := λ w _ _, (w, None);
  path_selection.GetResourceTemplate :=
    λ _ _, Ok (path_selection.mkTemplate [] [] []);
  path_selection.CreateResource :=
    λ _ id, Ok (path_selection.mkResource id []);
  path_selection.CanUse := λ _ _ _ _, Ok false;
  path_selection.SetField := λ w _ _ res _ _, (w, res, None);
  path_selection.HasEdgeTemplate := λ _ _ _, true;
  path_selection.UniqueCanAdd := λ _ _ _ _, true;
  path_selection.Matches :=
    λ sel id, bool_decide (core.Provider sel = core.Provider id)
              && bool_decide (core.Type_ sel = core.Type_ id);
  path_selection.checkCandidatesValidity := λ _ _ _ _, Ok false;
  path_selection.checkNamespaceValidity := λ _ _ _, Ok true;
  path_selection.checkUniquenessValidity := λ _ _ _, Ok true;
  path_selection.determineCandidateWeight := λ _ _ _ _, Ok 10%Z;
  path_selection.calculateEdgeWeight := λ _ _ _ _ _ ws wt _, (ws + wt)%Z;
|}.

(** The existing proxy is in the result graph and in the raw view. *)
Definition opsProxyTwice : path_selection.Collaborators unit :=
  opsOf [viaProxy] viaProxy [proxy] [proxy].

(** Three paths from api to db, as the graph library may list them. *)
Definition opsThreePaths : path_selection.Collaborators unit :=
  opsOf [viaProxy; direct; viaCache] direct [] [].

(** A strict total order on ids: that of their encodings. *)
Definition encodeLess (a b : ResourceId) : bool :=
  bool_decide (encode a < encode b)%positive.

End examples.

(* ===================================================================== *)
(** * Properties                                                          *)
(* ===================================================================== *)

Set Warnings "-clear-no-such-hyp".

(** ** [FindPaths]: termination, and what the recorded paths are *)

Module knowledgebase_facts.
Import knowledgebase.

Lemma rangeEdges_total body edges (v : gset GoType) :
  (∀ e h, e ∈ edges → ∃ r h', body e (h, v) = Some (r, (h', v))) →
  ∀ result h, ∃ result' h',
    rangeEdges body edges result (h, v) = Some (result', (h', v)).
Proof.
  induction edges as [|e edges IH]; intros Hbody result h; simpl.
  - eauto.
  - destruct (Hbody e h) as (r & h' & ->); [left|]. simpl.
    apply IH. intros e' h0 He'. apply Hbody. by right.
Qed.

Lemma rangeKB_types kb e :
  e ∈ rangeKB kb → Source e ∈ kbTypes kb ∧ Destination e ∈ kbTypes kb.
Proof.
  intros He. unfold kbTypes. rewrite !elem_of_list_to_set.
  split; apply list_elem_of_In, in_flat_map; exists e;
    (split; [by apply list_elem_of_In | simpl; auto]).
Qed.

Lemma measure_step (U V : gset GoType) (s s' : GoType) fuel :
  s ∉ V → s' ∈ U →
  size (({[s]} ∪ U) ∖ V) ≤ S fuel →
  size (({[s']} ∪ U) ∖ ({[s]} ∪ V)) ≤ fuel.
Proof.
  intros Hs Hs' Hsz.
  assert (({[s']} ∪ U) ∖ ({[s]} ∪ V) ⊂ ({[s]} ∪ U) ∖ V) as Hsub.
  { split; [set_solver|]. intros Hc. specialize (Hc s). set_solver. }
  apply subset_size in Hsub. lia.
Qed.

Section facts.
Variable growcap : nat → nat.
Variable kb : EdgeKB.
Variable dest : GoType.

Lemma findPaths_total fuel : ∀ source stack h visited,
  source ∉ visited →
  size (({[source]} ∪ kbTypes kb) ∖ visited) ≤ fuel →
  ∃ r h', findPaths growcap kb dest fuel source stack (h, visited)
          = Some (r, (h', visited)).
Proof.
  induction fuel as [|fuel IH]; intros source stack h visited Hs Hsz.
  - exfalso.
    assert ({[source]} ⊆ ({[source]} ∪ kbTypes kb) ∖ visited) as Hsub
      by set_solver.
    apply subseteq_size in Hsub. rewrite size_singleton in Hsub. lia.
  - assert (({[source]} ∪ visited) ∖ {[source]} = visited) as Hrestore
      by set_solver.
    simpl. destruct (decide (source = dest)) as [->|Hne].
    + destruct (if decide (len stack = 0) then _ else _) as [h1 stack1].
      rewrite Hrestore. eauto.
    + edestruct (rangeEdges_total
        (λ e '(h, visited),
           if negb (ReverseDirection (GetEdgeDetails kb (Source e) (Destination e)).1)
              && bool_decide (Source e = source)
              && bool_decide (Destination e ∉ visited)
              && isValidForPath kb e dest
           then let '(h, stack') := append growcap h stack e in
                findPaths growcap kb dest fuel (Destination e) stack' (h, visited)
           else Some ([], (h, visited)))
        (GetEdgesWithSource kb source) ({[source]} ∪ visited))
        as (r1 & h1 & Hr1).
      { intros e h0 He. destruct (_ && _) eqn:Hc; [|eauto].
        destruct (append growcap h0 stack e) as [h2 stack2].
        apply andb_prop in Hc as [Hc _]. apply andb_prop in Hc as [_ Hv].
        apply bool_decide_eq_true in Hv.
        apply list_elem_of_filter in He as [_ He].
        apply IH; [done|].
        apply measure_step; [done| |done]. by apply rangeKB_types. }
      rewrite Hr1. simpl.
      edestruct (rangeEdges_total
        (λ e '(h, visited),
           if ReverseDirection (GetEdgeDetails kb (Source e) (Destination e)).1
              && bool_decide (Destination e = source)
              && bool_decide (Source e ∉ visited)
              && isValidForPath kb e dest
           then let '(h, stack') := append growcap h stack e in
                findPaths growcap kb dest fuel (Source e) stack' (h, visited)
           else Some ([], (h, visited)))
        (GetEdgesWithTarget kb source) ({[source]} ∪ visited))
        as (r2 & h2 & Hr2).
      { intros e h0 He. destruct (_ && _) eqn:Hc; [|eauto].
        destruct (append growcap h0 stack e) as [h2 stack2].
        apply andb_prop in Hc as [Hc _]. apply andb_prop in Hc as [_ Hv].
        apply bool_decide_eq_true in Hv.
        apply list_elem_of_filter in He as [_ He].
        apply IH; [done|].
        apply measure_step; [done| |done]. by apply rangeKB_types. }
      rewrite Hr2. simpl. rewrite Hrestore. eauto.
Qed.

End facts.

Lemma take_le_eq {A} k n (a b : list A) :
  k ≤ n → take n a = take n b → take k a = take k b.
Proof.
  intros Hk Heq.
  assert (take k (take n a) = take k (take n b)) as H by congruence.
  rewrite !take_take in H. by rewrite !Nat.min_l in H by lia.
Qed.

Lemma preserved_refl k i h : preserved k i h h.
Proof. intros j a Hj. exists a. eauto. Qed.

Lemma preserved_trans k i h1 h2 h3 :
  preserved k i h1 h2 → preserved k i h2 h3 → preserved k i h1 h3.
Proof.
  intros H12 H23 j a Hj.
  destruct (H12 j a Hj) as (a2 & Hj2 & Hne2 & Htk2 & Hlen2).
  destruct (H23 j a2 Hj2) as (a3 & Hj3 & Hne3 & Htk3 & Hlen3).
  exists a3. repeat split; [done| |congruence|lia].
  intros Hji. rewrite Hne3, Hne2; done.
Qed.

Lemma preserved_read k i h h' s :
  wfSlice h s → preserved k i h h' → arr s ≠ i ∨ len s ≤ k →
  readSlice h' s = readSlice h s ∧ wfSlice h' s.
Proof.
  intros [Hcap [Hz|(a & Ha & Hlen)]] Hp Hor.
  - assert (len s = 0) as Hl by lia. unfold readSlice, wfSlice.
    rewrite Hl. simpl. split; [done|]. split; [lia|by left].
  - destruct (Hp _ _ Ha) as (a' & Ha' & Hne & Htk & Hlen').
    unfold readSlice, wfSlice. rewrite Ha, Ha'. simpl. split.
    + destruct Hor as [Hi|Hk]; [by rewrite Hne|].
      by apply (take_le_eq _ k).
    + split; [done|]. right. exists a'. split; [done|lia].
Qed.

Lemma length_readSlice h s : wfSlice h s → length (readSlice h s) = len s.
Proof.
  intros [Hcap [Hz|(a & Ha & Hlen)]]; unfold readSlice.
  - assert (len s = 0) as -> by lia. done.
  - rewrite Ha. simpl. rewrite length_take. lia.
Qed.

Lemma append_spec growcap h s e h1 s1 :
  append growcap h s e = (h1, s1) → wfSlice h s →
  wfSlice h1 s1 ∧ readSlice h1 s1 = readSlice h s ++ [e]
  ∧ len s1 = S (len s)
  ∧ ∀ h', preserved (len s1) (arr s1) h1 h' → preserved (len s) (arr s) h h'.
Proof.
  unfold append. intros Happ Hwf.
  pose proof (length_readSlice _ _ Hwf) as Hlr.
  destruct (decide (len s < cap s)) as [Hlt|Hge]; simplify_eq; simpl.
  - destruct Hwf as [Hcap [Hz|(a & Ha & Hlen)]]; [lia|].
    assert (alter (λ a, writeAt a (len s) e) (arr s) h !! arr s
            = Some (writeAt a (len s) e)) as Hal.
    { rewrite list_lookup_alter_eq, Ha. done. }
    assert (take (len s) (writeAt a (len s) e) = take (len s) a) as Htk.
    { unfold writeAt. rewrite take_app_le by (rewrite length_take; lia).
      rewrite take_take. f_equal. lia. }
    assert (length a ≤ length (writeAt a (len s) e)) as Hlw.
    { unfold writeAt. rewrite length_app, length_take. simpl.
      rewrite length_drop. lia. }
    repeat split.
    + simpl. lia.
    + right. exists (writeAt a (len s) e). simpl. split; [done|].
      unfold writeAt. rewrite length_app, length_take. simpl. lia.
    + unfold readSlice. simpl. rewrite Hal, Ha. simpl.
      unfold writeAt.
      rewrite take_app_ge by (rewrite length_take; lia).
      rewrite length_take.
      replace (S (len s) - len s `min` length a) with 1 by lia.
      done.
    + intros h' Hp j b Hj. destruct (decide (j = arr s)) as [->|Hne].
      * assert (b = a) as -> by congruence.
        destruct (Hp _ _ Hal) as (a' & Ha' & _ & Htk' & Hlen').
        exists a'. split; [done|]. split; [done|]. split; [|lia].
        rewrite <- Htk. apply (take_le_eq _ (S (len s))); [lia|done].
      * assert (alter (λ a, writeAt a (len s) e) (arr s) h !! j = Some b)
          as Hb by (rewrite list_lookup_alter_ne by done; done).
        destruct (Hp _ _ Hb) as (a' & Ha' & Heq & Htk' & Hlen').
        rewrite (Heq Hne) in *. exists b. repeat split; try done.
  - assert ((h ++ [readSlice h s ++ [e]]) !! length h
            = Some (readSlice h s ++ [e])) as Hnew.
    { rewrite lookup_app_r by lia. by rewrite Nat.sub_diag. }
    repeat split.
    + simpl. lia.
    + right. exists (readSlice h s ++ [e]). simpl. split; [done|].
      rewrite length_app. simpl. lia.
    + unfold readSlice at 1. simpl. rewrite Hnew. simpl.
      rewrite take_ge; [done|]. rewrite length_app. simpl. lia.
    + intros h' Hp j b Hj.
      assert (j < length h) as Hjl by (eapply lookup_lt_Some; done).
      assert ((h ++ [readSlice h s ++ [e]]) !! j = Some b) as Hb
        by (rewrite lookup_app_l by done; done).
      destruct (Hp _ _ Hb) as (a' & Ha' & Heq & Htk' & Hlen').
      simpl in Heq. rewrite Heq in * by lia.
      exists b. repeat split; try done.
Qed.

Lemma wfSlice_preserved k i h h' s :
  wfSlice h s → preserved k i h h' → wfSlice h' s.
Proof.
  intros [Hcap [Hz|(a & Ha & Hlen)]] Hp; (split; [done|]); [by left|].
  destruct (Hp _ _ Ha) as (a' & Ha' & _ & _ & Hlen').
  right. exists a'. split; [done|lia].
Qed.

Lemma rangeEdges_inv (I : searchState → Prop) (R : store → found → Prop)
  body edges :
  (∀ e σ r σ', I σ → body e σ = Some (r, σ') →
     I σ' ∧ Forall (R σ'.1) r ∧ ∀ f, R σ.1 f → R σ'.1 f) →
  ∀ result σ result' σ',
    I σ → Forall (R σ.1) result →
    rangeEdges body edges result σ = Some (result', σ') →
    I σ' ∧ Forall (R σ'.1) result' ∧ ∀ f, R σ.1 f → R σ'.1 f.
Proof.
  intros Hbody. induction edges as [|e edges IH];
    intros result σ result' σ' HI HR Hrun; simpl in Hrun.
  - by simplify_eq.
  - destruct (body e σ) as [[r σ1]|] eqn:Hb; simpl in Hrun; [|done].
    destruct (Hbody _ _ _ _ HI Hb) as (HI1 & HR1 & Hmono).
    eapply IH in Hrun as (HI' & HR' & Hmono'); [|exact HI1|].
    + split; [done|]. split; [done|]. intros f Hf. by apply Hmono', Hmono.
    + apply Forall_app. split; [|done].
      eapply Forall_impl; [exact HR|]. exact Hmono.
Qed.

Lemma pathNodes_snoc s p e :
  pathNodes s (p ++ [e]) = pathNodes s p ++ [next (pathEnd s p) e].
Proof. revert s. induction p as [|e' p IH]; intros s; simpl; [done|]. by rewrite IH. Qed.

Lemma pathEnd_snoc s p e : pathEnd s (p ++ [e]) = next (pathEnd s p) e.
Proof. revert s. induction p as [|e' p IH]; intros s; simpl; [done|]. by rewrite IH. Qed.

Lemma connected_snoc s p e :
  connected s (p ++ [e])
  = connected s p && (bool_decide (Source e = pathEnd s p)
                      || bool_decide (Destination e = pathEnd s p)).
Proof.
  revert s. induction p as [|e' p IH]; intros s; simpl.
  - by rewrite andb_true_r.
  - rewrite IH. by rewrite andb_assoc.
Qed.

Section recorded.
Variable growcap : nat → nat.
Variable kb : EdgeKB.
Variable s0 dest : GoType.

#[local] Abbreviation goodIn := (knowledgebase.goodIn s0 dest).

Lemma step_ok h stack s (V : gset GoType) e n :
  wfSlice h stack →
  pathEnd s0 (readSlice h stack) = s →
  connected s0 (readSlice h stack) = true →
  NoDup (pathNodes s0 (readSlice h stack)) →
  (∀ x, x ∈ pathNodes s0 (readSlice h stack) → x = s ∨ x ∈ V) →
  next s e = n → n ∉ {[s]} ∪ V →
  Source e = s ∨ Destination e = s →
  ∀ h1 stack1, append growcap h stack e = (h1, stack1) →
    wfSlice h1 stack1 ∧ len stack1 ≠ 0
    ∧ pathEnd s0 (readSlice h1 stack1) = n
    ∧ connected s0 (readSlice h1 stack1) = true
    ∧ NoDup (pathNodes s0 (readSlice h1 stack1))
    ∧ (∀ x, x ∈ pathNodes s0 (readSlice h1 stack1) → x = n ∨ x ∈ {[s]} ∪ V)
    ∧ ∀ h', preserved (len stack1) (arr stack1) h1 h' →
            preserved (len stack) (arr stack) h h'.
Proof.
  intros Hwf Hend Hconn Hnd Hvis Hn Hfresh Htouch h1 stack1 Happ.
  destruct (append_spec _ _ _ _ _ _ Happ Hwf) as (Hwf1 & Hr1 & Hl1 & Hfr).
  rewrite Hr1.
  rewrite pathEnd_snoc, connected_snoc, pathNodes_snoc, Hend, Hconn, Hn.
  split; [exact Hwf1|]. split; [lia|]. split; [done|].
  split; [|split; [|split]].
  - simpl. destruct Htouch as [<-|<-].
    + by rewrite bool_decide_eq_true_2.
    + rewrite (bool_decide_eq_true_2 (Destination e = Destination e)) by done.
      by rewrite orb_true_r.
  - apply NoDup_app. split; [done|]. split; [|apply NoDup_singleton].
    intros x Hx Hx'. apply list_elem_of_singleton in Hx' as ->.
    apply Hvis in Hx. set_solver.
  - intros x Hx. apply elem_of_app in Hx as [Hx|Hx].
    + apply Hvis in Hx. set_solver.
    + apply list_elem_of_singleton in Hx. by left.
  - done.
Qed.

Lemma goodIn_preserved k i h h' f :
  preserved k i h h' → goodIn h f → goodIn h' f.
Proof. intros Hp [Hg Hw]. split; [done|]. by eapply wfSlice_preserved. Qed.

Lemma findPaths_recorded fuel : ∀ s stack h V r h' V',
  findPaths growcap kb dest fuel s stack (h, V) = Some (r, (h', V')) →
  wfSlice h stack →
  s ∉ V →
  len stack ≠ 0 ∨ s ≠ dest →
  pathEnd s0 (readSlice h stack) = s →
  connected s0 (readSlice h stack) = true →
  NoDup (pathNodes s0 (readSlice h stack)) →
  (∀ x, x ∈ pathNodes s0 (readSlice h stack) → x = s ∨ x ∈ V) →
  V' = V ∧ preserved (len stack) (arr stack) h h' ∧ Forall (goodIn h') r.
Proof.
  induction fuel as [|fuel IH];
    intros s stack h V r h' V' Hrun Hwf Hs Htop Hend Hconn Hnd Hvis;
    [done|].
  assert (({[s]} ∪ V) ∖ {[s]} = V) as Hrestore by set_solver.
  simpl in Hrun. destruct (decide (s = dest)) as [->|Hne].
  - destruct (decide (len stack = 0)) as [Hz|Hnz]; [by destruct Htop|].
    rewrite decide_True in Hrun by done. injection Hrun as <- <- <-.
    split; [done|]. split; [apply preserved_refl|].
    apply Forall_singleton. split; [|done]. unfold goodFound; simpl.
    pose proof (length_readSlice _ _ Hwf) as Hl.
    repeat split; try done.
    intros Hnil. rewrite Hnil in Hl. simpl in Hl. lia.
  - assert (∀ e ha ra hb Vb n,
      preserved (len stack) (arr stack) h ha →
      next s e = n → n ∉ {[s]} ∪ V → Source e = s ∨ Destination e = s →
      (let '(h, stack') := append growcap ha stack e in
       findPaths growcap kb dest fuel n stack' (h, {[s]} ∪ V))
      = Some (ra, (hb, Vb)) →
      loopInv h stack ({[s]} ∪ V) (hb, Vb) ∧ Forall (goodIn hb) ra
      ∧ ∀ f, goodIn ha f → goodIn hb f) as Hcall.
    { intros e ha ra hb Vb n Hpa Hnext Hfresh Htouch Hb.
      destruct (append growcap ha stack e) as [hc stackc] eqn:Happ.
      destruct (preserved_read _ _ _ _ _ Hwf Hpa) as [Hread Hwfa];
        [right; lia|].
      rewrite <- Hread in Hend, Hconn, Hnd, Hvis.
      edestruct (step_ok ha stack s V e n)
        as (Hw & Hl & He & Hco & Hn & Hvi & Hfr); eauto.
      eapply IH in Hb as (-> & Hpc & HRc); eauto.
      apply Hfr in Hpc.
      split; [split; [done|by eapply preserved_trans]|].
      split; [done|]. intros f. by apply goodIn_preserved with (1:=Hpc). }
    destruct (rangeEdges _ (GetEdgesWithSource kb s) _ _)
      as [[r1 [h1 V1]]|] eqn:Hr1; simpl in Hrun; [|done].
    destruct (rangeEdges _ (GetEdgesWithTarget kb s) _ _)
      as [[r2 [h2 V2]]|] eqn:Hr2; simpl in Hrun; [|done].
    injection Hrun as <- <- <-.
    apply (rangeEdges_inv (loopInv h stack ({[s]} ∪ V)) goodIn)
      in Hr1 as ([HV1 Hp1] & HR1 & _);
      [| |split; [done|apply preserved_refl]|done].
    2:{ intros e [ha Va] ra [hb Vb] [HVa Hpa] Hb. simpl in HVa, Hpa.
        subst Va. destruct (_ && _) eqn:Hc.
        2:{ injection Hb as <- <- <-. split; [by split|]. split; [constructor|done]. }
        apply andb_prop in Hc as [Hc _]. apply andb_prop in Hc as [Hc Hv].
        apply andb_prop in Hc as [_ Hsrc].
        apply bool_decide_eq_true in Hv, Hsrc.
        simpl. eapply (Hcall e ha ra hb Vb (Destination e));
          [done| |done|by left|exact Hb].
        unfold next. by rewrite decide_True. }
    simpl in HV1, Hp1. subst V1.
    apply (rangeEdges_inv (loopInv h stack ({[s]} ∪ V)) goodIn)
      in Hr2 as ([HV2 Hp2] & HR2 & _); [| |split; [done|done]|done].
    2:{ intros e [ha Va] ra [hb Vb] [HVa Hpa] Hb. simpl in HVa, Hpa.
        subst Va. destruct (_ && _) eqn:Hc.
        2:{ injection Hb as <- <- <-. split; [by split|]. split; [constructor|done]. }
        apply andb_prop in Hc as [Hc _]. apply andb_prop in Hc as [Hc Hv].
        apply andb_prop in Hc as [_ Hdst].
        apply bool_decide_eq_true in Hv, Hdst.
        simpl. eapply (Hcall e ha ra hb Vb (Source e));
          [done| |done|by right|exact Hb].
        unfold next.
        destruct (decide (Source e = s)) as [Heq|]; [|done].
        rewrite Heq in Hv. set_solver. }
    simpl in HV2, Hp2. subst V2. by rewrite Hrestore.
Qed.

End recorded.

Lemma rangeEdges_mono body1 body2 edges :
  (∀ e σ x, body1 e σ = Some x → body2 e σ = Some x) →
  ∀ result σ y,
    rangeEdges body1 edges result σ = Some y →
    rangeEdges body2 edges result σ = Some y.
Proof.
  intros Hb. induction edges as [|e edges IH]; intros result σ y; simpl;
    [done|].
  destruct (body1 e σ) as [[r σ1]|] eqn:H1; simpl; [|done].
  rewrite (Hb _ _ _ H1). simpl. apply IH.
Qed.

Lemma findPaths_fuel_S growcap kb dest fuel : ∀ s stack σ x,
  findPaths growcap kb dest fuel s stack σ = Some x →
  findPaths growcap kb dest (S fuel) s stack σ = Some x.
Proof.
  induction fuel as [|fuel IH]; intros s stack [h V] x Hrun; [done|].
  remember (S fuel) as fuel1 eqn:Hf. simpl. subst fuel1. simpl in Hrun.
  destruct (decide (s = dest)); [done|].
  destruct (rangeEdges _ (GetEdgesWithSource kb s) _ _)
    as [[r1 σ1]|] eqn:Hr1; simpl in Hrun; [|done].
  eapply rangeEdges_mono in Hr1; [rewrite Hr1; simpl|].
  - destruct (rangeEdges _ (GetEdgesWithTarget kb s) _ _)
      as [[r2 σ2]|] eqn:Hr2; simpl in Hrun; [|done].
    eapply rangeEdges_mono in Hr2; [rewrite Hr2; simpl; done|].
    intros e [h0 V0] y. simpl. destruct (_ && _); [|done].
    destruct (append growcap h0 stack e). apply IH.
  - intros e [h0 V0] y. simpl. destruct (_ && _); [|done].
    destruct (append growcap h0 stack e). apply IH.
Qed.

Lemma findPaths_fuel_add growcap kb dest fuel k s stack σ x :
  findPaths growcap kb dest fuel s stack σ = Some x →
  findPaths growcap kb dest (fuel + k) s stack σ = Some x.
Proof.
  intros Hrun. induction k as [|k IH].
  - by rewrite Nat.add_0_r.
  - rewrite Nat.add_succ_r. by apply findPaths_fuel_S.
Qed.

Lemma no_edges_outside kb s :
  s ∉ kbTypes kb → GetEdgesWithSource kb s = [] ∧ GetEdgesWithTarget kb s = [].
Proof.
  intros Hs. split.
  - destruct (GetEdgesWithSource kb s) as [|e l] eqn:H; [done|]. exfalso.
    assert (e ∈ GetEdgesWithSource kb s) as He by (rewrite H; left).
    apply list_elem_of_filter in He as [Hsrc Hin].
    apply rangeKB_types in Hin as [? ?]. congruence.
  - destruct (GetEdgesWithTarget kb s) as [|e l] eqn:H; [done|]. exfalso.
    assert (e ∈ GetEdgesWithTarget kb s) as He by (rewrite H; left).
    apply list_elem_of_filter in He as [Hsrc Hin].
    apply rangeKB_types in Hin as [? ?]. congruence.
Qed.

Lemma findPaths_top growcap kb source dest :
  ∃ r h, findPaths growcap kb dest (size (kbTypes kb) `max` 1) source
           emptySlice ([], ∅) = Some (r, (h, ∅)).
Proof.
  destruct (decide (source ∈ kbTypes kb)) as [Hin|Hout].
  - apply findPaths_total; [set_solver|].
    replace (({[source]} ∪ kbTypes kb) ∖ ∅) with (kbTypes kb) by set_solver.
    lia.
  - destruct (no_edges_outside kb source Hout) as [Hs Ht].
    destruct (size (kbTypes kb) `max` 1) as [|fuel] eqn:Hf; [lia|].
    simpl. assert (({[source]} ∪ ∅) ∖ {[source]} = (∅ : gset GoType)) as Hre
      by set_solver.
    destruct (decide (source = dest)).
    + destruct (if (GetEdgeDetails kb source dest).2 then _ else _).
      rewrite Hre. eauto.
    + rewrite Hs, Ht. simpl. rewrite Hre. eauto.
Qed.


Lemma FindPaths_eq growcap kb source dest r h :
  findPaths growcap kb dest (size (kbTypes kb) `max` 1) source emptySlice
    ([], ∅) = Some (r, (h, ∅)) →
  FindPaths growcap kb source dest = (λ f, readSlice h (hdr f)) <$> r.
Proof.
  intros Hrun. unfold FindPaths.
  replace (S (size (kbTypes kb)))
    with (size (kbTypes kb) `max` 1 + (S (size (kbTypes kb))
                                       - size (kbTypes kb) `max` 1)) by lia.
  by rewrite (findPaths_fuel_add _ _ _ _ _ _ _ _ _ Hrun).
Qed.

Lemma FindPaths_self growcap kb dest :
  FindPaths growcap kb dest dest
  = if (GetEdgeDetails kb dest dest).2 then [[mkEdge dest dest]] else [].
Proof.
  destruct (findPaths_top growcap kb dest dest) as (r & h & Hrun).
  rewrite (FindPaths_eq _ _ _ _ _ _ Hrun).
  destruct (size (kbTypes kb) `max` 1) as [|fuel] eqn:Hf; [lia|].
  simpl in Hrun. rewrite decide_True in Hrun by done.
  destruct ((GetEdgeDetails kb dest dest).2); simpl in Hrun.
  - injection Hrun as <- <- _. done.
  - injection Hrun as <- <- _. done.
Qed.

Lemma findPaths_top_good growcap kb source dest r h :
  source ≠ dest →
  findPaths growcap kb dest (size (kbTypes kb) `max` 1) source emptySlice
    ([], ∅) = Some (r, (h, ∅)) →
  Forall (goodIn source dest h) r.
Proof.
  intros Hne Hrun.
  eapply (findPaths_recorded growcap kb source dest) in Hrun
    as (_ & _ & Hgood); [done| | | | | | |].
  - split; [done|by left].
  - set_solver.
  - by right.
  - done.
  - done.
  - apply NoDup_singleton.
  - intros x Hx. apply list_elem_of_singleton in Hx. by left.
Qed.

(** Every path [FindPaths] returns has an edge. *)
Lemma FindPaths_nonempty growcap kb source dest :
  Forall (λ p, 1 ≤ length p) (FindPaths growcap kb source dest).
Proof.
  destruct (decide (source = dest)) as [->|Hne].
  - rewrite FindPaths_self. destruct ((GetEdgeDetails kb dest dest).2);
      repeat constructor.
  - destruct (findPaths_top growcap kb source dest) as (r & h & Hrun).
    rewrite (FindPaths_eq _ _ _ _ _ _ Hrun). apply Forall_fmap.
    eapply Forall_impl; [exact (findPaths_top_good _ _ _ _ _ _ Hne Hrun)|].
    intros f [(_ & _ & _ & Hnil & Hlen) Hwf]. simpl.
    rewrite (length_readSlice _ _ Hwf), <- Hlen.
    destruct (recorded f); [done|simpl; lia].
Qed.

(** C10 (as amended): for every knowledge base and every source and
    destination type [FindPaths] terminates: the search returns once its
    depth budget is at least the number of types of the knowledge base
    (and at least one), with [visited] empty again.  Every path it returns
    has at least one edge.  When the source differs from the destination,
    every path is simple at the moment the search records it: walked
    from the source its edges are connected, it ends at the destination
    and no type occurs twice.  When the source is the destination the
    result is the one self edge if the knowledge base has it, a path in
    which that type occurs twice, and nothing otherwise. *)
Theorem FindPaths_terminates_recording_simple_paths
  (growcap : nat → nat) (kb : EdgeKB) (source dest : GoType) :
  ∃ result h,
    (∀ k, findPaths growcap kb dest (size (kbTypes kb) `max` 1 + k) source
            emptySlice ([], ∅) = Some (result, (h, ∅)))
    ∧ FindPaths growcap kb source dest
      = (λ f, readSlice h (hdr f)) <$> result
    ∧ Forall (λ p, 1 ≤ length p) (FindPaths growcap kb source dest)
    ∧ (source ≠ dest →
       Forall (λ f, simpleWalk source dest (recorded f)) result)
    ∧ (source = dest →
       FindPaths growcap kb source dest
       = if (GetEdgeDetails kb source dest).2
         then [[mkEdge source dest]] else []).
Proof.
  destruct (findPaths_top growcap kb source dest) as (r & h & Hrun).
  exists r, h.
  split; [intros k; by apply findPaths_fuel_add|].
  split; [by apply FindPaths_eq|].
  split; [apply FindPaths_nonempty|]. split.
  - intros Hne.
    eapply Forall_impl; [exact (findPaths_top_good _ _ _ _ _ _ Hne Hrun)|].
    intros f [(Hnd & Hend & Hconn & _) _]. done.
  - intros ->. apply FindPaths_self.
Qed.

(** C10, the claim as stated fails: with a type that may depend on
    itself, [FindPaths] from that type to itself returns the self edge, a
    path in which the type occurs twice. *)
Lemma FindPaths_self_edge_repeats_type :
  ∃ p, p ∈ FindPaths doubling examples.kbSelf "A" "A"
       ∧ ¬ NoDup (pathNodes "A" p).
Proof.
  exists [mkEdge "A" "A"]. split.
  - vm_compute. left.
  - vm_compute. intros Hnd. apply NoDup_cons in Hnd as [Hin _].
    apply Hin. left.
Qed.

(** Beyond the self edge: a path that was simple when recorded is
    overwritten by the appends of later branches that share its backing
    array.  With the runtime's doubling growth, the path recorded as
    n0 ... n5, m, p, D is read by the caller with the edge p -> D twice. *)
Lemma FindPaths_overwritten_path :
  (recorded <$> default []
                  (fst <$> findPaths doubling examples.kbChain "D" 10 "n0"
                             emptySlice ([], ∅))) !! 0
  = Some (mkEdge "n0" "n1" :: mkEdge "n1" "n2" :: mkEdge "n2" "n3"
          :: mkEdge "n3" "n4" :: mkEdge "n4" "n5"
          :: [mkEdge "n5" "m"; mkEdge "m" "p"; mkEdge "p" "D"])
  ∧ FindPaths doubling examples.kbChain "n0" "D" !! 0
  = Some (mkEdge "n0" "n1" :: mkEdge "n1" "n2" :: mkEdge "n2" "n3"
          :: mkEdge "n3" "n4" :: mkEdge "n4" "n5"
          :: [mkEdge "n5" "p"; mkEdge "p" "D"; mkEdge "p" "D"]).
Proof. split; vm_compute; reflexivity. Qed.

End knowledgebase_facts.

(** ** [ExpandEdges]: the paths let through, the path chosen, the errors *)

Module kb_expand_facts.
Import knowledgebase knowledgebase_facts.

Lemma nodeFound_inner res nodes found :
  foldl (λ found node,
           if bool_decide (Source res = TypeOf node)
              || bool_decide (Destination res = TypeOf node)
           then true else found) found nodes = true
  ↔ found = true ∨ ∃ node, node ∈ nodes ∧ touches res node.
Proof.
  revert found. induction nodes as [|n nodes IH]; intros found; simpl.
  - split; [by left|]. intros [?|(? & Hin & _)]; [done|].
    by apply elem_of_nil in Hin.
  - rewrite IH. split.
    + intros [Hf|(node & Hin & Ht)].
      * destruct (_ || _) eqn:Hc; [|by left].
        right. exists n. split; [left|].
        apply orb_prop in Hc as [Hc|Hc]; apply bool_decide_eq_true in Hc;
          [by left|by right].
      * right. exists node. split; [by right|done].
    + intros [->|(node & Hin & Ht)].
      * left. by destruct (_ || _).
      * apply elem_of_cons in Hin as [->|Hin].
        -- left. destruct Ht as [Ht|Ht].
           ++ by rewrite (bool_decide_eq_true_2 _ Ht).
           ++ rewrite (bool_decide_eq_true_2 _ Ht). by rewrite orb_true_r.
        -- right. by exists node.
Qed.

Lemma nodeFound_outer path nodes found :
  foldl (λ found res,
           foldl (λ found node,
                    if bool_decide (Source res = TypeOf node)
                       || bool_decide (Destination res = TypeOf node)
                    then true else found)
                 found nodes)
        found path = true
  ↔ found = true ∨ ∃ res node, res ∈ path ∧ node ∈ nodes ∧ touches res node.
Proof.
  revert found. induction path as [|e path IH]; intros found; simpl.
  - split; [by left|]. intros [?|(? & ? & Hin & _)]; [done|].
    by apply elem_of_nil in Hin.
  - rewrite IH, nodeFound_inner. split.
    + intros [[?|(node & Hin & Ht)]|(res & node & Hin & Hn & Ht)].
      * by left.
      * right. exists e, node. split; [left|done].
      * right. exists res, node. split; [by right|done].
    + intros [?|(res & node & Hin & Hn & Ht)]; [by left; left|].
      apply elem_of_cons in Hin as [->|Hin].
      * left. right. by exists node.
      * right. by exists res, node.
Qed.

(** [nodeFound] says that the path has an edge with an end of the type
    of one of the resources. *)
Lemma nodeFound_spec path nodes :
  nodeFound path nodes = true
  ↔ ∃ res node, res ∈ path ∧ node ∈ nodes ∧ touches res node.
Proof.
  unfold nodeFound. rewrite nodeFound_outer. split; [|by right].
  by intros [?|?].
Qed.

Lemma satisfiesConstraint_spec c path :
  satisfiesConstraint c path = true
  ↔ (∀ mustExist, NodeMustExist c = Some mustExist →
       ∃ res node, res ∈ path ∧ node ∈ mustExist ∧ touches res node)
    ∧ (∀ mustNotExist, NodeMustNotExist c = Some mustNotExist →
       ∀ res node, res ∈ path → node ∈ mustNotExist → ¬ touches res node).
Proof.
  assert (∀ nodes, negb (nodeFound path nodes) = true
          ↔ ∀ res node, res ∈ path → node ∈ nodes → ¬ touches res node)
    as Hneg.
  { intros nodes. rewrite negb_true_iff, <- not_true_iff_false, nodeFound_spec.
    split.
    - intros Hno res node Hr Hn Ht. apply Hno. by exists res, node.
    - intros Hall (res & node & Hr & Hn & Ht). by eapply Hall. }
  unfold satisfiesConstraint.
  destruct (NodeMustExist c) as [must|], (NodeMustNotExist c) as [mustNot|].
  - destruct (nodeFound path must) eqn:Hf; simpl.
    + rewrite Hneg. apply nodeFound_spec in Hf. split.
      * intros Hall. split; intros ? [= <-]; done.
      * intros [_ Hall]. by apply Hall.
    + split; [done|]. intros [Hex _].
      destruct (Hex must eq_refl) as (res & node & ? & ? & ?).
      assert (nodeFound path must = true) by (apply nodeFound_spec; eauto).
      congruence.
  - destruct (nodeFound path must) eqn:Hf; simpl.
    + apply nodeFound_spec in Hf. split; [|done].
      intros _. split; [by intros ? [= <-]|done].
    + split; [done|]. intros [Hex _].
      destruct (Hex must eq_refl) as (res & node & ? & ? & ?).
      assert (nodeFound path must = true) by (apply nodeFound_spec; eauto).
      congruence.
  - rewrite Hneg. split.
    + intros Hall. split; [done|]. by intros ? [= <-].
    + intros [_ Hall]. by apply Hall.
  - split; [|done]. intros _. split; done.
Qed.


Lemma Append_prefix merr err : merr `prefix_of` multierr.Append merr err.
Proof. destruct err; simpl; [by apply prefix_app_r|done]. Qed.

(** The loop of [choosePath] once it holds a path of least length:
    it keeps it, and records an error for every path of that length. *)
Lemma choosePath_keeps src dst all (p : Path) merr (l : list Path) :
  length p ≠ 0 → Forall (λ x, length p ≤ length x) l →
  ∃ merr', foldl (chooseStep src dst all) (p, merr) l = (p, merr')
    ∧ merr `prefix_of` merr'
    ∧ (Exists (λ q, length q = length p) l →
       ErrMultiplePaths src dst (showPaths all) ∈ merr').
Proof.
  intros Hp Hall. revert merr.
  induction Hall as [|x l Hx Hall IH]; intros merr; simpl.
  - exists merr. split; [done|]. split; [done|]. by intros ?%Exists_nil.
  - rewrite decide_False by done. rewrite decide_False by lia.
    destruct (decide (length x = length p)) as [Heq|Hne].
    + destruct (IH (multierr.Append merr
                      (Some (ErrMultiplePaths src dst (showPaths all)))))
        as (merr' & Hrun & Hpre & _).
      exists merr'. split; [done|]. split.
      * etrans; [|exact Hpre]. apply Append_prefix.
      * intros _. eapply elem_of_prefix; [|exact Hpre].
        simpl. apply elem_of_app. right. left.
    + destruct (IH merr) as (merr' & Hrun & Hpre & Hex).
      exists merr'. split; [done|]. split; [done|].
      intros [?|?]%Exists_cons; [done|by apply Hex].
Qed.

(** The loop of [choosePath] before it meets a path of least length:
    it holds no path yet or a longer one. *)
Lemma choosePath_before src dst all (p : Path) merr (l : list Path) :
  Forall (λ x, length p < length x) l →
  ∀ v : Path, (length v = 0 ∨ length p < length v) →
  ∃ v' merr', foldl (chooseStep src dst all) (v, merr) l = (v', merr')
    ∧ merr `prefix_of` merr' ∧ (length v' = 0 ∨ length p < length v').
Proof.
  intros Hall. revert merr.
  induction Hall as [|x l Hx Hall IH]; intros merr v Hv; simpl.
  - exists v, merr. done.
  - destruct (decide (length v = 0)) as [Hz|Hnz].
    { destruct (IH merr x) as (v' & merr' & ? & ? & ?); [by right|].
      exists v', merr'. done. }
    destruct (decide (length x < length v)).
    { destruct (IH merr x) as (v' & merr' & ? & ? & ?); [by right|].
      exists v', merr'. done. }
    destruct (decide (length x = length v)).
    + destruct (IH (multierr.Append merr
                      (Some (ErrMultiplePaths src dst (showPaths all)))) v)
        as (v' & merr' & ? & Hpre & ?); [done|].
      exists v', merr'. split; [done|]. split; [|done].
      etrans; [|exact Hpre]. apply Append_prefix.
    + destruct (IH merr v) as (v' & merr' & ? & ? & ?); [done|].
      exists v', merr'. done.
Qed.

(** [choosePath] takes the first of the paths of least length, keeps the
    errors it was handed, and records that several paths were found when
    a later path has the same length. *)
Lemma choosePath_first_shortest src dst merr (l1 : list Path) p l2 :
  length p ≠ 0 →
  Forall (λ x, length p < length x) l1 →
  Forall (λ x, length p ≤ length x) l2 →
  ∃ merr', choosePath src dst (l1 ++ p :: l2) merr = (p, merr')
    ∧ merr `prefix_of` merr'
    ∧ (Exists (λ q, length q = length p) l2 →
       ErrMultiplePaths src dst (showPaths (l1 ++ p :: l2)) ∈ merr').
Proof.
  intros Hp H1 H2. unfold choosePath. rewrite foldl_app. simpl.
  destruct (choosePath_before src dst (l1 ++ p :: l2) p merr l1 H1 [])
    as (v & merr1 & -> & Hpre1 & Hv); [by left|].
  assert (chooseStep src dst (l1 ++ p :: l2) (v, merr1) p = (p, merr1)) as ->.
  { unfold chooseStep. destruct (decide (length v = 0)); [done|].
    rewrite decide_True; [done|]. destruct Hv; [done|lia]. }
  destruct (choosePath_keeps src dst (l1 ++ p :: l2) p merr1 l2 Hp H2)
    as (merr' & -> & Hpre2 & Hex).
  exists merr'. split; [done|]. split; [by etrans|done].
Qed.

Lemma choosePath_nil src dst merr : choosePath src dst [] merr = ([], merr).
Proof. done. Qed.

Lemma chooseStep_prefix src dst all st (path : Path) :
  st.2 `prefix_of` (chooseStep src dst all st path).2.
Proof.
  destruct st as [v merr]. unfold chooseStep. simpl.
  repeat case_decide; simpl; try done. by apply prefix_app_r.
Qed.

Lemma foldl_prefix {S A} (errsOf : S → multierr.Error) (step : S → A → S) l :
  (∀ st x, errsOf st `prefix_of` errsOf (step st x)) →
  ∀ st, errsOf st `prefix_of` errsOf (foldl step st l).
Proof.
  intros Hstep. induction l as [|x l IH]; intros st; simpl; [done|].
  etrans; [apply Hstep|apply IH].
Qed.

Lemma choosePath_prefix src dst (l : list Path) merr :
  merr `prefix_of` (choosePath src dst l merr).2.
Proof.
  unfold choosePath.
  apply (foldl_prefix snd (chooseStep src dst l) l (chooseStep_prefix _ _ _)
           ([], merr)).
Qed.

Lemma edgeDataOf_prefix appName dep merr :
  merr `prefix_of` (edgeDataOf appName dep merr).2.
Proof.
  unfold edgeDataOf. destruct (core.Data dep); simpl; try done.
  by apply prefix_app_r.
Qed.

Lemma edgeDataOf_Constraint appName dep merr d :
  core.Data dep = AnyEdgeData d →
  Constraint (edgeDataOf appName dep merr).1 = Constraint d.
Proof. intros Hd. unfold edgeDataOf. by rewrite Hd. Qed.

Section expand.
Variable growcap : nat → nat.
Variable newResource : GoType → Resource.
Variable kb : EdgeKB.

Lemma expandPathEdge_prefix dep edgeData st edge :
  st.1.2 `prefix_of` (expandPathEdge newResource kb dep edgeData st edge).1.2.
Proof.
  destruct st as [[dag merr] cache]. unfold expandPathEdge. simpl.
  destruct (ExpansionFunc _) as [f|]; [|done].
  destruct (f _ _ _ _) as [[[s d] g] err]. simpl. apply Append_prefix.
Qed.

Lemma expandAlong_prefix dep edgeData dag merr (validPath : Path) :
  merr `prefix_of` (expandAlong newResource kb dep edgeData dag merr validPath).2.
Proof.
  unfold expandAlong.
  destruct (if decide (1 < length validPath) then _ else _) as [dag1 [err|]].
  - simpl. by apply prefix_app_r.
  - pose proof (foldl_prefix (λ st, st.1.2)
      (expandPathEdge newResource kb dep edgeData) validPath
      (expandPathEdge_prefix dep edgeData) (dag1, merr, ∅)) as Hpre.
    destruct (foldl _ _ validPath) as [[dag2 merr2] cache]. done.
Qed.

Lemma expandDependency_prefix appName st dep :
  st.2 `prefix_of` (expandDependency growcap newResource kb appName st dep).2.
Proof.
  destruct st as [dag merr]. unfold expandDependency. simpl.
  pose proof (edgeDataOf_prefix appName dep merr) as H1.
  destruct (edgeDataOf appName dep merr) as [edgeData merr1]. simpl in H1.
  pose proof (choosePath_prefix (Id (core.Source dep)) (Id (core.Destination dep))
                (validPathsFor growcap kb dep edgeData) merr1) as H2.
  destruct (choosePath _ _ _ merr1) as [validPath merr2]. simpl in H2.
  case_decide.
  - simpl. etrans; [exact H1|]. etrans; [exact H2|]. by apply prefix_app_r.
  - etrans; [exact H1|]. etrans; [exact H2|]. apply expandAlong_prefix.
Qed.

Lemma validPathsFor_nonempty dep edgeData :
  Forall (λ p, length p ≠ 0) (validPathsFor growcap kb dep edgeData).
Proof.
  unfold validPathsFor, validPathsOf. apply Forall_forall. intros p Hp.
  apply list_elem_of_filter in Hp as [_ Hp].
  pose proof (FindPaths_nonempty growcap kb (TypeOf (core.Source dep))
                (TypeOf (core.Destination dep))) as Hne.
  rewrite Forall_forall in Hne. specialize (Hne p Hp). lia.
Qed.

(** C4: for each dependency [ExpandEdges] processes:
    when no path of the knowledge base passes the constraints of the edge,
    the error that names the two ends of the dependency is recorded, the
    graph is left as it is, and the loop goes on from there;
    when the paths that pass are [l1 ++ p :: l2] with [p] the first of
    least length and a later path as short, the error of the several
    paths is recorded and it is [p] that is expanded;
    whatever has been recorded while the dependencies up to one were
    processed is among the errors [ExpandEdges] returns. *)
Theorem ExpandEdges_records_path_errors (appName : string) :
  (∀ dag merr dep,
     validPathsFor growcap kb dep (edgeDataOf appName dep merr).1 = [] →
     expandDependency growcap newResource kb appName (dag, merr) dep
     = (dag, (edgeDataOf appName dep merr).2
             ++ [ErrNoPaths (Id (core.Source dep)) (Id (core.Destination dep)) []]))
  ∧ (∀ dag deps1 dep deps2,
       foldl (expandDependency growcap newResource kb appName) (dag, [])
         (deps1 ++ dep :: deps2)
       = foldl (expandDependency growcap newResource kb appName)
           (expandDependency growcap newResource kb appName
              (foldl (expandDependency growcap newResource kb appName)
                 (dag, []) deps1) dep)
           deps2)
  ∧ (∀ dag merr dep l1 p l2,
       validPathsFor growcap kb dep (edgeDataOf appName dep merr).1
       = l1 ++ p :: l2 →
       Forall (λ x, length p < length x) l1 →
       Forall (λ x, length p ≤ length x) l2 →
       Exists (λ q, length q = length p) l2 →
       ∃ merr',
         ErrMultiplePaths (Id (core.Source dep)) (Id (core.Destination dep))
           (showPaths (l1 ++ p :: l2)) ∈ merr'
         ∧ expandDependency growcap newResource kb appName (dag, merr) dep
           = expandAlong newResource kb dep (edgeDataOf appName dep merr).1
               dag merr' p
         ∧ merr' `prefix_of`
             (expandDependency growcap newResource kb appName (dag, merr) dep).2)
  ∧ (∀ dag deps1 deps2 err,
       core.ListDependencies dag = deps1 ++ deps2 →
       err ∈ (foldl (expandDependency growcap newResource kb appName)
                (dag, []) deps1).2 →
       ∃ errs,
         (ExpandEdges growcap newResource kb dag appName).2 = Some (Joined errs)
         ∧ err ∈ errs).
Proof.
  split; [|split; [|split]].
  - intros dag merr dep Hnone. unfold expandDependency.
    destruct (edgeDataOf appName dep merr) as [edgeData merr1]. simpl in *.
    rewrite Hnone. by rewrite choosePath_nil.
  - intros dag deps1 dep deps2. by rewrite foldl_app.
  - intros dag merr dep l1 p l2 Hvalid H1 H2 Hex.
    pose proof (validPathsFor_nonempty dep (edgeDataOf appName dep merr).1)
      as Hne.
    rewrite Hvalid in Hne. apply Forall_app in Hne as [_ Hne].
    apply Forall_cons in Hne as [Hp _].
    destruct (choosePath_first_shortest (Id (core.Source dep))
                (Id (core.Destination dep)) (edgeDataOf appName dep merr).2
                l1 p l2 Hp H1 H2) as (merr' & Hch & Hpre & Herr).
    exists merr'. split; [by apply Herr|].
    assert (expandDependency growcap newResource kb appName (dag, merr) dep
            = expandAlong newResource kb dep (edgeDataOf appName dep merr).1
                dag merr' p) as Heq.
    { unfold expandDependency.
      destruct (edgeDataOf appName dep merr) as [edgeData merr1]. simpl in *.
      rewrite Hvalid, Hch. by rewrite decide_False. }
    split; [done|]. rewrite Heq. apply expandAlong_prefix.
  - intros dag deps1 deps2 err Hdeps Hin. unfold ExpandEdges.
    rewrite Hdeps, foldl_app.
    pose proof (foldl_prefix snd
      (expandDependency growcap newResource kb appName) deps2
      (expandDependency_prefix appName)
      (foldl (expandDependency growcap newResource kb appName) (dag, []) deps1))
      as Hpre.
    destruct (foldl _ (foldl _ _ deps1) deps2) as [dag' merr'] eqn:Hrun.
    simpl in *. assert (err ∈ merr') as Hin' by (by eapply elem_of_prefix).
    destruct merr' as [|e0 merr']; [by apply elem_of_nil in Hin'|].
    simpl. eauto.
Qed.

End expand.

Import examples.

(** On the graph api -> db: with an empty knowledge base [ExpandEdges]
    returns the error of the edge without paths; with two routes of the
    same length it returns the error of the several paths, and the direct
    edge is gone from the graph, the first route having been expanded. *)
Lemma ExpandEdges_on_api_to_db :
  (ExpandEdges doubling zeroResource ∅ working "app").2
  = Some (Joined [ErrNoPaths apiId dbId []])
  ∧ (ExpandEdges doubling zeroResource kbTie working "app").2
    = Some (Joined [ErrMultiplePaths apiId dbId
                      (showPaths (FindPaths doubling kbTie "lambda_function"
                                    "rds_instance"))])
  ∧ length (FindPaths doubling kbTie "lambda_function" "rds_instance") = 2
  ∧ core.HasDependency
      (ExpandEdges doubling zeroResource kbTie working "app").1 apiId dbId
    = false.
Proof. repeat split; vm_compute; reflexivity. Qed.

End kb_expand_facts.

(** ** Edge constraints, from the engine to the expansion *)

Module engine_facts.
Import knowledgebase knowledgebase_facts kb_expand_facts.

(** C3: when [handleEdgeConstainConstraint] succeeds on a [MustContain]
    (or [MustNotContain]) constraint, the target edge of the working state
    carries edge data whose [NodeMustExist] (or [NodeMustNotExist]) list is
    the list it had with the resource of the constraint's node appended
    and whose other list is unchanged; and edge expansion, on a dependency
    that carries this data, lets through only paths of the knowledge base
    that have an edge with an end of the type of some [NodeMustExist]
    resource, when that list is set, and no edge with an end of the type
    of any [NodeMustNotExist] resource. *)
Theorem handleEdgeConstainConstraint_constrains_expansion
  (e e' : engine.Engine) (c : constraints.EdgeConstraint) :
  constraints.Operator c = constraints.MustContainConstraintOperator
  ∨ constraints.Operator c = constraints.MustNotContainConstraintOperator →
  engine.handleEdgeConstainConstraint e c = (e', None) →
  ∃ resource new,
    engine.CreateResourceFromId
      (engine.Providers e (core.Provider (constraints.Node c)))
      (constraints.Node c) (engine.WorkingState (engine.Context e))
    = Ok resource
    ∧ core.GetDependency (engine.WorkingState (engine.Context e'))
        (constraints.Source (constraints.EdgeTarget c))
        (constraints.Target (constraints.EdgeTarget c))
      = Some (AnyEdgeData new)
    ∧ (constraints.Operator c = constraints.MustContainConstraintOperator →
       NodeMustExist (Constraint new)
       = Some (default [] (NodeMustExist (Constraint (engine.dataBefore e c)))
               ++ [resource])
       ∧ NodeMustNotExist (Constraint new)
         = NodeMustNotExist (Constraint (engine.dataBefore e c)))
    ∧ (constraints.Operator c = constraints.MustNotContainConstraintOperator →
       NodeMustNotExist (Constraint new)
       = Some (default [] (NodeMustNotExist (Constraint (engine.dataBefore e c)))
               ++ [resource])
       ∧ NodeMustExist (Constraint new)
         = NodeMustExist (Constraint (engine.dataBefore e c)))
    ∧ ∀ growcap kb appName dep merr path,
        core.Data dep = AnyEdgeData new →
        path ∈ validPathsFor growcap kb dep (edgeDataOf appName dep merr).1 →
        (∀ mustExist, NodeMustExist (Constraint new) = Some mustExist →
           ∃ res node, res ∈ path ∧ node ∈ mustExist
                       ∧ (Source res = TypeOf node ∨ Destination res = TypeOf node))
        ∧ (∀ mustNotExist, NodeMustNotExist (Constraint new) = Some mustNotExist →
           ∀ res node, res ∈ path → node ∈ mustNotExist →
                       Source res ≠ TypeOf node ∧ Destination res ≠ TypeOf node).
Proof.
  intros Hop Hrun. unfold engine.handleEdgeConstainConstraint in Hrun.
  destruct (engine.CreateResourceFromId _ _ _) as [resource|err] eqn:Hcreate;
    [|done].
  exists resource.
  assert (∀ new,
    ∀ growcap kb appName dep merr path,
      core.Data dep = AnyEdgeData new →
      path ∈ validPathsFor growcap kb dep (edgeDataOf appName dep merr).1 →
      (∀ mustExist, NodeMustExist (Constraint new) = Some mustExist →
         ∃ res node, res ∈ path ∧ node ∈ mustExist
                     ∧ (Source res = TypeOf node ∨ Destination res = TypeOf node))
      ∧ (∀ mustNotExist, NodeMustNotExist (Constraint new) = Some mustNotExist →
         ∀ res node, res ∈ path → node ∈ mustNotExist →
                     Source res ≠ TypeOf node ∧ Destination res ≠ TypeOf node))
    as Hfilter.
  { intros new growcap kb appName dep merr path Hdata Hin.
    unfold validPathsFor, validPathsOf in Hin.
    apply list_elem_of_filter in Hin as [Hsat _].
    rewrite (edgeDataOf_Constraint _ _ _ _ Hdata) in Hsat.
    apply satisfiesConstraint_spec in Hsat as [Hex Hnot].
    split; [exact Hex|].
    intros mustNot Hm res node Hres Hnode.
    specialize (Hnot mustNot Hm res node Hres Hnode).
    unfold touches in Hnot. tauto. }
  unfold engine.dataBefore.
  destruct (core.GetDependency _ _ _) as [[|d|]|] eqn:Hdep; simpl in Hrun;
    try done.
  - (* the edge is there and carries no data *)
    injection Hrun as <-. eexists. split; [done|].
    split; [apply lookup_insert_eq|]. split; [|split; [|apply Hfilter]];
      intros Hc; rewrite Hc; simpl; done.
  - (* the edge is there and carries edge data *)
    injection Hrun as <-. eexists. split; [done|].
    split; [apply lookup_insert_eq|]. split; [|split; [|apply Hfilter]];
      intros Hc; rewrite Hc; simpl; done.
  - (* the edge is not there *)
    destruct Hop as [Hop|Hop]; rewrite Hop in Hrun; simpl in Hrun;
      injection Hrun as <-; eexists; (split; [done|]);
      (split; [apply lookup_insert_eq|]);
      (split; [|split; [|apply Hfilter]]);
      intros Hc; rewrite Hc in Hop; done.
Qed.

End engine_facts.

(** ** [SolveGraph] and [Run] *)

Module solve_facts.
Import knowledgebase engine.

Lemma errors_Join_snoc o e1 : ∃ j, errors_Join [o; Some e1] = Some j.
Proof. destruct o; unfold errors_Join; simpl; eauto. Qed.

Lemma joinAll_nonempty errs : errs ≠ [] → ∃ joined, joinAll errs = Some joined.
Proof.
  unfold joinAll.
  assert (∀ (l : list error) o, is_Some o ∨ l ≠ [] →
    is_Some (foldl (λ joinedErr err, errors_Join [joinedErr; Some err]) o l))
    as Hfold.
  { induction l as [|x l IH]; intros o Ho; simpl.
    - by destruct Ho.
    - apply IH. left. destruct (errors_Join_snoc o x) as [j ->]. done. }
  intros Hne. destruct (Hfold errs None) as [j Hj]; [by right|]. eauto.
Qed.

Section solve.
Variable expandEdges : Engine → ResourceGraph → ResourceGraph * option error.
Variable ConfigureEdge :
  EdgeKB → Dependency → ResourceGraph → ResourceGraph * option error.
Variable MakeResourcesOperational :
  Engine → ResourceGraph → ResourceGraph * result (gmap ResourceId bool).
Variable IsSatisfied :
  constraints.Constraint → ResourceGraph → EdgeKB
  → gmap ResourceId (list Resource) → bool.
Variable ApplyApplicationConstraint :
  Engine → constraints.Constraint → Engine * option error.
Variable ExpandConstructs : Engine → Engine * option error.
Variable implementsResource : GoType → bool.

Abbreviation iteration :=
  (iteration expandEdges ConfigureEdge MakeResourcesOperational IsSatisfied).
Abbreviation solveLoop :=
  (solveLoop expandEdges ConfigureEdge MakeResourcesOperational IsSatisfied).
Abbreviation solve :=
  (solve expandEdges ConfigureEdge MakeResourcesOperational IsSatisfied).
Abbreviation SolveGraph :=
  (SolveGraph expandEdges ConfigureEdge MakeResourcesOperational IsSatisfied).
Abbreviation solveContext :=
  (solveContext expandEdges ConfigureEdge MakeResourcesOperational IsSatisfied).
Abbreviation solveContexts :=
  (solveContexts expandEdges ConfigureEdge MakeResourcesOperational IsSatisfied).
Abbreviation prepare :=
  (prepare ApplyApplicationConstraint ExpandConstructs implementsResource).
Abbreviation Run :=
  (Run expandEdges ConfigureEdge MakeResourcesOperational IsSatisfied
     ApplyApplicationConstraint ExpandConstructs implementsResource).

(** The loop begins at most [todo] iterations. *)
Lemma solveLoop_iterations e context todo i st :
  i < iterations (solveLoop e context (S todo) i st) ≤ i + S todo.
Proof.
  revert i st. induction todo as [|todo IH]; intros i st.
  - simpl. destruct (iteration e context i st) as [st' []]; simpl; lia.
  - remember (S todo) as n. simpl.
    destruct (iteration e context i st) as [st' []]; simpl; try lia.
    subst n. specialize (IH (S i) st'). lia.
Qed.

Lemma solve_iterations e context :
  1 ≤ iterations (solve e context) ≤ NUM_LOOPS.
Proof.
  unfold solve, NUM_LOOPS.
  pose proof (solveLoop_iterations e context 4 0
                (mkSolveState (ResourceGraph_ context) ∅ ∅)). lia.
Qed.

(** An iteration that breaks has recorded no error; one that returns an
    error is the last one. *)
Lemma iteration_flow e context i st st' f :
  iteration e context i st = (st', f) →
  match f with
  | Break => default [] (errorMap st' !! i) = []
  | Return err =>
      i = NUM_LOOPS - 1
      ∧ ((∃ cs, cs ≠ [] ∧ err = ErrUnsatisfiedConstraints cs)
         ∨ (∃ errs joined,
              errorMap st' !! i = Some errs ∧ errs ≠ []
              ∧ joinAll errs = Some joined ∧ err = ErrGraphSolving joined))
  | Continue => True
  end.
Proof.
  unfold iteration.
  destruct (expandEdges e (graph st)) as [g err].
  destruct (MakeResourcesOperational e _) as [g' [operational|err']].
  2:{ intros [= <- <-]. done. }
  destruct (_ && _) eqn:Hc.
  - intros [= <- <-]. apply andb_prop in Hc as [Hu Hi].
    apply bool_decide_eq_true in Hu, Hi. split; [done|]. left.
    eexists. split; [|done]. intros Hnil. rewrite Hnil in Hu. simpl in Hu. lia.
  - destruct (decide (length _ = 0)) as [Hlen|Hlen].
    + intros [= <- <-]. simpl. by apply nil_length_inv.
    + destruct (decide (i = NUM_LOOPS - 1)) as [Hi|Hi]; intros [= <- <-];
        [|done].
      split; [done|]. right.
      simpl. destruct (foldl _ _ _ !! i) as [errs|] eqn:Hem; [|done].
      simpl in *. exists errs.
      assert (errs ≠ []) as Hne by (intros ->; done).
      destruct (joinAll_nonempty errs Hne) as [joined Hj].
      exists joined. rewrite Hj. done.
Qed.


(** The loop as a whole: an error comes out of the last iteration only,
    and it is made of the constraints that iteration found unsatisfied or
    of the errors it recorded. *)
Lemma solveLoop_error e context todo i st err :
  i + todo = NUM_LOOPS →
  solvedErr (solveLoop e context todo i st) = Some err →
  iterations (solveLoop e context todo i st) = NUM_LOOPS
  ∧ ((∃ cs, cs ≠ [] ∧ err = ErrUnsatisfiedConstraints cs)
     ∨ (∃ errs joined,
          finalErrorMap (solveLoop e context todo i st) !! (NUM_LOOPS - 1)
          = Some errs
          ∧ errs ≠ [] ∧ joinAll errs = Some joined
          ∧ err = ErrGraphSolving joined)).
Proof.
  revert i st. induction todo as [|todo IH]; intros i st Hi; simpl; [done|].
  destruct (iteration e context i st) as [st' f] eqn:Hit.
  pose proof (iteration_flow _ _ _ _ _ _ Hit) as Hflow.
  destruct f as [| |err']; simpl.
  - apply IH. lia.
  - done.
  - intros [= ->]. destruct Hflow as [-> Hflow]. split; [done|].
    destruct Hflow as [?|(errs & joined & ? & ? & ? & ?)]; [by left|].
    right. by exists errs, joined.
Qed.

(** The first iteration that ends with [break] ends the call, with
    success, and it has recorded no error. *)
Lemma solveLoop_break e context todo i st st' :
  iteration e context i st = (st', Break) →
  solveLoop e context (S todo) i st
  = mkSolved (graph st') None (errorMap st') (S i)
  ∧ default [] (errorMap st' !! i) = [].
Proof.
  intros Hit. simpl. rewrite Hit. split; [done|].
  exact (iteration_flow _ _ _ _ _ _ Hit).
Qed.

(** When [MakeResourcesOperational] fails, the iteration records its
    error and goes on to the next index. *)
Lemma iteration_not_operational e context i st :
  (∀ g, ∃ g' err, MakeResourcesOperational e g = (g', Err err)) →
  ∃ st' errs, iteration e context i st = (st', Continue)
    ∧ errorMap st' !! i = Some errs ∧ errs ≠ [].
Proof.
  intros Hfail. unfold iteration.
  destruct (expandEdges e (graph st)) as [g err].
  match goal with |- context [MakeResourcesOperational e ?g0] =>
    destruct (Hfail g0) as (g' & err' & ->) end.
  eexists _, _. split; [done|]. simpl. unfold record.
  rewrite lookup_insert_eq. split; [done|].
  intros Hnil. by apply app_nil in Hnil as [_ ?].
Qed.

Lemma solveLoop_not_operational e context todo i st :
  (∀ g, ∃ g' err, MakeResourcesOperational e g = (g', Err err)) →
  solvedErr (solveLoop e context (S todo) i st) = None
  ∧ iterations (solveLoop e context (S todo) i st) = i + S todo
  ∧ ∃ errs, finalErrorMap (solveLoop e context (S todo) i st) !! (i + todo)
            = Some errs ∧ errs ≠ [].
Proof.
  intros Hfail. revert i st. induction todo as [|todo IH]; intros i st.
  - destruct (iteration_not_operational e context i st Hfail)
      as (st' & errs & Hit & Hem & Hne).
    simpl. rewrite Hit. simpl. split; [done|]. split; [lia|].
    rewrite Nat.add_0_r. eauto.
  - destruct (iteration_not_operational e context i st Hfail)
      as (st' & errs & Hit & Hem & Hne).
    remember (S todo) as n. simpl. rewrite Hit. subst n.
    destruct (IH (S i) st') as (He & Hn & Herrs).
    split; [done|]. split; [lia|].
    replace (i + S todo) with (S i + todo) by lia. done.
Qed.

(** C2, where the code departs from the claim: when
    [MakeResourcesOperational] fails in every iteration, and so in the
    last one, [SolveGraph] runs its five iterations, the last of them
    records an error, and the call returns no error. *)
Theorem SolveGraph_returns_nil_after_failing_last_iteration
  (e : Engine) (context : SolveContext) :
  (∀ g, ∃ g' err, MakeResourcesOperational e g = (g', Err err)) →
  (SolveGraph e context).2 = None
  ∧ iterations (solve e context) = 5
  ∧ ∃ errs, finalErrorMap (solve e context) !! 4 = Some errs ∧ errs ≠ [].
Proof.
  intros Hfail. unfold SolveGraph, solve, NUM_LOOPS. simpl fst. simpl snd.
  exact (solveLoop_not_operational e context 4 0 _ Hfail).
Qed.

(** C8 (as amended): the bound on the iterations of [SolveGraph] is the
    constant 5 whatever the environment holds: in two processes that
    differ in their environment only, the call does the same, and it
    begins at least one and at most five iterations. *)
Theorem SolveGraph_bound_is_fixed
  (environ environ' : gmap string string) (e : Engine)
  (context : SolveContext) :
  SolveGraphIn expandEdges ConfigureEdge MakeResourcesOperational IsSatisfied
    environ e context
  = SolveGraphIn expandEdges ConfigureEdge MakeResourcesOperational IsSatisfied
      environ' e context
  ∧ 1 ≤ iterations
          (SolveGraphIn expandEdges ConfigureEdge MakeResourcesOperational
             IsSatisfied environ e context) ≤ 5.
Proof. split; [done|]. apply solve_iterations. Qed.

(** ** [Run] *)

(** One turn of the loop over the contexts. *)
Lemma solveContext_step e n calls context :
  solveContext (e, n, calls) context
  = (match Solution (Context e) with
     | None => withSolution e (Some (SolveGraph e context).1)
     | Some _ => e
     end,
     S n,
     calls ++ [mkSolveCall e context (SolveGraph e context).1
                 (SolveGraph e context).2]).
Proof.
  unfold engine.solveContext.
  by destruct (engine.SolveGraph _ _ _ _ e context) as [solution err].
Qed.

(** Once a solution is set, the loop over the contexts keeps it. *)
Lemma solveContexts_keeps contexts : ∀ e n calls g,
  Solution (Context e) = Some g →
  Solution (Context (foldl solveContext (e, n, calls) contexts).1.1) = Some g.
Proof.
  induction contexts as [|context contexts IH]; intros e n calls g Hs;
    [done|].
  cbn [foldl]. rewrite solveContext_step, Hs. by apply IH.
Qed.

(** The count [Run] logs is the number of the contexts, whatever their
    solves returned. *)
Lemma solveContexts_count contexts : ∀ e n calls,
  (foldl solveContext (e, n, calls) contexts).1.2 = n + length contexts.
Proof.
  induction contexts as [|context contexts IH]; intros e n calls;
    [simpl; lia|].
  cbn [foldl]. rewrite solveContext_step, IH. simpl. lia.
Qed.

Lemma withSolution_same e : withSolution e (Solution (Context e)) = e.
Proof. by destruct e as [p kb []]. Qed.

(** The calls of the loop: one per context, in order, each on the engine
    as it stands, which differs from the engine the loop began with in
    its solution at most. *)
Lemma solveContexts_calls contexts : ∀ e0 e n calls,
  (∃ s, e = withSolution e0 s) →
  Forall (λ c, SolveGraph (callEngine c) (callContext c)
               = (callGraph c, callErr c)
               ∧ ∃ s, callEngine c = withSolution e0 s) calls →
  callContext <$> (foldl solveContext (e, n, calls) contexts).2
  = (callContext <$> calls) ++ contexts
  ∧ Forall (λ c, SolveGraph (callEngine c) (callContext c)
                 = (callGraph c, callErr c)
                 ∧ ∃ s, callEngine c = withSolution e0 s)
      (foldl solveContext (e, n, calls) contexts).2
  ∧ calls `prefix_of` (foldl solveContext (e, n, calls) contexts).2.
Proof.
  induction contexts as [|context contexts IH]; intros e0 e n calls He Hcalls.
  - simpl. rewrite app_nil_r. done.
  - cbn [foldl]. rewrite solveContext_step.
    match goal with |- context [foldl _ (?e1, _, ?calls1) _] =>
      destruct (IH e0 e1 (S n) calls1) as (Hctx & Hall & Hpre) end.
    + destruct He as [s ->]. destruct (Solution _); simpl; eauto.
    + apply Forall_app. split; [done|]. apply Forall_singleton.
      split; [apply surjective_pairing|exact He].
    + split; [|split; [done|]].
      * rewrite Hctx, fmap_app. simpl. by rewrite <- app_assoc.
      * etrans; [|exact Hpre]. by apply prefix_app_r.
Qed.

(** When the first call succeeded, or no call did, the graph the
    specification names is that of the first call. *)
Lemma firstSolvedGraph_first first rest :
  callErr first = None ∨ Forall (λ c, is_Some (callErr c)) (first :: rest) →
  firstSolvedGraph (first :: rest) = Some (callGraph first).
Proof.
  intros [Hnone|Hall]; unfold firstSolvedGraph.
  - rewrite filter_cons. by rewrite decide_True.
  - assert (filter (λ c, callErr c = None) (first :: rest) = []) as ->; [|done].
    induction Hall as [|c calls [err Herr] _ IH]; [done|].
    rewrite filter_cons, decide_False; [done|]. by rewrite Herr.
Qed.

(** C1 (as amended): once the constraints are applied and the contexts
    generated, [Run] calls [SolveGraph] on the generated contexts, once
    each and in order, the first call being on the engine as the
    preparation left it and the later ones on that engine with the
    solution set; it returns no error, whatever these calls returned: it
    has no path on which the diagnostics of a solve are returned.  When
    the first call succeeds, and when no call succeeds, the graph [Run]
    returns is the graph the specification names, [firstSolvedGraph] of
    the calls, which is then the graph the first call returned (no
    solution being set before). *)
Theorem Run_returns_first_solved_context
  (e e' : Engine) (contexts : list SolveContext) :
  prepare e = (e', Ok contexts) →
  ranErr (Run e) = None
  ∧ callContext <$> ranCalls (Run e) = contexts
  ∧ Forall (λ c, SolveGraph (callEngine c) (callContext c)
                 = (callGraph c, callErr c)
                 ∧ ∃ s, callEngine c = withSolution e' s)
      (ranCalls (Run e))
  ∧ (∀ first rest,
       ranCalls (Run e) = first :: rest →
       callEngine first = e'
       ∧ (Solution (Context e') = None →
          callErr first = None
          ∨ Forall (λ c, is_Some (callErr c)) (first :: rest) →
          ranGraph (Run e) = firstSolvedGraph (ranCalls (Run e))
          ∧ ranGraph (Run e) = Some (callGraph first))).
Proof.
  intros Hprep. unfold engine.Run. rewrite Hprep.
  unfold engine.solveContexts.
  destruct (solveContexts_calls contexts e' e' 0 [])
    as (Hctx & Hall & _); [|done|].
  { exists (Solution (Context e')). by rewrite withSolution_same. }
  destruct (foldl solveContext (e', 0, []) contexts) as [[e2 n] calls] eqn:Hrun.
  simpl in *. split; [done|]. split; [done|]. split; [done|].
  intros first rest ->.
  destruct contexts as [|context contexts]; [done|].
  cbn [foldl] in Hrun. rewrite solveContext_step in Hrun.
  match type of Hrun with foldl _ (?e1, _, ?calls1) _ = _ =>
    destruct (solveContexts_calls contexts e' e1 1 calls1) as (_ & _ & Hpre)
  end.
  { destruct (Solution (Context e')) eqn:Hs; [|eauto].
    exists (Solution (Context e')). by rewrite withSolution_same. }
  { apply Forall_singleton. split; [apply surjective_pairing|].
    exists (Solution (Context e')). by rewrite withSolution_same. }
  rewrite Hrun in Hpre. destruct Hpre as [k Hk]. injection Hk as -> _.
  split; [done|]. intros Hnone Hfirst. rewrite Hnone in Hrun.
  match type of Hrun with foldl _ (?e1, _, ?calls1) _ = _ =>
    pose proof (solveContexts_keeps contexts e1 1 calls1 _ eq_refl) as Hkeep
  end.
  rewrite Hrun in Hkeep. simpl in Hkeep.
  rewrite (firstSolvedGraph_first _ _ Hfirst). done.
Qed.

End solve.
End solve_facts.

(** ** The earlier variant of [handleEdgeConstainConstraint] *)

Module engine_v1_facts.
Import knowledgebase engine_v1 examples.

Lemma withEndState_same e : withEndState e (EndState (Context e)) = e.
Proof. by destruct e as [p kb []]. Qed.

Lemma no_pairs (srcNodes : list Resource) :
  (src ← srcNodes; dst ← ([] : list Resource); [(src, dst)]) = [].
Proof. induction srcNodes as [|src srcNodes IH]; simpl; [done|]. exact IH. Qed.

(** C9 (as amended): in this variant, for every edge constraint whose
    target's destination is a resource, not a construct, that the
    end-state graph holds, [handleEdgeConstainConstraint] leaves the
    engine, and with it the end-state graph, exactly as it was and runs
    the body of its loop zero times; it returns [nil] when the source of
    the target is found and the provider makes the resource of the node,
    and the error of whichever of the two fails otherwise. *)
Theorem handleEdgeConstainConstraint_leaves_EndState
  (e : Engine) (c : constraints.EdgeConstraint) :
  core.Provider (constraints.Target (constraints.EdgeTarget c))
  ≠ core.AbstractConstructProvider →
  is_Some (core.GetResource (EndState (Context e))
             (constraints.Target (constraints.EdgeTarget c))) →
  handledEngine (handleEdgeConstainConstraint e c) = e
  ∧ bodyRuns (handleEdgeConstainConstraint e c) = 0
  ∧ handledErr (handleEdgeConstainConstraint e c)
    = match endNodes e (constraints.Source (constraints.EdgeTarget c)) true with
      | Err err => Some err
      | Ok _ =>
          match engine.CreateResourceFromId (Provider e) (constraints.Node c)
                  (WorkingState (Context e)) with
          | Err err => Some err
          | Ok _ => None
          end
      end.
Proof.
  intros Hprov [dst Hdst]. unfold handleEdgeConstainConstraint.
  destruct (endNodes e (constraints.Source _) true) as [srcNodes|err];
    [|done].
  assert (endNodes e (constraints.Target (constraints.EdgeTarget c)) false
          = Ok []) as ->.
  { unfold endNodes. rewrite decide_False by done. by rewrite Hdst. }
  destruct (engine.CreateResourceFromId _ _ _) as [resource|err]; [|done].
  rewrite no_pairs. simpl. by rewrite withEndState_same.
Qed.

(** C9, the claim as stated fails: the destination db is a resource of
    the end-state graph, yet the call returns an error, because the source
    api is not in the graph. *)
Lemma handleEdgeConstainConstraint_fails_on_missing_source :
  core.Provider dbId ≠ core.AbstractConstructProvider
  ∧ core.GetResource endDb dbId = Some db
  ∧ handledErr (handleEdgeConstainConstraint (engineV1 endDb) mustContainProxy)
    = Some (ErrResourceNotFound apiId).
Proof. split; [done|]. split; vm_compute; reflexivity. Qed.

(** With both ends of the target in the end-state graph the call returns
    [nil], and the engine is as it was. *)
Lemma handleEdgeConstainConstraint_leaves_EndState_witness :
  core.Provider dbId ≠ core.AbstractConstructProvider
  ∧ is_Some (core.GetResource endBoth dbId)
  ∧ handledEngine (handleEdgeConstainConstraint (engineV1 endBoth)
                     mustContainProxy) = engineV1 endBoth
  ∧ handledErr (handleEdgeConstainConstraint (engineV1 endBoth)
                  mustContainProxy) = None.
Proof.
  assert (core.Provider dbId ≠ core.AbstractConstructProvider) as Hp by done.
  assert (is_Some (core.GetResource endBoth dbId)) as Hs
    by (exists db; reflexivity).
  split; [exact Hp|]. split; [exact Hs|].
  destruct (handleEdgeConstainConstraint_leaves_EndState (engineV1 endBoth)
              mustContainProxy Hp Hs) as (He & _ & Herr).
  split; [exact He|exact Herr].
Defined.

End engine_v1_facts.

(** ** [addPathToGraph]: the order of its calls *)

Module path_selection_facts.
Import path_selection.

Section order.
Context {World : Type}.
Variable ops : Collaborators World.

Lemma handleSelector_length prop oldId step i st selector :
  length (handleSelector ops prop oldId step i st selector).1.2
  = length st.1.2.
Proof.
  destruct st as [[w rs] errs]. unfold handleSelector. simpl.
  destruct (rs !! i) as [res|]; [|done].
  assert (∀ other,
    length (match CanUse ops w selector (ID res) other with
            | Ok true =>
                let '(w0, res0, err) :=
                  SetField ops w prop oldId res other step in
                (w0, <[i:=res0]> rs,
                 match err with
                 | Some err0 => joinErr errs (Some err0)
                 | None => errs
                 end)
            | _ => (w, rs, errs)
            end).1.2 = length rs) as Huse.
  { intros other. destruct (CanUse _ _ _ _ _) as [[|]|]; try done.
    destruct (SetField _ _ _ _ _ _ _) as [[w0 res0] err]. simpl.
    by rewrite length_insert. }
  destruct (_ && _).
  - destruct (rs !! (i + 1)); [apply Huse|done].
  - destruct (bool_decide _); [|done].
    destruct (rs !! (i - 1)); [apply Huse|done].
Qed.

Lemma foldl_length {S A} (len : S → nat) (step : S → A → S) (l : list A) :
  (∀ st x, len (step st x) = len st) →
  ∀ st, len (foldl step st l) = len st.
Proof.
  intros Hstep. induction l as [|x l IH]; intros st; simpl; [done|].
  by rewrite IH, Hstep.
Qed.

Lemma handleProp_length i st prop :
  length (handleProp ops i st prop).1.2 = length st.1.2.
Proof.
  destruct st as [[w rs] errs]. unfold handleProp. simpl.
  destruct (rs !! i) as [res|]; [|done].
  destruct (OperationalRule prop) as [step|]; [|done].
  case_decide; [done|].
  pose proof (foldl_length (λ st, length st.1.2)
    (handleSelector ops prop (ID res) step i) (StepResources step)
    (handleSelector_length prop (ID res) step i) (w, rs, errs)) as Hlen.
  destruct (foldl _ _ (StepResources step)) as [[w1 rs1] errs1]. simpl in *.
  destruct (rs1 !! i); [|done]. by destruct (_ && _).
Qed.

(** A visit by [handleProperties] of a position of the path logs it and
    keeps the length of the slice. *)
Lemma handleResource_visit w rs errs log i :
  i < length rs →
  ∃ w' rs' errs' id,
    handleResource ops (w, rs, errs, log) i
    = (w', rs', errs', log ++ [EvHandle i id])
    ∧ length rs' = length rs.
Proof.
  intros Hi. unfold handleResource.
  destruct (lookup_lt_is_Some_2 rs i Hi) as [res ->].
  destruct (GetResourceTemplate ops w (ID res)) as [rt|err].
  - unfold LoopProperties.
    pose proof (foldl_length (λ st, length st.1.2) (handleProp ops i)
      (TemplateProperties rt) (handleProp_length i) (w, rs, errs)) as Hlen.
    destruct (foldl _ _ (TemplateProperties rt)) as [[w1 rs1] errs1].
    simpl in *. eauto 10.
  - eauto 10.
Qed.

(** The loop of [handleProperties] from position [k - 1] down to 0
    visits these positions in that order and does nothing else that is
    logged. *)
Lemma handleDownFrom_log k : ∀ w rs errs log,
  k ≤ length rs →
  ∃ w' rs' errs' visits,
    handleDownFrom ops k (w, rs, errs, log) = (w', rs', errs', log ++ visits)
    ∧ length rs' = length rs
    ∧ handledIndex <$> visits = Some <$> rev (seq 0 k).
Proof.
  induction k as [|k IH]; intros w rs errs log Hk; cbn [handleDownFrom].
  - exists w, rs, errs, []. by rewrite app_nil_r.
  - destruct (handleResource_visit w rs errs log k) as
      (w1 & rs1 & errs1 & id & -> & Hlen1); [lia|].
    destruct (IH w1 rs1 errs1 (log ++ [EvHandle k id])) as
      (w2 & rs2 & errs2 & visits & -> & Hlen2 & Hvis); [lia|].
    exists w2, rs2, errs2, (EvHandle k id :: visits).
    split; [by rewrite <- app_assoc|]. split; [lia|].
    rewrite seq_S, rev_app_distr. cbn [rev app fmap list_fmap].
    cbn [handledIndex]. by rewrite Hvis.
Qed.

Lemma addResource_log st r :
  ∃ evs, (addResource ops st r).2 = st.2 ++ evs
         ∧ Forall (λ ev, isGraphEvent ev = true) evs.
Proof.
  destruct st as [[[w prev] errs] log]. unfold addResource.
  destruct (GraphAddVertex ops w r) as [w1 err1].
  destruct prev as [prev|].
  - destruct (GraphAddEdge ops w1 prev (ID r)) as [w2 err2]. simpl.
    exists [EvAddVertex (ID r); EvAddEdge prev (ID r)].
    split; [by rewrite <- app_assoc|]. by repeat constructor.
  - simpl. exists [EvAddVertex (ID r)]. split; [done|]. by repeat constructor.
Qed.

Lemma addResources_log rs : ∀ st,
  ∃ evs, (foldl (addResource ops) st rs).2 = st.2 ++ evs
         ∧ Forall (λ ev, isGraphEvent ev = true) evs.
Proof.
  induction rs as [|r rs IH]; intros st; simpl.
  - exists []. by rewrite app_nil_r.
  - destruct (addResource_log st r) as (evs1 & H1 & F1).
    destruct (IH (addResource ops st r)) as (evs2 & H2 & F2).
    exists (evs1 ++ evs2). rewrite H2, H1, <- app_assoc.
    split; [done|]. by apply Forall_app.
Qed.

Lemma joinErr_Some errs err : is_Some (joinErr errs (Some err)).
Proof. unfold joinErr, errors_Join. destruct errs; simpl; done. Qed.

Lemma lookupResource_step w st id :
  (lookupResource ops w st id).2 = None →
  st.2 = None ∧ length (lookupResource ops w st id).1 = S (length st.1).
Proof.
  destruct st as [result errs]. unfold lookupResource. simpl.
  assert (∀ err, (result, joinErr errs (Some err)).2 = None → False) as Hno.
  { intros err Hn. destruct (joinErr_Some errs err) as [? Hs]. simpl in Hn.
    congruence. }
  destruct (RawViewVertex ops w id) as [r|err].
  - simpl. intros ->. rewrite length_app. simpl. split; [done|lia].
  - destruct err; try (intros Hn; by apply Hno in Hn).
    destruct (CreateResource ops w id) as [r|err].
    + simpl. intros ->. rewrite length_app. simpl. split; [done|lia].
    + intros Hn. by apply Hno in Hn.
Qed.

Lemma lookupResources_length w path : ∀ st,
  (foldl (lookupResource ops w) st path).2 = None →
  st.2 = None
  ∧ length (foldl (lookupResource ops w) st path).1
    = length st.1 + length path.
Proof.
  induction path as [|id path IH]; intros st; simpl.
  - intros ->. split; [done|lia].
  - intros Hnone. destruct (IH _ Hnone) as [Hstep Hlen].
    destruct (lookupResource_step w st id Hstep) as [Hst Hl].
    split; [done|]. rewrite Hlen, Hl. lia.
Qed.

(** C7: [addPathToGraph] calls [handleProperties] on the resources of
    the path before it adds any vertex or edge of the path to the result
    graph, and [handleProperties] visits the resources from the last
    position of the path to the first: the calls of [addPathToGraph] are,
    in order, the visits of the positions [n - 1, ..., 0] and then only
    additions to the graph, and [n] is the length of the path whenever the
    resources of the path were all found or created.  When the call
    succeeds it returns one resource per id of the path. *)
Theorem addPathToGraph_handles_properties_first (w : World) (path : Path) :
  ∃ n visits additions,
    addedLog (addPathToGraph ops w path) = visits ++ additions
    ∧ handledIndex <$> visits = Some <$> rev (seq 0 n)
    ∧ Forall (λ ev, isGraphEvent ev = true) additions
    ∧ ((foldl (lookupResource ops w) ([], None) path).2 = None →
       n = length path)
    ∧ (∀ resources,
         addedResources (addPathToGraph ops w path) = Some resources →
         n = length path ∧ length resources = length path).
Proof.
  unfold addPathToGraph.
  pose proof (lookupResources_length w path ([], None)) as Hlen.
  destruct (foldl (lookupResource ops w) ([], None) path) as [result [errs|]].
  - exists 0, [], []. simpl. repeat split; try done; try constructor.
  - simpl in Hlen. destruct (Hlen eq_refl) as [_ Hlen']. clear Hlen.
    rename Hlen' into Hlen. unfold handleProperties.
    destruct (handleDownFrom_log (length result) w result None [])
      as (w1 & rs1 & errs1 & visits & -> & Hlen1 & Hvis); [done|].
    simpl. destruct errs1 as [err|].
    + exists (length result), visits, []. simpl.
      rewrite app_nil_r. repeat split; try done; try constructor.
    + destruct (addResources_log rs1 (w1, None, None, visits))
        as (evs & Hlog & Hev).
      destruct (foldl _ _ rs1) as [[[w2 prev] errs2] log2]. simpl in *.
      exists (length result), visits, evs. subst log2.
      split; [done|]. split; [done|]. split; [done|]. split; [done|].
      intros resources [= <-]. lia.
Qed.

End order.

Import examples.

(** The path api, phantom proxy, db: the three visits of
    [handleProperties] run from position 2 down to 0, and the additions
    to the graph follow. *)
Lemma addPathToGraph_on_viaProxy :
  addedLog (addPathToGraph opsProxyTwice () viaProxy)
  = [EvHandle 2 dbId; EvHandle 1 phantomId; EvHandle 0 apiId;
     EvAddVertex apiId; EvAddVertex phantomId; EvAddEdge apiId phantomId;
     EvAddVertex dbId; EvAddEdge phantomId dbId]
  ∧ addedErr (addPathToGraph opsProxyTwice () viaProxy) = None.
Proof. split; vm_compute; reflexivity. Qed.

End path_selection_facts.

(** ** [expandPath]: the candidates and their weights *)

Module candidate_facts.
Import path_selection.

Lemma elem_of_entries (m : gmap ResourceId Z) id weight :
  m !! id = Some weight →
  mkCandidate id weight
  ∈ ((λ '(id, weight), mkCandidate id weight) <$> map_to_list m).
Proof.
  intros Hm. apply list_elem_of_fmap. exists (id, weight). split; [done|].
  by apply elem_of_map_to_list.
Qed.

Lemma entries_nonempty (m : gmap ResourceId Z) :
  m ≠ ∅ → ∃ c, c ∈ ((λ '(id, weight), mkCandidate id weight) <$> map_to_list m).
Proof.
  intros Hne. destruct (map_to_list m) as [|[id weight] l] eqn:Hl.
  - by apply map_to_list_empty_iff in Hl.
  - exists (mkCandidate id weight). simpl. left.
Qed.

(** Every candidate of a position is the target of a call of [addEdge],
    when the position before it has a candidate. *)
Lemma edgePairs_target input (candidates : list (gmap ResourceId Z))
  i m id weight :
  Forall (λ m, m ≠ ∅) candidates →
  candidates !! i = Some m → m !! id = Some weight →
  ∃ source, (source, mkCandidate id weight) ∈ edgePairs input candidates.
Proof.
  intros Hne Hi Hm. unfold edgePairs.
  pose proof (elem_of_entries m id weight Hm) as Hc.
  destruct (decide (i = 0)) as [->|Hnz].
  - exists (mkCandidate (ID (DepSource input)) 0).
    apply elem_of_app. left. apply list_elem_of_join.
    eexists. split; [|apply (elem_of_lookup_imap_2 _ _ _ _ Hi)].
    apply list_elem_of_bind. eexists. split; [|exact Hc]. simpl. left.
  - destruct (candidates !! (i - 1)) as [prev|] eqn:Hprev.
    2:{ apply lookup_ge_None in Hprev. apply lookup_lt_Some in Hi. lia. }
    assert (prev ≠ ∅) as Hprevne.
    { rewrite Forall_forall in Hne. apply Hne.
      by eapply list_elem_of_lookup_2. }
    destruct (entries_nonempty prev Hprevne) as [source Hsource].
    exists source. apply elem_of_app. left. apply list_elem_of_join.
    eexists. split; [|apply (elem_of_lookup_imap_2 _ _ _ _ Hi)].
    apply list_elem_of_bind. eexists. split; [|exact Hc]. simpl.
    rewrite decide_False by done. rewrite Hprev. simpl.
    apply list_elem_of_fmap. by exists source.
Qed.

(** ** The 64-bit sums *)

Lemma wrap64_add a b : wrap64 (wrap64 a + b) = wrap64 (a + b).
Proof.
  unfold wrap64. f_equal.
  replace ((a + 2 ^ 63) mod 2 ^ 64 - 2 ^ 63 + b + 2 ^ 63)%Z
    with ((a + 2 ^ 63) mod 2 ^ 64 + b)%Z by lia.
  rewrite Zplus_mod_idemp_l. f_equal. lia.
Qed.

Lemma wrap64_small z : (- 2 ^ 63 ≤ z < 2 ^ 63)%Z → wrap64 z = z.
Proof. intros Hz. unfold wrap64. rewrite Z.mod_small; lia. Qed.

(** What [k] additions of -1000 leave of an entry. *)
Lemma iter_penalty k (weight : option Z) :
  Nat.iter k (λ weight, Some (wrap64 (default 0 weight + -1000))%Z) weight
  = match k with
    | 0 => weight
    | S _ => Some (wrap64 (default 0 weight - 1000 * Z.of_nat k))%Z
    end.
Proof.
  induction k as [|k IH]; [done|].
  rewrite Nat.iter_succ, IH. destruct k as [|k].
  - f_equal.
  - cbn [from_option Datatypes.id]. rewrite wrap64_add. do 2 f_equal. lia.
Qed.

(** ** The entries of [candidates] *)

Lemma weightOf_alter_other (f : gmap ResourceId Z → gmap ResourceId Z)
  (candidates : list (gmap ResourceId Z)) i j id :
  (∀ m, f m !! id = m !! id) →
  weightOf (alter f i candidates) j id = weightOf candidates j id.
Proof.
  intros Hf. unfold weightOf. destruct (decide (j = i)) as [->|Hne].
  - rewrite list_lookup_alter_eq. destruct (candidates !! i); simpl; auto.
  - by rewrite list_lookup_alter_ne.
Qed.

Lemma weightOf_alter (f : gmap ResourceId Z → gmap ResourceId Z)
  (candidates : list (gmap ResourceId Z)) i id :
  weightOf (alter f i candidates) i id
  = candidates !! i ≫= (λ m, f m !! id).
Proof.
  unfold weightOf. rewrite list_lookup_alter_eq.
  by destruct (candidates !! i).
Qed.

Lemma weightOf_Some (candidates : list (gmap ResourceId Z)) i id weight :
  weightOf candidates i id = Some weight ↔
  ∃ m, candidates !! i = Some m ∧ m !! id = Some weight.
Proof.
  unfold weightOf. destruct (candidates !! i) as [m|]; simpl.
  - split; [eauto|]. by intros (? & [= <-] & ?).
  - split; [done|]. by intros (? & ? & ?).
Qed.

Lemma visits_cons cid id resource nodes :
  visits cid ((id, resource) :: nodes)
  = if decide (id = cid) then S (visits cid nodes) else visits cid nodes.
Proof.
  unfold visits. rewrite filter_cons. simpl.
  by destruct (decide (id = cid)).
Qed.

Lemma visits_fmap cid (resources : list Resource) :
  visits cid ((λ r, (ID r, r)) <$> resources)
  = length (filter (λ r, ID r = cid) resources).
Proof.
  induction resources as [|r resources IH]; [done|].
  rewrite fmap_cons, visits_cons, filter_cons, IH.
  by destruct (decide (ID r = cid)).
Qed.

Section candidates.
Context {World : Type}.
Variable ops : Collaborators World.

(** *** The nodes of the path *)

Lemma newCandidate_nonempty w input path st node :
  Forall (λ m : gmap ResourceId Z, m ≠ ∅) st.1 →
  Forall (λ m : gmap ResourceId Z, m ≠ ∅)
    (newCandidate ops w input path st node).1.
Proof.
  destruct st as [candidates errs]. simpl. intros Hne. unfold newCandidate.
  assert (({[node := 0%Z]} : gmap ResourceId Z) ≠ ∅) as Hs
    by apply insert_non_empty.
  destruct (TempVertex ops w node) as [resource|err]; simpl.
  - destruct (checkCandidatesValidity ops w resource path _) as [[|]|err];
      simpl; apply Forall_app; (split; [done|]); apply Forall_singleton;
      try done. apply insert_non_empty.
  - apply Forall_app. split; [done|]. by apply Forall_singleton.
Qed.

(** A turn of the loop over the nodes adds one entry at the end. *)
Lemma newCandidate_snoc w input path st node :
  ∃ m, (newCandidate ops w input path st node).1 = st.1 ++ [m].
Proof.
  destruct st as [candidates errs]. unfold newCandidate.
  destruct (TempVertex ops w node) as [resource|err]; simpl; [|eauto].
  destruct (checkCandidatesValidity ops w resource path _) as [valid|err];
    simpl; eauto.
Qed.

Lemma foldl_newCandidate_prefix w input path nodes : ∀ st,
  ∃ l, (foldl (newCandidate ops w input path) st nodes).1 = st.1 ++ l
       ∧ length l = length nodes.
Proof.
  induction nodes as [|node nodes IH]; intros st; simpl.
  - exists []. by rewrite app_nil_r.
  - destruct (IH (newCandidate ops w input path st node)) as (l & -> & Hl).
    destruct (newCandidate_snoc w input path st node) as [m ->].
    exists (m :: l). rewrite <- app_assoc. simpl. split; [done|]. by rewrite Hl.
Qed.

Lemma foldl_newCandidate_nonempty w input path nodes : ∀ st,
  Forall (λ m : gmap ResourceId Z, m ≠ ∅) st.1 →
  Forall (λ m : gmap ResourceId Z, m ≠ ∅)
    (foldl (newCandidate ops w input path) st nodes).1.
Proof.
  induction nodes as [|n nodes IH]; intros st Hst; simpl; [done|].
  apply IH. by apply newCandidate_nonempty.
Qed.

Lemma nodeCandidates_length w input path :
  length (nodeCandidates ops w input path).1 = length (nonBoundary path).
Proof.
  unfold nodeCandidates.
  by destruct (foldl_newCandidate_prefix w input path (nonBoundary path)
                 ([], None)) as (l & -> & Hl).
Qed.

Lemma nodeCandidates_nonempty w input path :
  Forall (λ m : gmap ResourceId Z, m ≠ ∅) (nodeCandidates ops w input path).1.
Proof. by apply foldl_newCandidate_nonempty. Qed.

(** The entry the loop over the nodes makes for the node at a position. *)
Lemma foldl_newCandidate_lookup w input path nodes :
  ∀ st i node resource valid,
    nodes !! i = Some node →
    TempVertex ops w node = Ok resource →
    checkCandidatesValidity ops w resource path (Classification input)
    = Ok valid →
    (foldl (newCandidate ops w input path) st nodes).1 !! (length st.1 + i)
    = Some {[node := if valid then 0%Z else (-1000)%Z]}.
Proof.
  induction nodes as [|n nodes IH]; intros st i node resource valid Hi Hv Hc;
    [done|].
  destruct i as [|i]; simpl in *.
  - injection Hi as ->.
    destruct (foldl_newCandidate_prefix w input path nodes
                (newCandidate ops w input path st node)) as (l & -> & _).
    destruct st as [candidates errs]. unfold newCandidate.
    rewrite Hv, Hc. simpl. rewrite <- app_assoc.
    rewrite lookup_app_r by lia. rewrite Nat.add_0_r, Nat.sub_diag. simpl.
    destruct valid; [done|]. by rewrite insert_singleton_eq.
  - rewrite <- (IH (newCandidate ops w input path st n) i node resource valid
                  Hi Hv Hc).
    f_equal. destruct (newCandidate_snoc w input path st n) as [m ->].
    rewrite length_app. simpl. lia.
Qed.

(** *** One visit of a walk *)

Lemma addCandidates_nonempty input path nonBoundary st id resource nerr :
  Forall (λ m : gmap ResourceId Z, m ≠ ∅) st.2 →
  Forall (λ m : gmap ResourceId Z, m ≠ ∅)
    (addCandidates ops input path nonBoundary st id resource nerr).1.2.
Proof.
  destruct st as [w candidates]. simpl. intros Hne. unfold addCandidates.
  destruct (matchesNonBoundary ops id nonBoundary) as [matchIdx|]; [|done].
  destruct (checkNamespaceValidity ops w resource _) as [[|]|err]; try done.
  destruct (TempAddVertex ops w resource) as [w1 err].
  assert (Forall (λ m : gmap ResourceId Z, m ≠ ∅)
            (alter (λ m : gmap ResourceId Z,
                      match m !! id with
                      | Some _ => m
                      | None => <[id := 0%Z]> m
                      end) matchIdx candidates)) as Hne1.
  { apply Forall_alter; [done|]. intros m _ Hm.
    destruct (m !! id); [done|apply insert_non_empty]. }
  destruct (match err with
            | Some ErrVertexAlreadyExists | None => None
            | Some err0 => Some err0
            end); [done|].
  destruct (determineCandidateWeight ops w1 _ _ id) as [weight|?]; [|done].
  destruct (checkCandidatesValidity ops w1 resource path _) as [valid|?];
    [|done].
  simpl. apply Forall_alter; [done|]. intros m _ _. apply insert_non_empty.
Qed.

Lemma addCandidates_length input path nonBoundary st id resource nerr :
  length (addCandidates ops input path nonBoundary st id resource nerr).1.2
  = length st.2.
Proof.
  destruct st as [w candidates]. simpl. unfold addCandidates.
  destruct (matchesNonBoundary ops id nonBoundary) as [matchIdx|]; [|done].
  destruct (checkNamespaceValidity ops w resource _) as [[|]|err]; try done.
  destruct (TempAddVertex ops w resource) as [w1 err].
  destruct (match err with
            | Some ErrVertexAlreadyExists | None => None
            | Some err0 => Some err0
            end); [done|].
  destruct (determineCandidateWeight ops w1 _ _ id) as [weight|?];
    [|simpl; by rewrite length_alter].
  destruct (checkCandidatesValidity ops w1 resource path _) as [valid|?];
    simpl; by rewrite ?length_alter.
Qed.

(** A visit of a resource leaves the entries of the other ids alone. *)
Lemma addCandidates_other input path nonBoundary st id resource nerr j cid :
  id ≠ cid →
  weightOf (addCandidates ops input path nonBoundary st id resource nerr).1.2
    j cid
  = weightOf st.2 j cid.
Proof.
  intros Hne. destruct st as [w candidates]. simpl. unfold addCandidates.
  destruct (matchesNonBoundary ops id nonBoundary) as [matchIdx|]; [|done].
  destruct (checkNamespaceValidity ops w resource _) as [[|]|err]; try done.
  destruct (TempAddVertex ops w resource) as [w1 err].
  assert (weightOf
            (alter (λ m : gmap ResourceId Z,
                      match m !! id with
                      | Some _ => m
                      | None => <[id := 0%Z]> m
                      end) matchIdx candidates) j cid
          = weightOf candidates j cid) as Hfirst.
  { apply weightOf_alter_other. intros m.
    destruct (m !! id); [done|]. by rewrite lookup_insert_ne. }
  destruct (match err with
            | Some ErrVertexAlreadyExists | None => None
            | Some err0 => Some err0
            end); [done|].
  destruct (determineCandidateWeight ops w1 _ _ id) as [weight|?]; [|done].
  destruct (checkCandidatesValidity ops w1 resource path _) as [valid|?];
    [|done].
  simpl. rewrite weightOf_alter_other; [done|].
  intros m. by rewrite lookup_insert_ne.
Qed.

(** A visit that goes through to the end: the sum is that of two Go
    [int]s. *)
Lemma addCandidates_adds input path nonBoundary w w' err candidates id
  resource nerr matchIdx m weight valid :
  matchesNonBoundary ops id nonBoundary = Some matchIdx →
  candidates !! matchIdx = Some m →
  checkNamespaceValidity ops w resource (ID (DepTarget input)) = Ok true →
  TempAddVertex ops w resource = (w', err) →
  err = None ∨ err = Some ErrVertexAlreadyExists →
  determineCandidateWeight ops w' (ID (DepSource input))
    (ID (DepTarget input)) id = Ok weight →
  checkCandidatesValidity ops w' resource path (Classification input)
  = Ok valid →
  addCandidates ops input path nonBoundary (w, candidates) id resource nerr
  = (w',
     <[matchIdx :=
         <[id := wrap64 (default 0 (m !! id)
                         + (if valid then weight else -1000))%Z]> m]>
       candidates,
     nerr).
Proof.
  intros Hmatch Hm Hns Hadd Herr Hw Hc.
  unfold addCandidates. rewrite Hmatch, Hns, Hadd.
  assert (match err with
          | Some ErrVertexAlreadyExists | None => None
          | Some err0 => Some err0
          end = None) as -> by (by destruct Herr as [-> | ->]).
  rewrite Hw, Hc. f_equal. f_equal.
  apply list_eq. intros j.
  destruct (decide (j = matchIdx)) as [->|Hne].
  - rewrite !list_lookup_alter_eq.
    rewrite list_lookup_insert_eq by (by eapply lookup_lt_Some).
    rewrite Hm. simpl. f_equal.
    destruct (m !! id) as [old|] eqn:Hold; simpl.
    + rewrite Hold. done.
    + rewrite lookup_insert_eq. simpl. by rewrite insert_insert_eq.
  - rewrite !list_lookup_alter_ne by done.
    rewrite list_lookup_insert_ne by done. done.
Qed.

(** *** A walk *)

Section walk.
Variable input : ExpansionInput.
Variable path : Path.
Variable cid : ResourceId.
Variable matchIdx : nat.
Hypothesis Hmatch :
  matchesNonBoundary ops cid (nonBoundary path) = Some matchIdx.
Hypothesis Hnamespace : ∀ w resource,
  met ops cid resource →
  checkNamespaceValidity ops w resource (ID (DepTarget input)) = Ok true.
Hypothesis Hvertex : ∀ w resource,
  met ops cid resource →
  (TempAddVertex ops w resource).2 = None
  ∨ (TempAddVertex ops w resource).2 = Some ErrVertexAlreadyExists.
Hypothesis Hweight : ∀ w,
  ∃ weight,
    determineCandidateWeight ops w (ID (DepSource input))
      (ID (DepTarget input)) cid = Ok weight.
Hypothesis Hinvalid : ∀ w resource,
  met ops cid resource →
  checkCandidatesValidity ops w resource path (Classification input)
  = Ok false.

Lemma addCandidates_invalid w candidates resource nerr :
  met ops cid resource →
  matchIdx < length candidates →
  weightOf
    (addCandidates ops input path (nonBoundary path) (w, candidates) cid
       resource nerr).1.2 matchIdx cid
  = Some (wrap64 (default 0 (weightOf candidates matchIdx cid) + -1000))%Z.
Proof.
  intros Hmet Hlt.
  destruct (lookup_lt_is_Some_2 candidates matchIdx Hlt) as [m Hm].
  destruct (TempAddVertex ops w resource) as [w' err] eqn:Hadd.
  destruct (Hweight w') as [weight Hw].
  rewrite (addCandidates_adds input path (nonBoundary path) w w' err
             candidates cid resource nerr matchIdx m weight false Hmatch Hm
             (Hnamespace w resource Hmet) Hadd).
  - simpl. unfold weightOf.
    rewrite list_lookup_insert_eq by done. simpl.
    by rewrite lookup_insert_eq, Hm.
  - pose proof (Hvertex w resource Hmet) as Hor. by rewrite Hadd in Hor.
  - exact Hw.
  - by apply Hinvalid.
Qed.

Lemma walk_invalid nodes : ∀ w candidates nerr,
  (∀ resource, (cid, resource) ∈ nodes → met ops cid resource) →
  matchIdx < length candidates →
  length (foldl (λ '(st, nerr) '(id, resource),
                   addCandidates ops input path (nonBoundary path) st id
                     resource nerr)
                ((w, candidates), nerr) nodes).1.2
  = length candidates
  ∧ weightOf
      (foldl (λ '(st, nerr) '(id, resource),
                addCandidates ops input path (nonBoundary path) st id
                  resource nerr)
             ((w, candidates), nerr) nodes).1.2 matchIdx cid
    = Nat.iter (visits cid nodes)
        (λ weight, Some (wrap64 (default 0 weight + -1000))%Z)
        (weightOf candidates matchIdx cid).
Proof.
  induction nodes as [|[id resource] nodes IH]; intros w candidates nerr
    Hmet Hlt; [done|].
  cbn [foldl].
  pose proof (addCandidates_length input path (nonBoundary path)
                (w, candidates) id resource nerr) as Hlen.
  assert (∀ r, (cid, r) ∈ nodes → met ops cid r) as Hmet'.
  { intros r Hr. apply Hmet. by right. }
  rewrite visits_cons.
  destruct (decide (id = cid)) as [->|Hne].
  - pose proof (addCandidates_invalid w candidates resource nerr
                  (Hmet resource ltac:(left)) Hlt) as Hinv.
    destruct (addCandidates ops input path (nonBoundary path) (w, candidates)
                cid resource nerr) as [[w1 c1] nerr1].
    simpl in Hlen, Hinv.
    destruct (IH w1 c1 nerr1 Hmet') as [IHlen IHw]; [by rewrite Hlen|].
    split; [etrans; [exact IHlen|exact Hlen]|].
    rewrite IHw, Hinv, Nat.iter_succ.
    exact (Nat.iter_swap (visits cid nodes) _
             (λ weight, Some (wrap64 (default 0 weight + -1000))%Z)
             (weightOf candidates matchIdx cid)).
  - pose proof (addCandidates_other input path (nonBoundary path)
                  (w, candidates) id resource nerr matchIdx cid Hne) as Hother.
    destruct (addCandidates ops input path (nonBoundary path) (w, candidates)
                id resource nerr) as [[w1 c1] nerr1].
    simpl in Hlen, Hother.
    destruct (IH w1 c1 nerr1 Hmet') as [IHlen IHw]; [by rewrite Hlen|].
    split; [etrans; [exact IHlen|exact Hlen]|].
    by rewrite IHw, Hother.
Qed.

End walk.

Lemma walk_nonempty input path nonBoundary nodes st :
  Forall (λ m : gmap ResourceId Z, m ≠ ∅) st.2 →
  Forall (λ m : gmap ResourceId Z, m ≠ ∅)
    (WalkGraph nodes (addCandidates ops input path nonBoundary) st).1.2.
Proof.
  unfold WalkGraph. generalize (None : option error). revert st.
  induction nodes as [|[id resource] nodes IH]; intros st nerr Hne; simpl;
    [done|].
  pose proof (addCandidates_nonempty input path nonBoundary st id resource nerr
                Hne) as Hstep.
  destruct (addCandidates ops input path nonBoundary st id resource nerr)
    as [st1 nerr1]. by apply IH.
Qed.

Lemma walkCandidates_nonempty w input path candidates :
  Forall (λ m : gmap ResourceId Z, m ≠ ∅) candidates →
  Forall (λ m : gmap ResourceId Z, m ≠ ∅)
    (walkCandidates ops w input path candidates).1.2.
Proof.
  intros Hinit. unfold walkCandidates.
  pose proof (walk_nonempty input path (nonBoundary path)
                (resultGraphWalk ops w) (w, candidates) Hinit) as H1.
  destruct (WalkGraph (resultGraphWalk ops w) _ _) as [[w1 c1] err1].
  simpl in H1.
  pose proof (walk_nonempty input path (nonBoundary path)
                (rawViewWalk ops w1) (w1, c1) H1) as H2.
  destruct (WalkGraph (rawViewWalk ops w1) _ _) as [[w2 c2] err2]. done.
Qed.

(** *** The edges *)

Lemma addEdge_log_mono input edges st pair e :
  e ∈ st.2 → e ∈ (addEdge ops input edges st pair).2.
Proof.
  destruct st as [[w errs] log]. destruct pair as [source target]. simpl.
  intros He. unfold addEdge.
  destruct (HasEdgeTemplate ops w _ _); simpl; [|done].
  destruct (UniqueCanAdd ops w edges _ _); simpl; [|done].
  destruct (checkUniquenessValidity ops w _ _) as [[|]|err]; simpl;
    try done.
  destruct (TempAddEdge ops w _ _ _) as [w1 [err|]]; simpl.
  - destruct err; simpl; apply elem_of_app; by left.
  - apply elem_of_app; by left.
Qed.

Lemma foldl_addEdge_mono input edges pairs : ∀ st e,
  e ∈ st.2 → e ∈ (foldl (addEdge ops input edges) st pairs).2.
Proof.
  induction pairs as [|pair pairs IH]; intros st e He; simpl; [done|].
  apply IH. by apply addEdge_log_mono.
Qed.

(** [addEdge] puts the edge into the temp graph when the checks, none
    of which looks at the validity of a candidate, let it through. *)
Lemma addEdge_adds input edges w errs log source target :
  HasEdgeTemplate ops w (id source) (id target) = true →
  UniqueCanAdd ops w edges (id source) (id target) = true →
  checkUniquenessValidity ops w (id source) (id target) = Ok true →
  mkWeightedEdge (id source) (id target)
    (calculateEdgeWeight ops w (ID (DepSource input)) (ID (DepTarget input))
       (id source) (id target) (divideWeightBy source)
       (divideWeightBy target) (Classification input))
  ∈ (addEdge ops input edges (w, errs, log) (source, target)).2.
Proof.
  intros Ht Hu Hv. unfold addEdge. rewrite Ht, Hu, Hv. simpl.
  destruct (TempAddEdge ops w _ _ _) as [w1 [err|]]; simpl.
  - destruct err; simpl; apply elem_of_app; right; left.
  - apply elem_of_app; right; left.
Qed.

Lemma foldl_addEdge_adds input edges pairs : ∀ st source target,
  (source, target) ∈ pairs →
  (∀ w, HasEdgeTemplate ops w (id source) (id target) = true) →
  (∀ w, UniqueCanAdd ops w edges (id source) (id target) = true) →
  (∀ w, checkUniquenessValidity ops w (id source) (id target) = Ok true) →
  ∃ w,
    mkWeightedEdge (id source) (id target)
      (calculateEdgeWeight ops w (ID (DepSource input)) (ID (DepTarget input))
         (id source) (id target) (divideWeightBy source)
         (divideWeightBy target) (Classification input))
    ∈ (foldl (addEdge ops input edges) st pairs).2.
Proof.
  induction pairs as [|pair pairs IH]; intros st source target Hin Ht Hu Hv.
  - by apply elem_of_nil in Hin.
  - apply elem_of_cons in Hin as [<-|Hin]; simpl.
    + destruct st as [[w errs] log]. exists w.
      apply foldl_addEdge_mono. by apply addEdge_adds.
    + by apply IH.
Qed.

(** [expandPath] when the candidates are found and the edges of the
    dataflow graph are at hand. *)
Lemma expandPath_edges w input path candidates w1 cands edges :
  length path ≠ 2 →
  nodeCandidates ops w input path = (candidates, None) →
  walkCandidates ops w input path candidates = (w1, cands, None) →
  DataflowEdges ops w1 = Ok edges →
  expandPath ops w input path
  = (let '(w2, errs, log) :=
       foldl (addEdge ops input edges) (w1, None, [])
         (edgePairs input cands) in
     mkExpanded World w2 errs log).
Proof.
  intros Hlen Hnodes Hwalk Hedges. unfold expandPath.
  rewrite decide_False by done. by rewrite Hnodes, Hwalk, Hedges.
Qed.

Lemma matchesNonBoundary_lt cid nonBoundaryResources matchIdx :
  matchesNonBoundary ops cid nonBoundaryResources = Some matchIdx →
  matchIdx < length nonBoundaryResources.
Proof.
  unfold matchesNonBoundary.
  destruct (list_find _ nonBoundaryResources) as [[i node]|] eqn:Hfind;
    [|done].
  intros [= <-]. apply list_find_Some in Hfind as (Hi & _).
  by eapply lookup_lt_Some.
Qed.

(** C6 (as amended): a candidate that fails its validity checks stays a
    candidate, and [expandPath] makes edges to it.

    - The node of the path at a non-boundary position is the candidate
      the loop over the nodes leaves at that position, of weight 0 when
      it passes [checkCandidatesValidity] and -1000 when it fails.
    - A resource of a walk that matches a position, passes the namespace
      check and is added to the temp graph has its entry at that
      position whether it is valid or not; the visit adds to the entry
      (0 for a new one) the computed weight when the resource is valid
      and -1000 when it is not, the sum being that of two Go [int]s.
    - So a resource that fails wherever the two walks (result graph,
      then raw view) hand it over, [k] times in all, ends with the
      weight it began with (0 if it had no entry) less [1000 * k], as a
      64-bit sum; untouched when [k] is 0.
    - When the candidates are found without error, [expandPath] calls
      [addEdge] on the pairs of the final candidates: every entry of the
      final candidate set, whatever its weight, is the target of such a
      pair, and where the checks of [addEdge] on edges to it pass (none
      looks at validity), an edge to it is put into the temp graph,
      weighted by [calculateEdgeWeight] with the weight of the entry. *)
Theorem expandPath_keeps_invalid_candidates (input : ExpansionInput)
  (path : Path) :
  (∀ w i node resource valid,
     nonBoundary path !! i = Some node →
     TempVertex ops w node = Ok resource →
     checkCandidatesValidity ops w resource path (Classification input)
     = Ok valid →
     (nodeCandidates ops w input path).1 !! i
     = Some {[node := if valid then 0%Z else (-1000)%Z]})
  ∧ (∀ w w' err candidates nonBoundary id resource nerr matchIdx m weight valid,
       matchesNonBoundary ops id nonBoundary = Some matchIdx →
       candidates !! matchIdx = Some m →
       checkNamespaceValidity ops w resource (ID (DepTarget input)) = Ok true →
       TempAddVertex ops w resource = (w', err) →
       err = None ∨ err = Some ErrVertexAlreadyExists →
       determineCandidateWeight ops w' (ID (DepSource input))
         (ID (DepTarget input)) id = Ok weight →
       checkCandidatesValidity ops w' resource path (Classification input)
       = Ok valid →
       addCandidates ops input path nonBoundary (w, candidates) id resource nerr
       = (w',
          <[matchIdx :=
              <[id := wrap64 (default 0 (m !! id)
                              + (if valid then weight else -1000))%Z]> m]>
            candidates,
          nerr))
  ∧ (∀ w cid matchIdx,
       matchesNonBoundary ops cid (nonBoundary path) = Some matchIdx →
       (∀ w' resource,
          met ops cid resource →
          checkNamespaceValidity ops w' resource (ID (DepTarget input))
          = Ok true) →
       (∀ w' resource,
          met ops cid resource →
          (TempAddVertex ops w' resource).2 = None
          ∨ (TempAddVertex ops w' resource).2 = Some ErrVertexAlreadyExists) →
       (∀ w',
          ∃ weight,
            determineCandidateWeight ops w' (ID (DepSource input))
              (ID (DepTarget input)) cid = Ok weight) →
       (∀ w' resource,
          met ops cid resource →
          checkCandidatesValidity ops w' resource path (Classification input)
          = Ok false) →
       let candidates := (nodeCandidates ops w input path).1 in
       let w1 :=
         (WalkGraph (resultGraphWalk ops w)
            (addCandidates ops input path (nonBoundary path))
            (w, candidates)).1.1 in
       let k :=
         visits cid (resultGraphWalk ops w)
         + visits cid (rawViewWalk ops w1) in
       weightOf (walkCandidates ops w input path candidates).1.2 matchIdx cid
       = match k with
         | 0 => weightOf candidates matchIdx cid
         | S _ =>
             Some (wrap64 (default 0 (weightOf candidates matchIdx cid)
                           - 1000 * Z.of_nat k))%Z
         end)
  ∧ (∀ w candidates w1 cands edges,
       length path ≠ 2 →
       nodeCandidates ops w input path = (candidates, None) →
       walkCandidates ops w input path candidates = (w1, cands, None) →
       DataflowEdges ops w1 = Ok edges →
       expandPath ops w input path
       = (let '(w2, errs, log) :=
            foldl (addEdge ops input edges) (w1, None, [])
              (edgePairs input cands) in
          mkExpanded World w2 errs log)
       ∧ ∀ i cid weight,
           weightOf cands i cid = Some weight →
           (∃ source,
              (source, mkCandidate cid weight) ∈ edgePairs input cands)
           ∧ ((∀ w' s, HasEdgeTemplate ops w' s cid = true) →
              (∀ w' s, UniqueCanAdd ops w' edges s cid = true) →
              (∀ w' s, checkUniquenessValidity ops w' s cid = Ok true) →
              ∃ source w',
                mkWeightedEdge (id source) cid
                  (calculateEdgeWeight ops w' (ID (DepSource input))
                     (ID (DepTarget input)) (id source) cid
                     (divideWeightBy source) weight (Classification input))
                ∈ expandedEdges (expandPath ops w input path))).
Proof.
  split; [|split; [|split]].
  - intros w i node resource valid Hi Hv Hc.
    apply (foldl_newCandidate_lookup w input path (nonBoundary path)
             ([], None) i node resource valid Hi Hv Hc).
  - intros w w' err candidates nonBoundary id resource nerr matchIdx m weight
      valid. apply addCandidates_adds.
  - intros w cid matchIdx Hmatch Hnamespace Hvertex Hweight Hinvalid
      candidates w1 k.
    assert (matchIdx < length candidates) as Hlt.
    { unfold candidates. rewrite nodeCandidates_length.
      by eapply matchesNonBoundary_lt. }
    destruct (walk_invalid input path cid matchIdx Hmatch Hnamespace Hvertex
                Hweight Hinvalid (resultGraphWalk ops w) w candidates None)
      as [Hlen1 Hw1]; [by intros r Hr; exists w; left|done|].
    subst k w1. unfold walkCandidates, WalkGraph in *.
    destruct (foldl _ (w, candidates, None) (resultGraphWalk ops w))
      as [[w1 c1] err1].
    simpl in Hlen1, Hw1. cbn [fst].
    destruct (walk_invalid input path cid matchIdx Hmatch Hnamespace Hvertex
                Hweight Hinvalid (rawViewWalk ops w1) w1 c1 None)
      as [_ Hw2]; [by intros r Hr; exists w1; right|by rewrite Hlen1|].
    destruct (foldl _ (w1, c1, None) (rawViewWalk ops w1))
      as [[w2 c2] err2].
    simpl in Hw2. simpl. rewrite Hw2, Hw1, <- Nat.iter_add.
    rewrite (Nat.add_comm (visits cid (rawViewWalk ops w1))).
    apply iter_penalty.
  - intros w candidates w1 cands edges Hlen Hnodes Hwalk Hedges.
    pose proof (expandPath_edges w input path candidates w1 cands edges Hlen
                  Hnodes Hwalk Hedges) as Hpath.
    split; [exact Hpath|].
    intros i cid weight Hweight.
    apply weightOf_Some in Hweight as (m & Hi & Hm).
    assert (Forall (λ m : gmap ResourceId Z, m ≠ ∅) cands) as Hne.
    { pose proof (walkCandidates_nonempty w input path candidates) as Hne.
      rewrite Hwalk in Hne. apply Hne.
      pose proof (nodeCandidates_nonempty w input path) as Hnode.
      by rewrite Hnodes in Hnode. }
    destruct (edgePairs_target input cands i m cid weight Hne Hi Hm)
      as [source Hsource].
    split; [by exists source|].
    intros Ht Hu Hv. exists source.
    destruct (foldl_addEdge_adds input edges (edgePairs input cands)
                (w1, None, []) source (mkCandidate cid weight) Hsource)
      as [w' Hw']; [by intros; apply Ht|by intros; apply Hu|
                    by intros; apply Hv|].
    exists w'. rewrite Hpath.
    by destruct (foldl (addEdge ops input edges) (w1, None, [])
                   (edgePairs input cands)) as [[w2 errs] log].
Qed.

End candidates.

Import examples.

(** C6, the claim as stated fails.  The existing proxy fails its validity
    checks and is met twice, in the walk of the result graph and in the
    walk of the raw view: it is a candidate of the position of the
    phantom, its weight is -2000, not -1000, and that is the weight the
    edges [expandPath] makes to it and from it are made with (in the
    example the weight of an edge is the sum of the weights of its
    ends). *)
Lemma expandPath_invalid_candidate_met_twice :
  checkCandidatesValidity opsProxyTwice () proxy viaProxy
    (Classification apiToDb) = Ok false
  ∧ resultGraphWalk opsProxyTwice () = [(existingProxyId, proxy)]
  ∧ rawViewWalk opsProxyTwice () = [(existingProxyId, proxy)]
  ∧ weightOf
      (walkCandidates opsProxyTwice () apiToDb viaProxy
         (nodeCandidates opsProxyTwice () apiToDb viaProxy).1).1.2
      0 existingProxyId
    = Some (-2000)%Z
  ∧ expandedErr (expandPath opsProxyTwice () apiToDb viaProxy) = None
  ∧ mkWeightedEdge apiId existingProxyId (-2000)
    ∈ expandedEdges (expandPath opsProxyTwice () apiToDb viaProxy)
  ∧ mkWeightedEdge existingProxyId dbId (-2000)
    ∈ expandedEdges (expandPath opsProxyTwice () apiToDb viaProxy)
  ∧ (-2000)%Z ≠ (-1000)%Z.
Proof.
  split; [reflexivity|]. split; [reflexivity|]. split; [reflexivity|].
  split; [vm_compute; reflexivity|]. split; [vm_compute; reflexivity|].
  assert (expandedEdges (expandPath opsProxyTwice () apiToDb viaProxy)
          = [mkWeightedEdge apiId existingProxyId (-2000);
             mkWeightedEdge apiId phantomId (-1000);
             mkWeightedEdge existingProxyId dbId (-2000);
             mkWeightedEdge phantomId dbId (-1000)]) as ->
    by (vm_compute; reflexivity).
  split; [left|]. split; [do 2 right; left|lia].
Qed.

(** The existing proxy of the example, met twice: its weight and an edge
    to it, by the theorem. *)
Lemma expandPath_keeps_invalid_candidates_witness :
  weightOf
    (walkCandidates opsProxyTwice () apiToDb viaProxy
       (nodeCandidates opsProxyTwice () apiToDb viaProxy).1).1.2
    0 existingProxyId
  = Some (wrap64 (0 - 1000 * 2))%Z
  ∧ ∃ source w',
      mkWeightedEdge (id source) existingProxyId
        (calculateEdgeWeight opsProxyTwice w' apiId dbId (id source)
           existingProxyId (divideWeightBy source) (-2000) "")
      ∈ expandedEdges (expandPath opsProxyTwice () apiToDb viaProxy).
Proof.
  destruct (expandPath_keeps_invalid_candidates opsProxyTwice apiToDb viaProxy)
    as (_ & _ & Hwalks & Hedges).
  split.
  - apply (Hwalks () existingProxyId 0); try done.
    + intros w' resource _. by left.
    + intros w'. by exists 10%Z.
  - destruct (Hedges ()
                (nodeCandidates opsProxyTwice () apiToDb viaProxy).1
                ()
                (walkCandidates opsProxyTwice () apiToDb viaProxy
                   (nodeCandidates opsProxyTwice () apiToDb viaProxy).1).1.2
                []) as [_ Hcand]; [by vm_compute|reflexivity|reflexivity|
                                   reflexivity|].
    destruct (Hcand 0 existingProxyId (-2000)%Z) as [_ Hedge];
      [vm_compute; reflexivity|].
    by apply Hedge.
Defined.

End candidate_facts.

(** ** [expandEdge]: the order of the paths *)

Module path_order_facts.
Import path_selection.

Section order.
Variable ResourceIdLess : ResourceId → ResourceId → bool.

(** The loop of the [less] function is the lexicographic comparison of
    what is left of the two paths. *)
Lemma lessFrom_shift a b (pi pj : Path) k todo :
  lessFrom ResourceIdLess (a :: pi) (b :: pj) (S k) todo
  = lessFrom ResourceIdLess pi pj k todo.
Proof. revert k. induction todo as [|todo IH]; intros k; simpl; [done|].
  destruct (pi !! k), (pj !! k); try done. case_decide; [done|]. apply IH.
Qed.

Lemma lessFrom_lexLess (pi pj : Path) :
  length pi = length pj →
  lessFrom ResourceIdLess pi pj 0 (length pi) = lexLess ResourceIdLess pi pj.
Proof.
  revert pj. induction pi as [|a pi IH]; intros [|b pj] Hlen; simpl in *;
    try done.
  destruct (decide (a ≠ b)) as [Hne|Heq].
  - by rewrite decide_False.
  - apply dec_stable in Heq. subst b. rewrite decide_True by done.
    rewrite lessFrom_shift. apply IH. lia.
Qed.

(** The [less] function of [expandEdge] is the order the specification
    names: by length, then lexicographic over the ids. *)
Lemma pathLess_lengthLexLess (pi pj : Path) :
  pathLess ResourceIdLess pi pj = lengthLexLess ResourceIdLess pi pj.
Proof.
  unfold pathLess, lengthLexLess.
  destruct (decide (length pi = length pj)) as [Heq|Hne].
  - rewrite decide_False by (intros ?; done). by apply lessFrom_lexLess.
  - by rewrite decide_True.
Qed.

Hypothesis less_irrefl : ∀ a, ResourceIdLess a a = false.
Hypothesis less_trans : ∀ a b c,
  ResourceIdLess a b = true → ResourceIdLess b c = true →
  ResourceIdLess a c = true.
Hypothesis less_total : ∀ a b,
  a ≠ b → ResourceIdLess a b = true ∨ ResourceIdLess b a = true.

Lemma less_asym a b :
  ResourceIdLess a b = true → ResourceIdLess b a = false.
Proof.
  intros Hab. destruct (ResourceIdLess b a) eqn:Hba; [|done].
  pose proof (less_trans _ _ _ Hab Hba) as Haa.
  by rewrite less_irrefl in Haa.
Qed.

Lemma lexLess_irrefl (p : Path) : lexLess ResourceIdLess p p = false.
Proof. induction p as [|a p IH]; simpl; [done|]. by rewrite decide_True. Qed.

Lemma lexLess_trans (p q r : Path) :
  length p = length q → length q = length r →
  lexLess ResourceIdLess p q = true → lexLess ResourceIdLess q r = true →
  lexLess ResourceIdLess p r = true.
Proof.
  revert q r. induction p as [|a p IH]; intros [|b q] [|c r] H1 H2;
    simpl in *; try done.
  destruct (decide (a = b)) as [->|Hab], (decide (b = c)) as [->|Hbc].
  - apply IH; lia.
  - by intros _ ?.
  - rewrite decide_False by done. by intros ? _.
  - intros Hlt1 Hlt2. pose proof (less_trans _ _ _ Hlt1 Hlt2) as Hac.
    destruct (decide (a = c)) as [->|Hne]; [|done].
    by rewrite less_irrefl in Hac.
Qed.

Lemma lexLess_total (p q : Path) :
  length p = length q → p ≠ q →
  lexLess ResourceIdLess p q = true ∨ lexLess ResourceIdLess q p = true.
Proof.
  revert q. induction p as [|a p IH]; intros [|b q] Hlen Hne; simpl in *;
    try done.
  destruct (decide (a = b)) as [->|Hab].
  - rewrite decide_True by done. apply IH; [lia|]. congruence.
  - rewrite decide_False by done. by apply less_total.
Qed.

(** [notAfter p q]: [p] is [q] or comes before it. *)
Lemma notAfter_le (p q : Path) :
  notAfter ResourceIdLess p q
  ↔ p = q ∨ lengthLexLess ResourceIdLess p q = true.
Proof.
  unfold notAfter. rewrite pathLess_lengthLexLess. unfold lengthLexLess.
  destruct (decide (p = q)) as [->|Hne].
  - rewrite decide_True by done. rewrite lexLess_irrefl. split; [by left|done].
  - destruct (decide (length q = length p)) as [Heq|Hlen].
    + rewrite decide_True by done. split.
      * intros Hqp. right.
        destruct (lexLess_total p q) as [?|Hc]; [done|done|done|congruence].
      * intros [?|Hpq]; [done|].
        destruct (lexLess ResourceIdLess q p) eqn:Hqp; [|done].
        pose proof (lexLess_trans p q p (eq_sym Heq) Heq Hpq Hqp) as Hpp.
        by rewrite lexLess_irrefl in Hpp.
    + rewrite decide_False by (intros ?; done). split.
      * intros Hq%bool_decide_eq_false. right. apply bool_decide_eq_true. lia.
      * intros [?|Hp%bool_decide_eq_true]; [done|].
        apply bool_decide_eq_false. lia.
Qed.

Lemma notAfter_total : Total (notAfter ResourceIdLess).
Proof.
  intros p q. rewrite !notAfter_le. unfold lengthLexLess.
  destruct (decide (p = q)) as [->|Hne]; [by left; left|].
  destruct (decide (length p = length q)) as [Heq|Hlen].
  - rewrite (decide_True (P:=length q = length p)) by done.
    destruct (lexLess_total p q Heq Hne); [left|right]; by right.
  - rewrite (decide_False (P:=length q = length p)) by (intros ?; done).
    destruct (decide (length p < length q)).
    + left. right. by apply bool_decide_eq_true.
    + right. right. apply bool_decide_eq_true. lia.
Qed.

Lemma notAfter_trans : Transitive (notAfter ResourceIdLess).
Proof.
  intros p q r. rewrite !notAfter_le.
  intros [->|Hpq] [->|Hqr]; [by left|by right|by right|]. right.
  unfold lengthLexLess in *.
  destruct (decide (length p = length q)) as [E1|N1],
           (decide (length q = length r)) as [E2|N2].
  - rewrite decide_True by lia. by eapply lexLess_trans.
  - apply bool_decide_eq_true in Hqr. rewrite decide_False by lia.
    apply bool_decide_eq_true. lia.
  - apply bool_decide_eq_true in Hpq. rewrite decide_False by lia.
    apply bool_decide_eq_true. lia.
  - apply bool_decide_eq_true in Hpq, Hqr. rewrite decide_False by lia.
    apply bool_decide_eq_true. lia.
Qed.

(** What [sort.Slice] leaves: the same paths, each path not longer than
    the paths after it, and of two paths of one length the earlier one is
    the same path or lexicographically less. *)
Lemma sortSlice_sorted (paths : list Path) :
  sortSlice ResourceIdLess paths ≡ₚ paths
  ∧ ∀ i j pi pj,
      i < j →
      sortSlice ResourceIdLess paths !! i = Some pi →
      sortSlice ResourceIdLess paths !! j = Some pj →
      length pi ≤ length pj
      ∧ (length pi = length pj →
         pi = pj ∨ lexLess ResourceIdLess pi pj = true).
Proof.
  split; [apply merge_sort_Permutation|].
  intros i j pi pj Hij Hi Hj.
  pose proof notAfter_total as Htotal. pose proof notAfter_trans as Htrans.
  pose proof (StronglySorted_merge_sort (notAfter ResourceIdLess) paths)
    as Hsorted.
  fold (sortSlice ResourceIdLess paths) in Hsorted.
  assert (notAfter ResourceIdLess pi pj) as Hle.
  { revert Hsorted i j Hij Hi Hj.
    generalize (sortSlice ResourceIdLess paths). intros l Hs.
    induction Hs as [|x l Hs IH Hall]; intros i j Hij Hi Hj;
      [by rewrite lookup_nil in Hi|].
    destruct i as [|i], j as [|j]; simpl in *; try lia.
    - injection Hi as ->. rewrite Forall_forall in Hall. apply Hall.
      by eapply list_elem_of_lookup_2.
    - eapply IH; [|done|done]. lia. }
  apply notAfter_le in Hle. unfold lengthLexLess in Hle.
  destruct Hle as [->|Hle]; [split; [done|by left]|].
  destruct (decide (length pi = length pj)) as [Heq|Hne].
  - split; [lia|]. intros _. by right.
  - apply bool_decide_eq_true in Hle. split; [lia|]. intros ?. lia.
Qed.

End order.

Section expand_edge.
Context {World : Type}.
Variable ops : Collaborators World.
Variable ResourceIdLess : ResourceId → ResourceId → bool.

Hypothesis less_irrefl : ∀ a, ResourceIdLess a a = false.
Hypothesis less_trans : ∀ a b c,
  ResourceIdLess a b = true → ResourceIdLess b c = true →
  ResourceIdLess a c = true.
Hypothesis less_total : ∀ a b,
  a ≠ b → ResourceIdLess a b = true ∨ ResourceIdLess b a = true.

(** C5.  When [ResourceIdLess] is a strict total order on the ids,
    [expandEdge] expands the paths [AllPathsBetween] returned in sorted
    order: the sorted list holds the same paths, a path is never longer
    than a path after it, and of two paths of one length the earlier one
    is lexicographically less over the ids (or the same path); the
    function handed to [sort.Slice] is this order.  When every expansion
    succeeds, the path of the result is the one [ShortestPathStable]
    returns for the temp graph so weighted, called with [ResourceIdLess]
    to break its ties. *)
Theorem expandEdge_sorts_paths_and_takes_stable_shortest_path
  (w : World) (input : ExpansionInput) (paths : list Path) :
  AllPathsBetween ops w (ID (DepSource input)) (ID (DepTarget input))
  = Ok paths →
  let sorted := sortSlice ResourceIdLess paths in
  sorted ≡ₚ paths
  ∧ (∀ i j pi pj,
       i < j → sorted !! i = Some pi → sorted !! j = Some pj →
       length pi ≤ length pj
       ∧ (length pi = length pj →
          pi = pj ∨ lexLess ResourceIdLess pi pj = true))
  ∧ (∀ pi pj,
       pathLess ResourceIdLess pi pj = lengthLexLess ResourceIdLess pi pj)
  ∧ (∀ w' errs,
       expandPaths ops w input sorted = (w', Some errs) →
       expandEdge ops ResourceIdLess w input = (w', None, Some errs))
  ∧ (∀ w' path,
       expandPaths ops w input sorted = (w', None) →
       ShortestPathStable ops w' (ID (DepSource input)) (ID (DepTarget input))
         ResourceIdLess = Ok path →
       expandEdge ops ResourceIdLess w input
       = let '(w, resultResources, err) :=
           renameAndReplaceInTempGraph ops w' input path in
         let '(edges, err') :=
           findSubExpansionsToRun ops (default [] resultResources) w in
         (w, Some edges, joinErr (joinErr None err) err')).
Proof.
  intros Hpaths sorted.
  destruct (sortSlice_sorted ResourceIdLess less_irrefl less_trans less_total
              paths) as [Hperm Hsorted].
  split; [exact Hperm|]. split; [exact Hsorted|].
  split; [apply pathLess_lengthLexLess|].
  split.
  - intros w' errs Hexp. unfold expandEdge. rewrite Hpaths.
    fold sorted. by rewrite Hexp.
  - intros w' path Hexp Hshort. unfold expandEdge. rewrite Hpaths.
    fold sorted. rewrite Hexp. unfold choose. by rewrite Hshort.
Qed.

End expand_edge.

Import examples.

Lemma encodeLess_irrefl a : encodeLess a a = false.
Proof. apply bool_decide_eq_false. lia. Qed.

Lemma encodeLess_trans a b c :
  encodeLess a b = true → encodeLess b c = true → encodeLess a c = true.
Proof.
  unfold encodeLess. rewrite !bool_decide_eq_true. lia.
Qed.

Lemma encodeLess_total a b :
  a ≠ b → encodeLess a b = true ∨ encodeLess b a = true.
Proof.
  intros Hne. unfold encodeLess. rewrite !bool_decide_eq_true.
  assert (encode a ≠ encode b) by (intros ?%(inj encode); done). lia.
Qed.

(** Three paths from api to db under the order of the encodings: the
    direct path comes first, and the expansion ends without error. *)
Lemma expandEdge_sorts_paths_and_takes_stable_shortest_path_witness :
  AllPathsBetween opsThreePaths () apiId dbId
  = Ok [viaProxy; direct; viaCache]
  ∧ sortSlice encodeLess [viaProxy; direct; viaCache] !! 0 = Some direct
  ∧ sortSlice encodeLess [viaProxy; direct; viaCache]
    ≡ₚ [viaProxy; direct; viaCache]
  ∧ expandEdge opsThreePaths encodeLess () apiToDb = ((), Some [], None).
Proof.
  split; [reflexivity|]. split; [vm_compute; reflexivity|].
  destruct (expandEdge_sorts_paths_and_takes_stable_shortest_path
              opsThreePaths encodeLess encodeLess_irrefl encodeLess_trans
              encodeLess_total () apiToDb [viaProxy; direct; viaCache]
              eq_refl) as (Hperm & _ & _ & _ & Hchosen).
  split; [exact Hperm|].
  exact (Hchosen () direct ltac:(vm_compute; reflexivity) eq_refl).
Defined.

End path_order_facts.

(** ** The engine on the instances *)

Module instance_facts.
Import knowledgebase engine examples.
Import knowledgebase_facts kb_expand_facts engine_facts solve_facts.

(** C1, the claim as stated fails.  The construct has two solutions and
    [GenerateCombinations] makes a context of each; no resource is made
    operational, so the solve of either context fails: [Run] returns the
    graph of the first, as the claim says, but no error with it. *)
Lemma Run_returns_no_error_when_every_solve_fails :
  GenerateCombinations allResources
    (expandConstructsTo [solutionApi; solutionDb] engineUnit).1
  = ([contextApi; contextDb], None)
  ∧ callContext <$> ranCalls (runFailing [solutionApi; solutionDb])
    = [contextApi; contextDb]
  ∧ Forall (λ c, is_Some (callErr c))
      (ranCalls (runFailing [solutionApi; solutionDb]))
  ∧ is_Some (solveFailing contextApi).2
  ∧ is_Some (solveFailing contextDb).2
  ∧ ranGraph (runFailing [solutionApi; solutionDb])
    = Some (solveFailing contextApi).1
  ∧ ranErr (runFailing [solutionApi; solutionDb]) = None.
Proof.
  split; [vm_compute; reflexivity|]. split; [vm_compute; reflexivity|].
  split; [vm_compute; repeat constructor; eauto|].
  split; [vm_compute; eauto|]. split; [vm_compute; eauto|].
  split; vm_compute; reflexivity.
Qed.

(** [Run] has no [continue] after a solve that failed.  The construct
    has two solutions; the solve of the first context fails, api not
    being operational, and the solve of the second succeeds: [Run]
    returns the graph of the first, not that of the second, which is
    the graph the specification names, and no error.  And when the only
    context fails to solve, [Run] returns its graph and no error. *)
Lemma Run_returns_first_context_though_it_failed :
  (GenerateCombinations allResources
     (expandConstructsTo [solutionApi; solutionDb] engineUnit).1
   = ([contextApi; contextDb], None)
   ∧ is_Some (solveWith contextApi).2
   ∧ (solveWith contextDb).2 = None
   ∧ ranGraph (runWith [solutionApi; solutionDb])
     = Some (solveWith contextApi).1
   ∧ ranGraph (runWith [solutionApi; solutionDb])
     ≠ Some (solveWith contextDb).1
   ∧ firstSolvedGraph (ranCalls (runWith [solutionApi; solutionDb]))
     = Some (solveWith contextDb).1
   ∧ ranErr (runWith [solutionApi; solutionDb]) = None)
  ∧ (GenerateCombinations allResources
       (expandConstructsTo [solutionApi] engineUnit).1
     = ([contextApi], None)
     ∧ ranGraph (runWith [solutionApi]) = Some (solveWith contextApi).1
     ∧ ranErr (runWith [solutionApi]) = None).
Proof.
  split; [|repeat split; vm_compute; reflexivity].
  split; [vm_compute; reflexivity|].
  split; [vm_compute; eauto|]. split; [vm_compute; reflexivity|].
  split; [vm_compute; reflexivity|].
  split; [|split; vm_compute; reflexivity].
  intros Heq. apply (f_equal (from_option (λ g, core.vertices g !! apiId) None))
    in Heq.
  vm_compute in Heq. discriminate.
Qed.

(** The construct has two solutions, db and api, and a context is made
    of each, in that order; the solve of the first succeeds and that of
    the second fails, api not being operational: [Run] calls
    [SolveGraph] on the two, in order, and returns the graph of the
    first and no error. *)
Lemma Run_returns_first_solved_context_witness :
  prepare applyOk (expandConstructsTo [solutionDb; solutionApi]) allResources
    engineUnit
  = ((expandConstructsTo [solutionDb; solutionApi] engineUnit).1,
     Ok [contextDb; contextApi])
  ∧ (SolveGraph expandOk configureOk operationalButApi satisfied
       (expandConstructsTo [solutionDb; solutionApi] engineUnit).1
       contextDb).2 = None
  ∧ is_Some (solveWith contextApi).2
  ∧ ranErr (runWith [solutionDb; solutionApi]) = None
  ∧ callContext <$> ranCalls (runWith [solutionDb; solutionApi])
    = [contextDb; contextApi]
  ∧ ranGraph (runWith [solutionDb; solutionApi])
    = Some (SolveGraph expandOk configureOk operationalButApi satisfied
              (expandConstructsTo [solutionDb; solutionApi] engineUnit).1
              contextDb).1.
Proof.
  assert (prepare applyOk (expandConstructsTo [solutionDb; solutionApi])
            allResources engineUnit
          = ((expandConstructsTo [solutionDb; solutionApi] engineUnit).1,
             Ok [contextDb; contextApi])) as Hprepare
    by (vm_compute; reflexivity).
  assert ((SolveGraph expandOk configureOk operationalButApi satisfied
             (expandConstructsTo [solutionDb; solutionApi] engineUnit).1
             contextDb).2 = None) as Hsolved
    by (vm_compute; reflexivity).
  split; [exact Hprepare|]. split; [exact Hsolved|].
  split; [vm_compute; eauto|].
  destruct (Run_returns_first_solved_context expandOk configureOk
              operationalButApi satisfied applyOk
              (expandConstructsTo [solutionDb; solutionApi]) allResources
              engineUnit _ _ Hprepare)
    as (Herr & Hcontexts & Hcalls & Hgraph).
  split; [exact Herr|]. split; [exact Hcontexts|].
  unfold runWith.
  destruct (ranCalls (Run expandOk configureOk operationalButApi satisfied
                        applyOk (expandConstructsTo [solutionDb; solutionApi])
                        allResources engineUnit))
    as [|first rest]; [discriminate Hcontexts|].
  injection Hcontexts as Hcontext _.
  apply Forall_cons in Hcalls as [[Hcall _] _].
  destruct (Hgraph first rest eq_refl) as [Hengine Hfirst].
  rewrite Hengine, Hcontext in Hcall.
  assert (callErr first = None) as Hnone.
  { rewrite <- Hsolved. by rewrite Hcall. }
  destruct (Hfirst eq_refl (or_introl Hnone)) as [_ ->]. by rewrite Hcall.
Defined.

(** With [MakeResourcesOperational] failing at every call, [SolveGraph]
    runs five iterations and returns no error. *)
Lemma SolveGraph_returns_nil_after_failing_last_iteration_witness :
  (∀ g, ∃ g' err, neverOperational engine0 g = (g', Err err))
  ∧ (SolveGraph expandOk configureOk neverOperational satisfied engine0
       contextApi).2 = None
  ∧ iterations (solve expandOk configureOk neverOperational satisfied engine0
                  contextApi) = 5.
Proof.
  assert (∀ g, ∃ g' err, neverOperational engine0 g = (g', Err err)) as Hfail
    by (intros g; eexists _, _; reflexivity).
  split; [exact Hfail|].
  destruct (SolveGraph_returns_nil_after_failing_last_iteration expandOk
              configureOk neverOperational satisfied engine0 contextApi Hfail)
    as (Herr & Hn & _).
  split; [exact Herr|exact Hn].
Defined.

(** C8, the claim as stated fails: with [PLAN_ITERATIONS] set to 1,
    [SolveGraph] still runs five iterations. *)
Lemma SolveGraph_ignores_PLAN_ITERATIONS :
  ({["PLAN_ITERATIONS" := "1"]} : gmap string string) !! "PLAN_ITERATIONS"
  = Some "1"
  ∧ iterations (SolveGraphIn expandOk configureOk neverOperational satisfied
                  {["PLAN_ITERATIONS" := "1"]} engine0 contextApi) = 5
  ∧ ¬ (5 ≤ 1).
Proof. split; [reflexivity|]. split; [vm_compute; reflexivity|lia]. Qed.

(** The constraint that api -> db must contain a proxy, applied to the
    working state api -> db: the edge then carries the proxy in its
    [NodeMustExist] list. *)
Lemma handleEdgeConstainConstraint_constrains_expansion_witness :
  (constraints.Operator mustContainProxy
   = constraints.MustContainConstraintOperator
   ∨ constraints.Operator mustContainProxy
     = constraints.MustNotContainConstraintOperator)
  ∧ handleEdgeConstainConstraint engine0 mustContainProxy
    = ((handleEdgeConstainConstraint engine0 mustContainProxy).1, None)
  ∧ ∃ resource new,
      core.GetDependency
        (WorkingState (Context (handleEdgeConstainConstraint engine0
                                  mustContainProxy).1)) apiId dbId
      = Some (AnyEdgeData new)
      ∧ NodeMustExist (Constraint new) = Some [resource].
Proof.
  split; [by left|]. split; [reflexivity|].
  destruct (handleEdgeConstainConstraint_constrains_expansion engine0
              (handleEdgeConstainConstraint engine0 mustContainProxy).1
              mustContainProxy (or_introl eq_refl) eq_refl)
    as (resource & new & _ & Hdep & Hmust & _).
  exists resource, new. split; [exact Hdep|].
  exact (proj1 (Hmust eq_refl)).
Defined.

End instance_facts.
